(** * EE547 HW01, problem 3: the process + analyze stages of the pipeline

    A shallow embedding of [src/problem3/processor/process.py] and
    [src/problem3/analyzer/analyze.py], and the properties of the
    specification checked against it.

    Conventions of the embedding.
    - A Python [str] is a [list ascii]: the code points 0..255 (the ASCII and
      Latin-1 blocks).  The character classes below are the ones CPython
      uses on that range ([str.isspace], [str.isalnum], [str.lower]).
    - The regular expressions of the program are values of [Re.regex], run by
      a backtracking matcher with the semantics of Python's [re] module for
      the constructs the program uses.
    - A Python float is a double (IEEE 754 binary64), written as the rational
      that it denotes ([Q]).  Every operation on floats returns the double
      nearest to the exact result, ties to the even one ([Num.double]).  The
      numbers that the program divides are lengths, below [2^63] in CPython,
      so that no result comes near the limits of the exponent, which
      [Num.double] does not bound.
    - The shared storage area is explicit state ([Processor.world]): the two
      directories [/shared/raw] and [/shared/processed], each a map from file
      names to files.  A name is looked up as it is; the properties in which
      it matters which file a name denotes are stated for names without a
      slash ([Spec.plain_name]), which are the files of the directory
      itself. *)

From Stdlib Require Import ZArith QArith Qround Qabs Qpower Ascii String Bool Lia Lqa.
From stdpp Require Import base option list gmap strings sorting.

Local Open Scope list_scope.
Local Open Scope nat_scope.

(** A Python [str]. *)
Abbreviation str := (list ascii).

(** Literals are written [L "text"]. *)
Definition L (s : string) : str := list_ascii_of_string s.
Arguments L s%_string.

(* ===================================================================== *)
(** ** Character classes *)
(* ===================================================================== *)

Module Chars.

Definition code (c : ascii) : nat := nat_of_ascii c.

Definition between (lo hi : nat) (c : ascii) : bool :=
  (lo <=? code c) && (code c <=? hi).

(** [[a-z]], [[A-Z]], [[0-9]]. *)
Definition is_lower_az (c : ascii) : bool := between 97 122 c.
Definition is_upper_az (c : ascii) : bool := between 65 90 c.
Definition is_digit09 (c : ascii) : bool := between 48 57 c.

(** [[a-zA-Z]]. *)
Definition is_alpha (c : ascii) : bool := is_lower_az c || is_upper_az c.

(** [str.isspace] for one character; also the class [\s] of [re], and what
    [str.strip()] and [str.split()] remove: TAB..CR, FS..US, space, NEL,
    NBSP. *)
Definition is_space (c : ascii) : bool :=
  between 9 13 c || between 28 32 c || (code c =? 133) || (code c =? 160).

(** The Latin-1 characters that [str.isalnum] accepts: feminine ordinal,
    superscript two and three, micro sign, superscript one, masculine ordinal,
    the three vulgar fractions and the letters (all of C0..FF but the
    multiplication and division signs). *)
Definition is_latin1_alnum (c : ascii) : bool :=
  (code c =? 170) || between 178 179 c || (code c =? 181) ||
  between 185 186 c || between 188 190 c ||
  between 192 214 c || between 216 246 c || between 248 255 c.

(** The class [\w] of [re] on a [str] pattern: alphanumeric or underscore. *)
Definition is_word (c : ascii) : bool :=
  is_alpha c || is_digit09 c || (code c =? 95) || is_latin1_alnum c.

(** [str.lower] for one character. *)
Definition lower_char (c : ascii) : ascii :=
  if is_upper_az c || between 192 214 c || between 216 222 c
  then ascii_of_nat (code c + 32)
  else c.

(** Equality of two characters under [re.IGNORECASE]. *)
Definition eq_nocase (a b : ascii) : bool :=
  Ascii.eqb (lower_char a) (lower_char b).

(** Membership in a bracketed set such as [[.!?]]. *)
Definition one_of (set : string) (c : ascii) : bool :=
  existsb (Ascii.eqb c) (list_ascii_of_string set).
Arguments one_of set%_string c.

(** A negated set such as [[^>]]. *)
Definition none_of (set : string) (c : ascii) : bool := negb (one_of set c).
Arguments none_of set%_string c.

End Chars.

(* ===================================================================== *)
(** ** String methods *)
(* ===================================================================== *)

Module Str.
Import Chars.

(** [s.lower()]. *)
Definition lower (s : str) : str := map lower_char s.

Fixpoint lstrip (s : str) : str :=
  match s with
  | c :: s' => if is_space c then lstrip s' else s
  | [] => []
  end.

Definition rstrip (s : str) : str := reverse (lstrip (reverse s)).

(** [s.strip()]. *)
Definition strip (s : str) : str := rstrip (lstrip s).

(** [s.split()]: the maximal runs of non-whitespace characters.  [cur] holds
    the run being read, reversed. *)
Fixpoint split_ws_from (cur : str) (s : str) : list str :=
  match s with
  | c :: s' =>
      if is_space c
      then match cur with
           | [] => split_ws_from [] s'
           | _ => reverse cur :: split_ws_from [] s'
           end
      else split_ws_from (c :: cur) s'
  | [] => match cur with [] => [] | _ => [reverse cur] end
  end.

Definition split_ws (s : str) : list str := split_ws_from [] s.

(** [sep.join(parts)]. *)
Fixpoint join (sep : str) (parts : list str) : str :=
  match parts with
  | [] => []
  | [p] => p
  | p :: ps => p ++ sep ++ join sep ps
  end.

(** [s.replace(old, new)]: every non-overlapping occurrence, left to right. *)
Fixpoint starts_with (p s : str) : bool :=
  match p, s with
  | [], _ => true
  | a :: p', b :: s' => Ascii.eqb a b && starts_with p' s'
  | _ :: _, [] => false
  end.

Fixpoint replace_from (old new : str) (skip : nat) (s : str) : str :=
  match skip with
  | S k => match s with [] => [] | _ :: s' => replace_from old new k s' end
  | O =>
      match s with
      | [] => []
      | c :: s' =>
          if starts_with old s
          then new ++ replace_from old new (pred (length old)) s'
          else c :: replace_from old new 0 s'
      end
  end.

(** Only called with a non-empty [old] (the program replaces ".html"). *)
Definition replace (old new s : str) : str := replace_from old new 0 s.

(** The longest prefix of [s] whose characters all satisfy [p], and what
    follows it. *)
Fixpoint take_run (p : ascii -> bool) (s : str) : str :=
  match s with
  | c :: s' => if p c then c :: take_run p s' else []
  | [] => []
  end.

Fixpoint drop_run (p : ascii -> bool) (s : str) : str :=
  match s with
  | c :: s' => if p c then drop_run p s' else s
  | [] => []
  end.

(** The maximal runs of characters satisfying [p], in the order of the text.
    [cur] holds the run being read, reversed. *)
Fixpoint runs_from (p : ascii -> bool) (cur : str) (s : str) : list str :=
  match s with
  | c :: s' =>
      if p c then runs_from p (c :: cur) s'
      else match cur with
           | [] => runs_from p [] s'
           | _ => reverse cur :: runs_from p [] s'
           end
  | [] => match cur with [] => [] | _ => [reverse cur] end
  end.

Definition runs (p : ascii -> bool) (s : str) : list str := runs_from p [] s.

End Str.

(* ===================================================================== *)
(** ** Regular expressions *)
(* ===================================================================== *)

Module Re.
Import Chars.

(** How often a one-character item repeats: [x], [x?], [x*], [x+], [x*?]. *)
Inductive quant := Once | Opt | Star | Plus | StarLazy.

(** A pattern is a sequence of items: a one-character matcher with its
    quantifier, inside capture group 1 or not, or the assertion [\b]. *)
Inductive node :=
| Rep (cap : bool) (p : ascii -> bool) (q : quant)
| WordB.

Definition regex := list node.

(** A match: the matched text, the text of group 1 and what follows. *)
Record mres := MRes { whole : str; grp : str; rest : str }.

Definition push (cap : bool) (c : ascii) (r : mres) : mres :=
  {| whole := c :: whole r;
     grp := if cap then c :: grp r else grp r;
     rest := rest r |}.

(** The matcher is written in continuation-passing style: [k prev s] matches
    the rest of the pattern at the suffix [s], [prev] being the character
    before it ([None] at the start of the string). *)
Definition cont := option ascii -> str -> option mres.

Definition final : cont := fun _ s => Some {| whole := []; grp := []; rest := s |}.

Definition once (cap : bool) (p : ascii -> bool) (k : cont) : cont :=
  fun prev s =>
    match s with
    | c :: s' => if p c then push cap c <$> k (Some c) s' else None
    | [] => None
    end.

(** Greedy: take one more character if the rest then matches, else stop. *)
Definition opt (cap : bool) (p : ascii -> bool) (k : cont) : cont :=
  fun prev s =>
    match once cap p k prev s with
    | Some r => Some r
    | None => k prev s
    end.

Fixpoint star (cap : bool) (p : ascii -> bool) (k : cont)
    (prev : option ascii) (s : str) : option mres :=
  match s with
  | c :: s' =>
      if p c
      then match star cap p k (Some c) s' with
           | Some r => Some (push cap c r)
           | None => k prev s
           end
      else k prev s
  | [] => k prev []
  end.

(** Lazy: stop as soon as the rest matches, else take one more character. *)
Fixpoint star_lazy (cap : bool) (p : ascii -> bool) (k : cont)
    (prev : option ascii) (s : str) : option mres :=
  match k prev s with
  | Some r => Some r
  | None =>
      match s with
      | c :: s' => if p c then push cap c <$> star_lazy cap p k (Some c) s' else None
      | [] => None
      end
  end.

Definition is_word_opt (o : option ascii) : bool :=
  match o with Some c => is_word c | None => false end.

(** [\b]: exactly one of the two neighbours is a word character. *)
Definition at_boundary (prev : option ascii) (s : str) : bool :=
  xorb (is_word_opt prev) (is_word_opt (head s)).

Definition step (n : node) (k : cont) : cont :=
  match n with
  | Rep cap p Once => once cap p k
  | Rep cap p Opt => opt cap p k
  | Rep cap p Star => star cap p k
  | Rep cap p Plus => once cap p (star cap p k)
  | Rep cap p StarLazy => star_lazy cap p k
  | WordB => fun prev s => if at_boundary prev s then k prev s else None
  end.

(** [match_at rx prev s]: the match of [rx] that starts at [s], if any. *)
Definition match_at (rx : regex) : cont := foldr step final rx.

Definition has_group (rx : regex) : bool :=
  existsb (fun n => match n with Rep cap _ _ => cap | WordB => false end) rx.

(** What [findall] reports for a match: group 1 if the pattern has one,
    else the whole match. *)
Definition reported (rx : regex) (r : mres) : str :=
  if has_group rx then grp r else whole r.

(** The scanners walk the string once.  [skip] counts the characters still
    covered by the last match; at [skip = 0] a match is tried at the current
    position.  A match is followed by a step of at least one character (all
    patterns of the program need at least one character to match). *)
Fixpoint findall_from (rx : regex) (prev : option ascii) (skip : nat) (s : str)
    : list str :=
  match skip with
  | S k =>
      match s with
      | [] => []
      | c :: s' => findall_from rx (Some c) k s'
      end
  | O =>
      match match_at rx prev s with
      | Some r =>
          reported rx r ::
          match s with
          | [] => []
          | c :: s' => findall_from rx (Some c) (pred (length (whole r))) s'
          end
      | None =>
          match s with
          | [] => []
          | c :: s' => findall_from rx (Some c) 0 s'
          end
      end
  end.

(** [re.findall(rx, s)]. *)
Definition findall (rx : regex) (s : str) : list str := findall_from rx None 0 s.

Fixpoint sub_from (rx : regex) (repl : str) (prev : option ascii) (skip : nat)
    (s : str) : str :=
  match skip with
  | S k =>
      match s with
      | [] => []
      | c :: s' => sub_from rx repl (Some c) k s'
      end
  | O =>
      match match_at rx prev s with
      | Some r =>
          repl ++
          match s with
          | [] => []
          | c :: s' =>
              match whole r with
              | [] => c :: sub_from rx repl (Some c) 0 s'
              | _ :: w => sub_from rx repl (Some c) (length w) s'
              end
          end
      | None =>
          match s with
          | [] => []
          | c :: s' => c :: sub_from rx repl (Some c) 0 s'
          end
      end
  end.

(** [re.sub(rx, repl, s)]. *)
Definition sub (rx : regex) (repl : str) (s : str) : str := sub_from rx repl None 0 s.

(** [cur] is the piece being read, reversed. *)
Fixpoint split_from (rx : regex) (prev : option ascii) (skip : nat) (cur : str)
    (s : str) : list str :=
  match skip with
  | S k =>
      match s with
      | [] => [reverse cur]
      | c :: s' => split_from rx (Some c) k cur s'
      end
  | O =>
      match s with
      | [] => [reverse cur]
      | c :: s' =>
          match match_at rx prev s with
          | Some r =>
              match whole r with
              | [] => split_from rx (Some c) 0 (c :: cur) s'
              | _ :: w => reverse cur :: split_from rx (Some c) (length w) [] s'
              end
          | None => split_from rx (Some c) 0 (c :: cur) s'
          end
      end
  end.

(** [re.split(rx, s)] for a pattern without groups. *)
Definition split (rx : regex) (s : str) : list str := split_from rx None 0 [] s.

(** Pattern syntax. *)
Definition lit (c : ascii) : node := Rep false (Ascii.eqb c) Once.
Definition lit_nocase (c : ascii) : node := Rep false (eq_nocase c) Once.
Definition text (s : string) : regex := map lit (list_ascii_of_string s).
Definition text_nocase (s : string) : regex := map lit_nocase (list_ascii_of_string s).
Arguments text s%_string.
Arguments text_nocase s%_string.
Definition cls (p : ascii -> bool) (q : quant) : node := Rep false p q.
Definition group (p : ascii -> bool) (q : quant) : node := Rep true p q.
Definition dot_all (c : ascii) : bool := true.

End Re.

(* ===================================================================== *)
(** ** Numbers *)
(* ===================================================================== *)

Module Num.
Local Open Scope Q_scope.

(** The exact quotient of two non-negative integers, for [b > 0]. *)
Definition ratio (a b : nat) : Q := inject_Z (Z.of_nat a) / inject_Z (Z.of_nat b).

(** [x > 0]. *)
Definition is_pos (x : Q) : bool := (0 <? Qnum x)%Z.

(** The integer nearest to [x], ties to the even one. *)
Definition round_half_even (x : Q) : Z :=
  let f := Qfloor x in
  let r := x - inject_Z f in
  match Qcompare r (1 # 2) with
  | Lt => f
  | Gt => (f + 1)%Z
  | Eq => if Z.even f then f else (f + 1)%Z
  end.

(** [2 ^ k] for an integer [k]. *)
Definition pow2 (k : Z) : Q := 2 ^ k.

(** The binary exponent of [x], for [x] other than 0: the [e] with
    [2 ^ e <= |x| < 2 ^ (e + 1)]. *)
Definition exponent (x : Q) : Z :=
  let d := (Z.log2 (Z.abs (Qnum x)) - Z.log2 (Zpos (Qden x)))%Z in
  if Qle_bool (pow2 d) (Qabs x) then d else (d - 1)%Z.

(** The double nearest to [x], ties to the even one: [x] is rounded to 53
    significant bits, that is, to a multiple of [2 ^ (e - 52)]. *)
Definition double (x : Q) : Q :=
  if Qeq_bool x 0 then 0
  else let ulp := pow2 (exponent x - 52) in
       Qred (inject_Z (round_half_even (x / ulp)) * ulp).

(** [a / b] of two non-negative integers as Python computes it, for
    [b > 0]: the double nearest to the quotient. *)
Definition div (a b : nat) : Q := double (ratio a b).

(** [x * y] and [x - y] of two floats. *)
Definition mul (x y : Q) : Q := double (x * y).
Definition sub (x y : Q) : Q := double (x - y).

(** [round(x, ndigits)] of a float [x]: the value of [x] is rounded to
    [ndigits] decimals, ties to the even one, and the result is the double
    nearest to that decimal number. *)
Definition round (x : Q) (ndigits : nat) : Q :=
  let scale := inject_Z (10 ^ Z.of_nat ndigits) in
  double (inject_Z (round_half_even (x * scale)) / scale).

End Num.

(* ===================================================================== *)
(** ** The Processor: [processor/process.py] *)
(* ===================================================================== *)

Module Processor.
Import Chars Re.

Definition dquote : ascii := ascii_of_nat 34.

(** The class of the two quote characters, single and double. *)
Definition is_quote (c : ascii) : bool := Ascii.eqb c "'" || Ascii.eqb c dquote.

(** The negated class of the pattern: anything but a quote, a space or
    the closing angle bracket. *)
Definition is_value_char (c : ascii) : bool :=
  negb (is_quote c || Ascii.eqb c " " || Ascii.eqb c ">").

(** [<script[^>]*>.*?</script>] with [re.DOTALL | re.IGNORECASE]. *)
Definition rx_script : regex :=
  text_nocase "<script" ++ [cls (none_of ">") Star; lit ">"; cls dot_all StarLazy]
  ++ text_nocase "</script>".

(** [<style[^>]*>.*?</style>] with [re.DOTALL | re.IGNORECASE]. *)
Definition rx_style : regex :=
  text_nocase "<style" ++ [cls (none_of ">") Star; lit ">"; cls dot_all StarLazy]
  ++ text_nocase "</style>".

(** The [href=] pattern with [re.IGNORECASE]: the attribute name and the
    equals sign, an optional quote, then group 1, one or more value
    characters. *)
Definition rx_href : regex :=
  text_nocase "href=" ++ [cls is_quote Opt; group is_value_char Plus].

(** The [src=] pattern with [re.IGNORECASE], of the same shape. *)
Definition rx_src : regex :=
  text_nocase "src=" ++ [cls is_quote Opt; group is_value_char Plus].

(** [<[^>]+>]. *)
Definition rx_tag : regex := [lit "<"; cls (none_of ">") Plus; lit ">"].

(** [\s+]. *)
Definition rx_spaces : regex := [cls is_space Plus].

(** [[.!?]+]. *)
Definition rx_sentence_end : regex := [cls (one_of ".!?") Plus].

(** [\n\s*\n]. *)
Definition newline : ascii := ascii_of_nat 10.
Definition rx_blank_line : regex := [lit newline; cls is_space Star; lit newline].

(** The markup once the script and style elements are removed. *)
Definition remove_blocks (html_content : str) : str :=
  sub rx_style [] (sub rx_script [] html_content).

Definition strip_html (html_content : str) : str * list str * list str :=
  let html_content := sub rx_script [] html_content in
  let html_content := sub rx_style [] html_content in
  let links := findall rx_href html_content in
  let images := findall rx_src html_content in
  let text := sub rx_tag (L " ") html_content in
  let text := Str.strip (sub rx_spaces (L " ") text) in
  (text, links, images).

Definition text_of (r : str * list str * list str) : str := r.1.1.
Definition links_of (r : str * list str * list str) : list str := r.1.2.
Definition images_of (r : str * list str * list str) : list str := r.2.

Record statistics := Statistics {
  word_count : nat;
  sentence_count : nat;
  paragraph_count : nat;
  avg_word_length : Q
}.

Definition nonblank (s : str) : bool :=
  match Str.strip s with [] => false | _ => true end.

(** [[s.strip() for s in pieces if s.strip()]]. *)
Definition stripped_nonblank (pieces : list str) : list str :=
  map Str.strip (List.filter nonblank pieces).

Definition sum_lengths (words : list str) : nat :=
  foldr (fun w acc => length w + acc) 0 words.

Definition count_statistics (text : str) : statistics :=
  let words := List.filter nonblank (Str.split_ws text) in
  let word_count := length words in
  let sentences := stripped_nonblank (split rx_sentence_end text) in
  let sentence_count := length sentences in
  let paragraphs := stripped_nonblank (split rx_blank_line text) in
  let paragraph_count := length paragraphs in
  let avg_word_length :=
    if 0 <? word_count then Num.div (sum_lengths words) word_count else 0%Q in
  {| word_count := word_count;
     sentence_count := sentence_count;
     paragraph_count := paragraph_count;
     avg_word_length := Num.round avg_word_length 2 |}.

(** The record written for one document.  The [processed_at] time stamp is
    left out: no decision of the program reads it. *)
Record processed_document := ProcessedDocument {
  pd_source_file : str;
  pd_text : str;
  pd_statistics : statistics;
  pd_links : list str;
  pd_images : list str
}.

(** What a path of the processed-documents directory holds: a record that
    [json.dump] wrote in full, or the beginning of one ([open(path, 'w')]
    created or emptied the file and [json.dump] then raised). *)
Inductive artifact :=
| Written (d : processed_document)
| Truncated.

(** The shared storage area.  [raw_dir] maps the name of a raw document to its
    text as [f.read()] returns it (decoded with [errors='ignore'], which never
    raises); a name that is absent stands for any failure of [open] or
    [read]. *)
Record world := World {
  raw_dir : gmap str str;
  processed_dir : gmap str artifact
}.

(** What happens when one output file is written: all of it, nothing ([open]
    raises) or a part of it ([json.dump] raises). *)
Inductive write_outcome := WriteOk | OpenFails | DumpFails.

(** [os.path.basename]: what follows the last slash. *)
Fixpoint basename_from (cur : str) (path : str) : str :=
  match path with
  | [] => reverse cur
  | c :: path' =>
      if Ascii.eqb c "/" then basename_from [] path' else basename_from (c :: cur) path'
  end.

Definition basename (path : str) : str := basename_from [] path.

(** The record that [process_html_file] builds from the text of a raw
    document. *)
Definition render (source_file html_content : str) : processed_document :=
  let '(text, links, images) := strip_html html_content in
  let statistics := count_statistics text in
  {| pd_source_file := basename (L "/shared/raw/" ++ source_file);
     pd_text := text;
     pd_statistics := statistics;
     pd_links := links;
     pd_images := images |}.

(** [process_html_file], with [source_file] and [output_file] the names
    inside [/shared/raw/] and [/shared/processed/], and [out] telling how the
    write goes.  The result is [None] where the Python function catches an
    exception. *)
Definition process_html_file (out : write_outcome) (source_file output_file : str)
    (w : world) : option processed_document * world :=
  match raw_dir w !! source_file with
  | None => (None, w)
  | Some html_content =>
      let result := render source_file html_content in
      match out with
      | WriteOk =>
          (Some result,
           {| raw_dir := raw_dir w;
              processed_dir := <[output_file := Written result]> (processed_dir w) |})
      | OpenFails => (None, w)
      | DumpFails =>
          (None,
           {| raw_dir := raw_dir w;
              processed_dir := <[output_file := Truncated]> (processed_dir w) |})
      end
  end.

(** One item of the fetch stage's completion record. *)
Record fetch_item := FetchItem {
  file : str;
  fetch_status : str
}.

(** One item of the Processor's completion record; the three counts are
    present on success only. *)
Record item_result := ItemResult {
  source_file : str;
  output_file : str;
  status : str;
  counts : option (nat * nat * nat)
}.

Record completion := Completion {
  files_processed : nat;
  successful : nat;
  failed : nat;
  results : list item_result
}.

Definition is_success (s : str) : bool := bool_decide (s = L "success").
Definition is_failed (s : str) : bool := bool_decide (s = L "failed").

(** [source_file.replace('.html', '.json')]. *)
Definition output_name (source_file : str) : str :=
  Str.replace (L ".html") (L ".json") source_file.

(** The body of the loop of [main] for the item handled [i]-th. *)
Definition process_item (env : nat -> write_outcome) (i : nat) (it : fetch_item)
    (w : world) : item_result * world :=
  let source_file := file it in
  let output_file := output_name source_file in
  match process_html_file (env i) source_file output_file w with
  | (Some processed_result, w') =>
      ({| source_file := source_file;
          output_file := output_file;
          status := L "success";
          counts := Some (word_count (pd_statistics processed_result),
                          length (pd_links processed_result),
                          length (pd_images processed_result)) |}, w')
  | (None, w') =>
      ({| source_file := source_file;
          output_file := output_file;
          status := L "failed";
          counts := None |}, w')
  end.

Fixpoint process_all (env : nat -> write_outcome) (i : nat) (items : list fetch_item)
    (w : world) : list item_result * world :=
  match items with
  | [] => ([], w)
  | it :: items' =>
      let '(r, w1) := process_item env i it w in
      let '(rs, w2) := process_all env (S i) items' w1 in
      (r :: rs, w2)
  end.

Definition count_status (p : str -> bool) (rs : list item_result) : nat :=
  length (List.filter (fun r => p (status r)) rs).

(** [main], once the fetch stage's completion record is there: the record
    handed to [json.dump] and the storage area left behind.  [env] tells how
    the write of each item goes. *)
Definition main (env : nat -> write_outcome) (fetch_results : list fetch_item)
    (w : world) : completion * world :=
  let successful_files :=
    List.filter (fun r => is_success (fetch_status r)) fetch_results in
  let '(results, w') := process_all env 0 successful_files w in
  ({| files_processed := length results;
      successful := count_status is_success results;
      failed := count_status is_failed results;
      results := results |}, w').

End Processor.

(* ===================================================================== *)
(** ** The Analyzer: [analyzer/analyze.py] *)
(* ===================================================================== *)

Module Analyzer.
Import Chars Re.

(** [set(words)]. *)
Definition to_set (words : list str) : gset str := list_to_set words.

(** The result is written as the exact quotient; the float that the Python
    function returns is the double nearest to it, which [similarity_at] takes
    before it rounds. *)
Definition jaccard_similarity (doc1_words doc2_words : list str) : Q :=
  let set1 := to_set doc1_words in
  let set2 := to_set doc2_words in
  let intersection := set1 ∩ set2 in
  let union := set1 ∪ set2 in
  if bool_decide (union = ∅) then 0%Q
  else Num.ratio (size intersection) (size union).

(** [\b[a-zA-Z]+\b]. *)
Definition rx_word : regex := [WordB; cls is_alpha Plus; WordB].

Definition tokenize_text (text : str) : list str :=
  findall rx_word (Str.lower text).

(** [words[i:i+n]]. *)
Definition slice (words : list str) (i n : nat) : list str := take n (drop i words).

Definition extract_ngrams (words : list str) (n : nat) : list str :=
  if length words <? n then []
  else map (fun i => Str.join (L " ") (slice words i n))
           (seq 0 (length words - n + 1)).

(** [[aeiouy]+]. *)
Definition rx_vowels : regex := [cls (one_of "aeiouy") Plus].

(** The syllable estimate of the inner loop of
    [calculate_readability_metrics]. *)
Definition syllable_count (word : str) : nat :=
  let syllable_count := length (findall rx_vowels word) in
  if syllable_count =? 0 then 1 else syllable_count.

(** The four totals that the loop of [calculate_readability_metrics]
    accumulates. *)
Record totals := Totals {
  total_sentences : nat;
  total_words : nat;
  total_syllables : nat;
  total_chars : nat
}.

Definition sum_nat (l : list nat) : nat := foldr Nat.add 0 l.

Definition add_text (t : totals) (text : str) : totals :=
  let sentences :=
    Processor.stripped_nonblank (split Processor.rx_sentence_end text) in
  let words := tokenize_text text in
  {| total_sentences := total_sentences t + length sentences;
     total_words := total_words t + length words;
     total_syllables := total_syllables t + sum_nat (map syllable_count words);
     total_chars := total_chars t + sum_nat (map length words) |}.

Definition corpus_totals (all_texts : list str) : totals :=
  foldl add_text {| total_sentences := 0; total_words := 0;
                    total_syllables := 0; total_chars := 0 |} all_texts.

(** The three averages and the score in exact arithmetic: the numbers that
    the floats of [calculate_readability_metrics] approximate. *)
Definition avg_sentence_length_of (t : totals) : Q :=
  if 0 <? total_sentences t then Num.ratio (total_words t) (total_sentences t) else 0%Q.


Definition avg_syllables_per_word_of (t : totals) : Q :=
  if 0 <? total_words t then Num.ratio (total_syllables t) (total_words t) else 0%Q.

Definition complexity_score_of (t : totals) : Q :=
  let avg_sentence_length := avg_sentence_length_of t in
  let avg_syllables_per_word := avg_syllables_per_word_of t in
  if Num.is_pos avg_sentence_length && Num.is_pos avg_syllables_per_word
  then (206835 # 1000) - (1015 # 1000) * avg_sentence_length
       - (846 # 10) * avg_syllables_per_word
  else 0%Q.

Record readability := Readability {
  avg_sentence_length : Q;
  avg_word_length : Q;
  complexity_score : Q
}.

(** The float literals of the score formula. *)
Definition c_206_835 : Q := Num.double (206835 # 1000).
Definition c_1_015 : Q := Num.double (1015 # 1000).
Definition c_84_6 : Q := Num.double (846 # 10).

(** The local variable [complexity_score], before it is rounded, for the
    two averages that it is computed from. *)
Definition complexity (avg_sentence_length avg_syllables_per_word : Q) : Q :=
  if Num.is_pos avg_sentence_length && Num.is_pos avg_syllables_per_word
  then Num.sub (Num.sub c_206_835 (Num.mul c_1_015 avg_sentence_length))
               (Num.mul c_84_6 avg_syllables_per_word)
  else 0%Q.

(** The part of [calculate_readability_metrics] that follows the loop: the
    metrics computed from the four totals. *)
Definition metrics_of (t : totals) : readability :=
  let avg_sentence_length :=
    if 0 <? total_sentences t then Num.div (total_words t) (total_sentences t)
    else 0%Q in
  let avg_word_length :=
    if 0 <? total_words t then Num.div (total_chars t) (total_words t) else 0%Q in
  let avg_syllables_per_word :=
    if 0 <? total_words t then Num.div (total_syllables t) (total_words t)
    else 0%Q in
  let complexity_score := complexity avg_sentence_length avg_syllables_per_word in
  {| avg_sentence_length := Num.round avg_sentence_length 2;
     avg_word_length := Num.round avg_word_length 2;
     complexity_score := Num.round complexity_score 2 |}.

Definition calculate_readability_metrics (all_texts : list str) : readability :=
  metrics_of (corpus_totals all_texts).

(** One entry of [documents_data]. *)
Record document := Document {
  filename : str;
  words : list str;
  doc_word_count : nat
}.

(** What [analyze_corpus] collects.  The three frequency counters feed only
    the ranked tables of the report and are left out with them. *)
Record corpus := Corpus {
  all_words : list str;
  all_texts : list str;
  documents_data : list document
}.

(** Reading one processed document: [json.load] and [data.get("text", "")].
    A path that is absent or holds a truncated file makes [open] or
    [json.load] raise. *)
Definition load_text (w : Processor.world) (output_file : str) : option str :=
  match Processor.processed_dir w !! output_file with
  | Some (Processor.Written d) => Some (Processor.pd_text d)
  | Some Processor.Truncated => None
  | None => None
  end.

Definition analyze_one (w : Processor.world) (c : corpus)
    (file_info : Processor.item_result) : corpus :=
  if Processor.is_success (Processor.status file_info) then
    match load_text w (Processor.output_file file_info) with
    | Some text =>
        let words := tokenize_text text in
        {| all_words := all_words c ++ words;
           all_texts := all_texts c ++ [text];
           documents_data :=
             documents_data c ++
             [{| filename := Processor.output_file file_info;
                 words := words;
                 doc_word_count := length words |}] |}
    | None => c
    end
  else c.

Definition analyze_corpus (w : Processor.world)
    (processed_files : list Processor.item_result) : corpus :=
  foldl (analyze_one w)
        {| all_words := []; all_texts := []; documents_data := [] |}
        processed_files.

Record similarity_entry := SimilarityEntry {
  doc1 : str;
  doc2 : str;
  similarity : Q
}.

(** The pairs [(i, j)] that the two nested [for] loops visit, in order. *)
Definition index_pairs (n : nat) : list (nat * nat) :=
  flat_map (fun i => map (fun j => (i, j)) (seq (i + 1) (n - (i + 1)))) (seq 0 n).

Definition similarity_at (documents_data : list document) (ij : nat * nat)
    : option similarity_entry :=
  d1 ← documents_data !! ij.1;
  d2 ← documents_data !! ij.2;
  Some {| doc1 := filename d1;
          doc2 := filename d2;
          similarity :=
            Num.round (Num.double (jaccard_similarity (words d1) (words d2))) 4 |}.

Definition calculate_document_similarities (documents_data : list document)
    : list similarity_entry :=
  omap (similarity_at documents_data) (index_pairs (length documents_data)).

(** The final report, without its time stamp and its two ranked tables. *)
Record final_report := FinalReport {
  documents_processed : nat;
  report_total_words : nat;
  unique_words : nat;
  document_similarity : list similarity_entry;
  report_readability : readability
}.

(** [main], once the Processor's completion record is there: the report that
    is written, or [None] when [main] returns without writing one. *)
Definition main (w : Processor.world) (process_results : list Processor.item_result)
    : option final_report :=
  let successful_files :=
    List.filter (fun r => Processor.is_success (Processor.status r)) process_results in
  match successful_files with
  | [] => None
  | _ =>
      let corpus_data := analyze_corpus w successful_files in
      let similarities := calculate_document_similarities (documents_data corpus_data) in
      let readability := calculate_readability_metrics (all_texts corpus_data) in
      Some {| documents_processed := length successful_files;
              report_total_words := length (all_words corpus_data);
              unique_words := size (to_set (all_words corpus_data));
              document_similarity := similarities;
              report_readability := readability |}
  end.

End Analyzer.

(* ===================================================================== *)
(** ** Notions used to state the properties *)
(* ===================================================================== *)

Module Spec.
Import Chars Re Str.

(** *** Tokens *)

(** The maximal runs of letters of the lower-cased text: the tokens under
    the reading in which digits and punctuation only separate words. *)
Definition letter_runs (text : str) : list str := runs is_alpha (lower text).

Definition only_letters (run : str) : bool := forallb is_alpha run.

(** The maximal runs of word characters (letters, digits, underscore) that
    are made of letters only. *)
Definition letter_words (s : str) : list str := List.filter only_letters (runs is_word s).

(** *** Markup *)



(** Whether [s] starts with [pat], letter case aside. *)
Fixpoint starts_nocase (pat s : str) : bool :=
  match pat, s with
  | [], _ => true
  | a :: pat', b :: s' => eq_nocase a b && starts_nocase pat' s'
  | _ :: _, [] => false
  end.



(** The pattern that removes the elements called [name]; the two patterns of
    [strip_html] are [rx_block "script"] and [rx_block "style"]. *)
Definition rx_block (name : string) : regex :=
  text_nocase ("<" ++ name) ++ [cls (none_of ">") Star; lit ">"; cls dot_all StarLazy]
  ++ text_nocase ("</" ++ name ++ ">").

(** The pattern that reads the values of an attribute; the two patterns of
    [strip_html] are [rx_attr "href="] and [rx_attr "src="]. *)
Definition rx_attr (name : string) : regex :=
  text_nocase name ++ [cls Processor.is_quote Opt; group Processor.is_value_char Plus].

(** An element as it is written: the opening tag with its attributes, the
    body and the closing tag. *)
Definition element (name : string) (attrs body : str) : str :=
  L ("<" ++ name) ++ attrs ++ ">"%char :: body ++ L ("</" ++ name ++ ">").




(** What the pattern of an attribute reads at the start of [s], without the
    matcher: when [s] starts with the attribute name (letter case aside),
    followed by at most one quote and then by one or more value characters,
    the value is that run of value characters, as far as it goes, and the
    match ends with it.  The result is the value and the length of the
    match. *)
Definition attr_at (name : str) (s : str) : option (str * nat) :=
  if starts_nocase name s then
    let after := drop (length name) s in
    let quoted := match after with c :: _ => Processor.is_quote c | [] => false end in
    let body := if quoted then drop 1 after else after in
    match take_run Processor.is_value_char body with
    | [] => None
    | value => Some (value, length name + (if quoted then 1 else 0) + length value)
    end
  else None.

(** The values of an attribute in [s], from left to right: a value is read at
    every position that is not inside an earlier match.  [skip] counts the
    characters still covered by the last match. *)
Fixpoint attr_values_from (name : str) (skip : nat) (s : str) : list str :=
  match skip with
  | S k => match s with [] => [] | _ :: s' => attr_values_from name k s' end
  | O =>
      match s with
      | [] => []
      | _ :: s' =>
          match attr_at name s with
          | Some (value, n) => value :: attr_values_from name (pred n) s'
          | None => attr_values_from name 0 s'
          end
      end
  end.

Definition attr_values (name : str) (s : str) : list str := attr_values_from name 0 s.

(** *** File names *)

(** A name without a slash: the name of a file of the directory in which it
    is looked up.  (A name with a slash denotes a file of another directory,
    or the same file as another name does; the storage area of the embedding
    has the files of the two directories only, each under its name.) *)
Definition plain_name (name : str) : Prop := "/"%char ∉ name.

(** The names of the items that the Processor handles are plain. *)
Definition plain_batch (fetch_results : list Processor.fetch_item) : Prop :=
  Forall (λ it, Processor.is_success (Processor.fetch_status it) = true →
                plain_name (Processor.file it)) fetch_results.

(** *** Readability *)

Definition sentences_of (text : str) : list str :=
  Processor.stripped_nonblank (split Processor.rx_sentence_end text).

Definition words_in (text : str) : nat := length (Analyzer.tokenize_text text).

Definition sentences_in (text : str) : nat := length (sentences_of text).

Definition syllables_in (text : str) : nat :=
  Analyzer.sum_nat (map Analyzer.syllable_count (Analyzer.tokenize_text text)).

Definition chars_in (text : str) : nat :=
  Analyzer.sum_nat (map length (Analyzer.tokenize_text text)).

(** *** The batch of the Processor *)

(** Whether the item handled [i]-th goes through: its raw document can be
    read and its output is written in full. *)
Definition item_ok (env : nat → Processor.write_outcome) (w : Processor.world) (i : nat)
    (it : Processor.fetch_item) : bool :=
  match Processor.raw_dir w !! Processor.file it, env i with
  | Some _, Processor.WriteOk => true
  | _, _ => false
  end.

(** *** The corpus of the Analyzer *)

(** The order of the two nested loops: by first index, then by second. *)
Definition pair_lt (p q : nat * nat) : Prop :=
  p.1 < q.1 ∨ (p.1 = q.1 ∧ p.2 < q.2).

(** The document that [analyze_corpus] records for one item, if any. *)
Definition loaded (w : Processor.world) (file_info : Processor.item_result)
    : option Analyzer.document :=
  if Processor.is_success (Processor.status file_info) then
    text ← Analyzer.load_text w (Processor.output_file file_info);
    Some {| Analyzer.filename := Processor.output_file file_info;
            Analyzer.words := Analyzer.tokenize_text text;
            Analyzer.doc_word_count := length (Analyzer.tokenize_text text) |}
  else None.

End Spec.

(* ===================================================================== *)
(** ** Notions used in the proofs *)
(* ===================================================================== *)

Module Aux.
Import Chars Re Str.

(** The character before the position reached after reading [a]. *)
Definition prev_after (prev : option ascii) (a : str) : option ascii :=
  match last a with Some c => Some c | None => prev end.

(** A continuation is sound when a match splits the text it was given. *)
Definition sound (k : cont) : Prop :=
  ∀ prev s r, k prev s = Some r → s = whole r ++ rest r.

Definition emit (l : str) : list str := match l with [] => [] | _ => [l] end.

(** A match that read [run] before the match [r]. *)
Definition pushes (cap : bool) (run : str) (r : mres) : mres := foldr (push cap) r run.

(** Patterns without [\b], and continuations that do not look at the
    character before. *)
Definition no_boundary (rx : regex) : Prop :=
  Forall (λ n, match n with Rep _ _ _ => True | WordB => False end) rx.

Definition blind (k : cont) : Prop := ∀ prev prev' s, k prev s = k prev' s.

(** A character that no item of the pattern accepts: before it the pattern
    matches as at the end of the text. *)
Definition stops (d : ascii) (rx : regex) : Prop :=
  Forall (λ n, match n with Rep _ p _ => p d = false | WordB => False end) rx.

Definition extend (b : str) (r : mres) : mres :=
  {| whole := whole r; grp := grp r; rest := rest r ++ b |}.


(** Whether a tag starts at the first character of [u]. *)
Definition opens_tag (u : str) : bool :=
  match u with
  | c :: x :: u' =>
      Ascii.eqb c "<" && negb (Ascii.eqb x ">") && existsb (Ascii.eqb ">") u'
  | _ => false
  end.

(** No tag starts anywhere in [l]. *)
Definition no_open (l : str) : Prop := ∀ u, u `suffix_of` l → opens_tag u = false.

(** *** The accuracy of floats *)

(** The largest relative error of one rounding to a double. *)
Definition unit_roundoff : Q := Num.pow2 (-53).

(** The factor by which [k] roundings can change a number, at most. *)
Fixpoint growth (k : nat) : Q :=
  match k with
  | O => 1%Q
  | S k' => (growth k' * (1 + unit_roundoff))%Q
  end.

(** [x'] is the number [x], of size at most [m], computed with [k]
    roundings. *)
Definition near (k : nat) (x' x m : Q) : Prop :=
  (Qabs x <= m)%Q ∧ (Qabs (x' - x) <= m * (growth k - 1))%Q.

End Aux.

(* ===================================================================== *)
(** ** A small storage area, for the examples *)
(* ===================================================================== *)

Module Examples.
Import Processor.

Definition page_a : str := L "<p>Hello <b>World</b></p>".
Definition page_b : str := L "<p>Hello there</p>".

Definition ok (file : str) : fetch_item :=
  {| file := file; fetch_status := L "success" |}.

(** Two raw documents, nothing processed yet. *)
Definition fresh : world :=
  {| raw_dir := {[ L "a.html" := page_a; L "b.html" := page_b ]};
     processed_dir := ∅ |}.

(** A document of an earlier run is still there; its raw document is not. *)
Definition stale : world :=
  {| raw_dir := ∅;
     processed_dir := {[ L "a.json" := Written (render (L "a.html") page_a) ]} |}.

Definition all_writes_ok : nat → write_outcome := λ _, WriteOk.

(** The storage area after the Processor handled [a.html] and [b.html]. *)
Definition processed : world :=
  (main all_writes_ok [ok (L "a.html"); ok (L "b.html")] fresh).2.

Definition success_of (output_file : str) : item_result :=
  {| source_file := output_file; output_file := output_file;
     status := L "success"; counts := None |}.

(** A page with a link before a script element, whose body writes another
    link, and an image and the same link again after it. *)
Definition link_before : str := L "<a href='x'>l</a>".
Definition script_attrs : str := L " type=text/javascript".
Definition script_body : str := L "document.write('<a href=evil>');".
Definition after_script : str := L "<img src=y.png><a href='x'>".

End Examples.

(* ===================================================================== *)
(** ** The frequency counters and the ranked tables of the report *)
(* ===================================================================== *)

Module Counter.

(** A [collections.Counter] with string keys: the keys in the order in which
    they were first counted (the order of a Python dict), each with its
    count. *)
Definition t := list (str * nat).

(** [c[key] += 1]; a new key goes to the end. *)
Fixpoint incr (key : str) (c : t) : t :=
  match c with
  | [] => [(key, 1)]
  | (k, n) :: c' =>
      if bool_decide (k = key) then (k, S n) :: c' else (k, n) :: incr key c'
  end.

(** [c.update(keys)] for a list of keys. *)
Definition update (c : t) (keys : list str) : t :=
  foldl (fun c key => incr key c) c keys.

(** [c[key]]: 0 for a key that was never counted. *)
Fixpoint get (c : t) (key : str) : nat :=
  match c with
  | [] => 0
  | (k, n) :: c' => if bool_decide (k = key) then n else get c' key
  end.

(** The items sorted by count, largest first; the sort is stable, so items
    of equal count stay in the order of the counter.  [insert_by_count x l]
    puts [x], which comes before the items of [l], into the sorted [l]. *)
Fixpoint insert_by_count (x : str * nat) (l : t) : t :=
  match l with
  | [] => [x]
  | y :: l' => if x.2 <? y.2 then y :: insert_by_count x l' else x :: l
  end.

Definition by_count (c : t) : t := foldr insert_by_count [] c.

(** [c.most_common(n)]. *)
Definition most_common (n : nat) (c : t) : t := take n (by_count c).

End Counter.

(** The part of [analyze_corpus] and of the Analyzer's [main] that [Analyzer]
    leaves out: the three frequency counters and the two ranked tables. *)
Module Ranked.

Record frequencies := Frequencies {
  word_frequency : Counter.t;
  bigram_frequency : Counter.t;
  trigram_frequency : Counter.t
}.

(** The body of the loop of [analyze_corpus], for the three counters. *)
Definition count_one (w : Processor.world) (f : frequencies)
    (file_info : Processor.item_result) : frequencies :=
  if Processor.is_success (Processor.status file_info) then
    match Analyzer.load_text w (Processor.output_file file_info) with
    | Some text =>
        let words := Analyzer.tokenize_text text in
        let bigrams := Analyzer.extract_ngrams words 2 in
        let trigrams := Analyzer.extract_ngrams words 3 in
        {| word_frequency := Counter.update (word_frequency f) words;
           bigram_frequency := Counter.update (bigram_frequency f) bigrams;
           trigram_frequency := Counter.update (trigram_frequency f) trigrams |}
    | None => f
    end
  else f.

Definition analyze_corpus (w : Processor.world)
    (processed_files : list Processor.item_result) : frequencies :=
  foldl (count_one w)
        {| word_frequency := []; bigram_frequency := []; trigram_frequency := [] |}
        processed_files.

Record word_entry := WordEntry {
  word : str;
  count : nat;
  frequency : Q
}.

Record bigram_entry := BigramEntry {
  bigram : str;
  bigram_count : nat
}.

(** The loop of [main] that fills [top_100_words]. *)
Definition top_100_words (word_frequency : Counter.t) (total_words : nat)
    : list word_entry :=
  map (fun wc =>
         let frequency :=
           if 0 <? total_words then Num.div wc.2 total_words else 0%Q in
         {| word := wc.1; count := wc.2; frequency := Num.round frequency 4 |})
      (Counter.most_common 100 word_frequency).

(** The loop of [main] that fills [top_bigrams]. *)
Definition top_bigrams (bigram_frequency : Counter.t) : list bigram_entry :=
  map (fun bc => {| bigram := bc.1; bigram_count := bc.2 |})
      (Counter.most_common 20 bigram_frequency).

(** The fields of the final report that are read off the counters. *)
Record tables := Tables {
  unique_words : nat;
  report_top_100_words : list word_entry;
  report_top_bigrams : list bigram_entry
}.

Definition main (w : Processor.world) (process_results : list Processor.item_result)
    : option tables :=
  let successful_files :=
    List.filter (fun r => Processor.is_success (Processor.status r)) process_results in
  match successful_files with
  | [] => None
  | _ =>
      let corpus_data := Analyzer.analyze_corpus w successful_files in
      let counters := analyze_corpus w successful_files in
      let total_words := length (Analyzer.all_words corpus_data) in
      Some {| unique_words := length (word_frequency counters);
              report_top_100_words :=
                top_100_words (word_frequency counters) total_words;
              report_top_bigrams := top_bigrams (bigram_frequency counters) |}
  end.

End Ranked.

(* ===================================================================== *)
(** ** The Processor on a completion record of any shape *)
(* ===================================================================== *)

(** [Processor.main] takes the fetch stage's record as a list of items that
    have their two fields.  [Checked.main] is the same function on the record
    as [json.load] returns it, where a field can be missing or can hold
    something else than a string; it starts with the wait for the record. *)
Module Checked.

(** The wait loop of [main] (the Analyzer has the same one):
    [exists_at k] tells whether the marker file is there at check number [k]
    (the first check is number 0, and two seconds pass between two checks).
    The result is the number of the check that finds the file; [fuel] bounds
    the number of checks that are looked at. *)
Fixpoint wait (exists_at : nat → bool) (k fuel : nat) : option nat :=
  match fuel with
  | O => None
  | S fuel' => if exists_at k then Some k else wait exists_at (S k) fuel'
  end.

(** A value of the record as [main] looks at it: a string, or anything
    else (a number, a truth value, [null], a list, an object). *)
Inductive value := Str (s : str) | Other.

(** An element of the list of results: an object with its fields, or
    anything else. *)
Inductive element := Object (fields : gmap str value) | NotObject.

(** How a run ends: [main] returns, or an exception that nothing catches
    ends it. *)
Inductive ending (A : Type) := Returned (a : A) | Raised.
Arguments Returned {A} a.
Arguments Raised {A}.

(** The test of the list comprehension, the status subscript compared with
    the word success; [None] where the subscript raises (no such key, or
    not an object). *)
Definition status_is_success (r : element) : option bool :=
  match r with
  | Object fields =>
      match fields !! L "status" with
      | Some (Str s) => Some (Processor.is_success s)
      | Some Other => Some false
      | None => None
      end
  | NotObject => None
  end.

(** The list comprehension: the elements whose status is success, or
    [None] when the test raises for an element. *)
Fixpoint successful_files (results : list element) : option (list element) :=
  match results with
  | [] => Some []
  | r :: results' =>
      match status_is_success r with
      | None => None
      | Some b =>
          match successful_files results' with
          | None => None
          | Some l => Some (if b then r :: l else l)
          end
      end
  end.

(** The file subscript followed by [source_file.replace]: the file name, or
    [None] where one of the two raises (no such key; a value that is not a
    string has no [replace]). *)
Definition source_name (result : element) : option str :=
  match result with
  | Object fields =>
      match fields !! L "file" with
      | Some (Str s) => Some s
      | _ => None
      end
  | NotObject => None
  end.

(** The loop of [main] over the success items. *)
Fixpoint process_all (env : nat → Processor.write_outcome) (i : nat)
    (items : list element) (w : Processor.world)
    : ending (list Processor.item_result) * Processor.world :=
  match items with
  | [] => (Returned [], w)
  | result :: items' =>
      match source_name result with
      | None => (Raised, w)
      | Some source_file =>
          let '(r, w1) :=
            Processor.process_item env i
              {| Processor.file := source_file;
                 Processor.fetch_status := L "success" |} w in
          match process_all env (S i) items' w1 with
          | (Returned rs, w2) => (Returned (r :: rs), w2)
          | (Raised, w2) => (Raised, w2)
          end
      end
  end.

(** [main], once the record is there.  [results] is what iterating over the
    results of the record gives, [None] when reading the record or taking
    its results raises.  The completion record is written when [main]
    returns, and not when an exception ends it. *)
Definition main (env : nat → Processor.write_outcome)
    (results : option (list element)) (w : Processor.world)
    : ending Processor.completion * Processor.world :=
  match results with
  | None => (Raised, w)
  | Some results =>
      match successful_files results with
      | None => (Raised, w)
      | Some items =>
          match process_all env 0 items w with
          | (Returned rs, w') =>
              (Returned
                 {| Processor.files_processed := length rs;
                    Processor.successful :=
                      Processor.count_status Processor.is_success rs;
                    Processor.failed :=
                      Processor.count_status Processor.is_failed rs;
                    Processor.results := rs |}, w')
          | (Raised, w') => (Raised, w')
          end
      end
  end.

(** The start of the Analyzer's [main], once the Processor's record is
    there: the same list comprehension, and the test that follows it.
    [Returned true] stands for the return without a report (no element is a
    success), [Returned false] for going on to the analysis, and [Raised]
    for an exception of the list comprehension. *)
Definition analyzer_returns_early (results : option (list element)) : ending bool :=
  match results with
  | None => Raised
  | Some results =>
      match successful_files results with
      | None => Raised
      | Some [] => Returned true
      | Some (_ :: _) => Returned false
      end
  end.

(** The object that the Processor writes for an item of its completion
    record: the three names, and the three counts (numbers) on success. *)
Definition written (r : Processor.item_result) : element :=
  Object (<[L "source_file" := Str (Processor.source_file r)]>
            (<[L "output_file" := Str (Processor.output_file r)]>
               (<[L "status" := Str (Processor.status r)]>
                  (match Processor.counts r with
                   | Some _ =>
                       <[L "word_count" := Other]>
                         (<[L "link_count" := Other]> {[ L "image_count" := Other ]})
                   | None => ∅
                   end)))).

(** An element that has the two fields of an item, both strings. *)
Definition reads (r : element) (it : Processor.fetch_item) : Prop :=
  ∃ fields, r = Object fields
            ∧ fields !! L "status" = Some (Str (Processor.fetch_status it))
            ∧ fields !! L "file" = Some (Str (Processor.file it)).

(** The item that the loop handles for an element with a file name. *)
Definition item_of (source_file : str) : Processor.fetch_item :=
  {| Processor.file := source_file; Processor.fetch_status := L "success" |}.

End Checked.

(* ===================================================================== *)
(** ** Notions used to state further properties *)
(* ===================================================================== *)

Module Shape.
Import Chars Str.

(** Anything but white space. *)
Definition nonspace (c : ascii) : bool := negb (is_space c).

(** A word as [str.split()] returns it: not empty, no white space. *)
Definition is_plain_word (word : str) : Prop :=
  word ≠ [] ∧ Forall (λ c, is_space c = false) word.

(** A token: not empty, the letters a to z only. *)
Definition is_token (word : str) : Prop :=
  word ≠ [] ∧ Forall (λ c, is_lower_az c = true) word.

(** How often the character [c] occurs in [s]. *)
Definition occurrences (c : ascii) (s : str) : nat :=
  length (List.filter (Ascii.eqb c) s).

(** How often the string [x] occurs in the list [l]. *)
Definition count_of (x : str) (l : list str) : nat :=
  length (List.filter (λ y, bool_decide (y = x)) l).

(** Whether [old] occurs in [s]. *)
Fixpoint contains (old s : str) : bool :=
  starts_with old s || match s with [] => false | _ :: s' => contains old s' end.

(** The counts of a table go down. *)
Definition descending (counts : list nat) : Prop :=
  ∀ i j a b, i ≤ j → counts !! i = Some a → counts !! j = Some b → b ≤ a.

(** What the Processor writes while it handles [items], the [i]-th item of
    the batch first: the output paths with what is left at each, in the order
    of the writes.  [raw] is the directory of the raw documents. *)
Fixpoint writes (env : nat → Processor.write_outcome) (i : nat)
    (items : list Processor.fetch_item) (raw : gmap str str)
    : list (str * Processor.artifact) :=
  match items with
  | [] => []
  | it :: items' =>
      match raw !! Processor.file it, env i with
      | Some html, Processor.WriteOk =>
          [(Processor.output_name (Processor.file it),
            Processor.Written (Processor.render (Processor.file it) html))]
      | Some _, Processor.DumpFails =>
          [(Processor.output_name (Processor.file it), Processor.Truncated)]
      | _, _ => []
      end ++ writes env (S i) items' raw
  end.


End Shape.

(* ===================================================================== *)
(** ** Further notions used in the proofs *)
(* ===================================================================== *)

Module Helper.
Import Chars Re Str.

(** [re.sub(r'\s+', ' ', s)]. *)
Definition collapse (s : str) : str := sub Processor.rx_spaces (L " ") s.

(** The first character of the collapsed string, when the string starts
    with white space. *)
Definition lead (s : str) : str :=
  match s with
  | c :: _ => if is_space c then L " " else []
  | [] => []
  end.

(** What a continuation captures: characters of one kind, and at least
    one. *)
Definition captures (P : ascii → Prop) (k : cont) : Prop :=
  ∀ prev s r, k prev s = Some r → Forall P (grp r).

Definition captures_some (k : cont) : Prop :=
  ∀ prev s r, k prev s = Some r → grp r ≠ [].

(** A continuation whose matches all have the character [d] in them. *)
Definition reads_char (d : ascii) (k : cont) : Prop :=
  ∀ prev s r, k prev s = Some r → d ∈ whole r.

(** The order of a table sorted by count. *)
Definition desc (x y : str * nat) : Prop := y.2 ≤ x.2.

(** The items of the fetch record that the Processor handles. *)
Definition success_items (fetch_results : list Processor.fetch_item)
    : list Processor.fetch_item :=
  List.filter (λ r, Processor.is_success (Processor.fetch_status r)) fetch_results.

End Helper.

(* ===================================================================== *)
(** ** Facts about the matcher and the scanners *)
(* ===================================================================== *)

Module ReFacts.
Import Chars Re Str Spec Aux.

Lemma prev_after_cons prev c a : prev_after prev (c :: a) = prev_after (Some c) a.
Proof.
  unfold prev_after. destruct a as [|d a]; [done|].
  rewrite last_cons. by destruct (last (d :: a)).
Qed.

Lemma sound_final : sound final.
Proof. intros prev s r [= <-]. done. Qed.

Lemma sound_once cap p k : sound k → sound (once cap p k).
Proof.
  intros Hk prev [|c s] r; simpl; [done|].
  destruct (p c); [|done].
  destruct (k (Some c) s) as [r'|] eqn:E; simpl; [|done].
  intros [= <-]. simpl. f_equal. eauto.
Qed.

Lemma sound_opt cap p k : sound k → sound (opt cap p k).
Proof.
  intros Hk prev s r. unfold opt.
  destruct (once cap p k prev s) eqn:E.
  - intros [= <-]. by eapply sound_once.
  - apply Hk.
Qed.

Lemma sound_star cap p k : sound k → sound (star cap p k).
Proof.
  intros Hk prev s. revert prev.
  induction s as [|c s IH]; intros prev r; simpl; [apply Hk|].
  destruct (p c); [|apply Hk].
  destruct (star cap p k (Some c) s) as [r'|] eqn:E.
  - intros [= <-]. simpl. f_equal. eauto.
  - apply Hk.
Qed.

Lemma sound_star_lazy cap p k : sound k → sound (star_lazy cap p k).
Proof.
  intros Hk prev s. revert prev.
  induction s as [|c s IH]; intros prev r; simpl.
  - destruct (k prev []) eqn:E; [|done]. intros [= <-]. eauto.
  - destruct (k prev (c :: s)) eqn:E.
    + intros [= <-]. eauto.
    + destruct (p c); [|done].
      destruct (star_lazy cap p k (Some c) s) as [r'|] eqn:E'; simpl; [|done].
      intros [= <-]. simpl. f_equal. eauto.
Qed.

Lemma sound_step n k : sound k → sound (step n k).
Proof.
  intros Hk. destruct n as [cap p q|]; simpl.
  - destruct q; auto using sound_once, sound_opt, sound_star, sound_star_lazy.
  - intros prev s r. destruct (at_boundary prev s); [apply Hk|done].
Qed.

Lemma sound_match_at rx : sound (match_at rx).
Proof.
  induction rx as [|n rx IH]; simpl; [apply sound_final|by apply sound_step].
Qed.

Lemma match_at_split rx prev s r :
  match_at rx prev s = Some r → s = whole r ++ rest r.
Proof. apply sound_match_at. Qed.

(** *** Skipping over a match *)

Lemma findall_from_skip rx a b prev :
  findall_from rx prev (length a) (a ++ b) = findall_from rx (prev_after prev a) 0 b.
Proof.
  revert prev. induction a as [|c a IH]; intros prev; [done|].
  simpl. rewrite IH. by rewrite prev_after_cons.
Qed.

Lemma sub_from_skip rx repl a b prev :
  sub_from rx repl prev (length a) (a ++ b) = sub_from rx repl (prev_after prev a) 0 b.
Proof.
  revert prev. induction a as [|c a IH]; intros prev; [done|].
  simpl. rewrite IH. by rewrite prev_after_cons.
Qed.

Lemma split_from_skip rx a b prev cur :
  b ≠ [] →
  split_from rx prev (length a) cur (a ++ b) = split_from rx (prev_after prev a) 0 cur b.
Proof.
  intros Hb. revert prev. induction a as [|c a IH]; intros prev; [done|].
  simpl. rewrite IH. by rewrite prev_after_cons.
Qed.

Lemma split_from_skip_end rx a prev cur :
  split_from rx prev (length a) cur a = [reverse cur].
Proof.
  revert prev. induction a as [|c a IH]; intros prev; [done|]. simpl. apply IH.
Qed.

(** *** One step of a scanner *)

Lemma findall_from_hit rx prev s r c w :
  match_at rx prev s = Some r → whole r = c :: w →
  findall_from rx prev 0 s =
  reported rx r :: findall_from rx (prev_after prev (whole r)) 0 (rest r).
Proof.
  intros Hm Hw. pose proof (match_at_split _ _ _ _ Hm) as Hs.
  rewrite Hw in Hs. destruct s as [|c' s]; [done|].
  injection Hs as -> Hs. simpl. rewrite Hm. f_equal.
  rewrite Hw. simpl. rewrite Hs. rewrite findall_from_skip.
  by rewrite prev_after_cons.
Qed.

Lemma findall_from_nil rx prev :
  findall_from rx prev 0 [] =
  match match_at rx prev [] with Some r => [reported rx r] | None => [] end.
Proof. done. Qed.

Lemma findall_from_miss rx prev c s :
  match_at rx prev (c :: s) = None →
  findall_from rx prev 0 (c :: s) = findall_from rx (Some c) 0 s.
Proof. intros Hm. simpl. by rewrite Hm. Qed.

Lemma sub_from_hit rx repl prev s r c w :
  match_at rx prev s = Some r → whole r = c :: w →
  sub_from rx repl prev 0 s =
  repl ++ sub_from rx repl (prev_after prev (whole r)) 0 (rest r).
Proof.
  intros Hm Hw. pose proof (match_at_split _ _ _ _ Hm) as Hs.
  rewrite Hw in Hs. destruct s as [|c' s]; [done|].
  injection Hs as -> Hs. simpl. rewrite Hm. f_equal.
  rewrite Hw. rewrite Hs. rewrite sub_from_skip.
  by rewrite prev_after_cons.
Qed.

Lemma sub_from_miss rx repl prev c s :
  match_at rx prev (c :: s) = None →
  sub_from rx repl prev 0 (c :: s) = c :: sub_from rx repl (Some c) 0 s.
Proof. intros Hm. simpl. by rewrite Hm. Qed.

(** *** Runs of one character class *)

Lemma take_drop_run p s : take_run p s ++ drop_run p s = s.
Proof. induction s as [|c s IH]; simpl; [done|]. destruct (p c); simpl; congruence. Qed.

Lemma length_drop_run p s : length (drop_run p s) ≤ length s.
Proof. induction s as [|c s IH]; simpl; [lia|]. destruct (p c); simpl; lia. Qed.

Lemma take_run_all p s : Forall (λ c, p c = true) (take_run p s).
Proof.
  induction s as [|c s IH]; simpl; [constructor|].
  destruct (p c) eqn:E; [by constructor|constructor].
Qed.

Lemma drop_run_head p s c s' : drop_run p s = c :: s' → p c = false.
Proof.
  induction s as [|d s IH]; simpl; [done|].
  destruct (p d) eqn:E; [done|]. by intros [= -> _].
Qed.

Lemma emit_snoc l c : emit (l ++ [c]) = [l ++ [c]].
Proof. by destruct l. Qed.

Lemma runs_from_eq p cur s :
  runs_from p cur s = emit (reverse cur ++ take_run p s) ++ runs p (drop_run p s).
Proof.
  revert cur. induction s as [|c s IH]; intros cur; simpl.
  - rewrite !app_nil_r. destruct cur as [|d cur]; [done|].
    by rewrite reverse_cons, emit_snoc.
  - destruct (p c) eqn:E.
    + rewrite IH. rewrite reverse_cons. by rewrite <- app_assoc.
    + rewrite app_nil_r. unfold runs. simpl. rewrite E.
      destruct cur as [|d cur]; [done|].
      by rewrite reverse_cons, emit_snoc.
Qed.

Lemma runs_nil p : runs p [] = [].
Proof. done. Qed.

Lemma runs_cons_in p c s :
  p c = true → runs p (c :: s) = (c :: take_run p s) :: runs p (drop_run p s).
Proof. intros E. unfold runs at 1. simpl. rewrite E. by rewrite runs_from_eq. Qed.

Lemma runs_cons_out p c s : p c = false → runs p (c :: s) = runs p s.
Proof. intros E. unfold runs. simpl. by rewrite E. Qed.

Lemma star_det cap p k (good : option ascii → Prop) :
  (∀ c, p c = true → good (Some c)) →
  (∀ prev c s, good prev → p c = true → k prev (c :: s) = None) →
  ∀ s prev, good prev →
    star cap p k prev s =
    pushes cap (take_run p s) <$> k (prev_after prev (take_run p s)) (drop_run p s).
Proof.
  intros Hgood Hk. induction s as [|c s IH]; intros prev Hprev; simpl.
  - change (prev_after prev []) with prev. by destruct (k prev []).
  - destruct (p c) eqn:E.
    + rewrite IH by auto. rewrite prev_after_cons.
      destruct (k _ _) eqn:E'; simpl; [done|]. by apply Hk.
    + change (prev_after prev []) with prev. by destruct (k prev (c :: s)).
Qed.

Lemma star_final cap p prev s :
  star cap p final prev s =
  Some (pushes cap (take_run p s) {| whole := []; grp := []; rest := drop_run p s |}).
Proof.
  revert prev. induction s as [|c s IH]; intros prev; simpl; [done|].
  destruct (p c); [|done]. by rewrite IH.
Qed.

Lemma whole_pushes cap run r : whole (pushes cap run r) = run ++ whole r.
Proof. induction run as [|c run IH]; simpl; [done|]. by rewrite IH. Qed.

Lemma rest_pushes cap run r : rest (pushes cap run r) = rest r.
Proof. induction run as [|c run IH]; simpl; done. Qed.


(** A pattern that is one class with [+]. *)
Lemma match_at_run cap p prev s :
  match_at [Rep cap p Plus] prev s =
  match s with
  | c :: s' =>
      if p c
      then Some (pushes cap (take_run p s) {| whole := []; grp := []; rest := drop_run p s |})
      else None
  | [] => None
  end.
Proof.
  destruct s as [|c s]; simpl; [done|].
  destruct (p c) eqn:E; [|done]. by rewrite star_final.
Qed.

Lemma findall_from_run p prev s : findall_from [cls p Plus] prev 0 s = runs p s.
Proof.
  unfold cls. remember (length s) as n eqn:Hn. revert s prev Hn.
  induction n as [n IH] using lt_wf_ind. intros [|c s] prev Hn; [done|].
  pose proof (match_at_run false p prev (c :: s)) as Hm.
  cbv beta iota in Hm. simpl in Hn.
  destruct (p c) eqn:E.
  - erewrite findall_from_hit;
      [|exact Hm|by rewrite whole_pushes; simpl; rewrite E].
    rewrite rest_pushes, runs_cons_in by done. simpl. rewrite E.
    unfold reported. simpl has_group. cbv iota. rewrite whole_pushes, app_nil_r.
    f_equal. eapply IH; [|done]. pose proof (length_drop_run p s). lia.
  - rewrite findall_from_miss by done.
    rewrite runs_cons_out by done. eapply IH; [|done]. lia.
Qed.

Lemma findall_run p s : findall [cls p Plus] s = runs p s.
Proof. apply findall_from_run. Qed.

(** *** What [sub] keeps *)

(** Every character of the result comes from the replacement or is a
    character of the text at which no match starts. *)
Lemma sub_from_chars rx repl (Q : ascii → Prop) :
  (∀ prev s r, match_at rx prev s = Some r → whole r ≠ []) →
  (∀ prev c s, match_at rx prev (c :: s) = None → Q c) →
  Forall Q repl →
  ∀ s prev skip, Forall Q (sub_from rx repl prev skip s).
Proof.
  intros Hne Hmiss Hrepl. induction s as [|c s IH]; intros prev skip.
  - destruct skip; simpl; [|constructor].
    destruct (match_at rx prev []); [by rewrite app_nil_r|constructor].
  - destruct skip as [|skip]; simpl; [|apply IH].
    destruct (match_at rx prev (c :: s)) as [r|] eqn:E.
    + apply Forall_app. split; [done|].
      destruct (whole r) eqn:Ew; [by apply Hne in E|]. apply IH.
    + constructor; [by eapply Hmiss|apply IH].
Qed.

(** The result has no character that the text and the replacement lack. *)
Lemma sub_from_subset rx repl s prev skip c :
  c ∈ sub_from rx repl prev skip s → c ∈ repl ∨ c ∈ s.
Proof.
  revert prev skip. induction s as [|d s IH]; intros prev skip.
  - destruct skip; simpl; [|by intros ?%elem_of_nil].
    destruct (match_at rx prev []); [rewrite app_nil_r; auto|by intros ?%elem_of_nil].
  - assert (Hs : ∀ prev skip, c ∈ sub_from rx repl prev skip s → c ∈ repl ∨ c ∈ d :: s).
    { intros p' k' H. destruct (IH _ _ H); [auto|right; by constructor]. }
    destruct skip as [|skip]; simpl; [|apply Hs].
    destruct (match_at rx prev (d :: s)) as [r|] eqn:E.
    + intros [H|H]%elem_of_app; [auto|].
      destruct (whole r); [|by eapply Hs].
      apply elem_of_cons in H as [->|H]; [right; constructor|by eapply Hs].
    + intros [->|H]%elem_of_cons; [right; constructor|by eapply Hs].
Qed.

End ReFacts.

(* ===================================================================== *)
(** ** Facts about [strip] *)
(* ===================================================================== *)

Module StrFacts.
Import Chars Str ReFacts Spec Aux.

Lemma lstrip_drop_run s : lstrip s = drop_run is_space s.
Proof. induction s as [|c s IH]; simpl; [done|]. by rewrite IH. Qed.

Lemma drop_run_suffix p s : drop_run p s `suffix_of` s.
Proof. exists (take_run p s). by rewrite take_drop_run. Qed.

Lemma drop_run_nil p s : drop_run p s = [] → Forall (λ c, p c = true) s.
Proof.
  induction s as [|c s IH]; simpl; [constructor|].
  destruct (p c) eqn:E; [|done]. by constructor; auto.
Qed.

Lemma drop_run_all p s : Forall (λ c, p c = true) s → drop_run p s = [].
Proof. induction 1 as [|c s E _ IH]; simpl; [done|]. by rewrite E. Qed.

Lemma lstrip_suffix s : lstrip s `suffix_of` s.
Proof. rewrite lstrip_drop_run. apply drop_run_suffix. Qed.

Lemma rstrip_prefix s : rstrip s `prefix_of` s.
Proof.
  unfold rstrip. destruct (lstrip_suffix (reverse s)) as [k Hk].
  exists (reverse k). apply (f_equal reverse) in Hk.
  by rewrite reverse_involutive, reverse_app in Hk.
Qed.

Lemma strip_subset s c : c ∈ strip s → c ∈ s.
Proof.
  unfold strip. intros H.
  destruct (rstrip_prefix (lstrip s)) as [k Hk].
  destruct (lstrip_suffix s) as [k' Hk'].
  rewrite Hk', Hk. set_solver.
Qed.

(** A stripped string does not start with white space. *)
Lemma strip_head s c t : strip s = c :: t → is_space c = false.
Proof.
  unfold strip, rstrip. intros H.
  set (u := lstrip s) in *.
  assert (Hu : ∀ d u', u = d :: u' → is_space d = false).
  { intros d u' E. unfold u in E. rewrite lstrip_drop_run in E.
    by apply drop_run_head in E. }
  destruct (lstrip_suffix (reverse u)) as [k Hk].
  set (v := lstrip (reverse u)) in *.
  apply (f_equal reverse) in Hk. rewrite reverse_involutive, reverse_app, H in Hk.
  simpl in Hk. eapply Hu. exact Hk.
Qed.

Lemma strip_nil_all s : strip s = [] → Forall (λ c, is_space c = true) s.
Proof.
  unfold strip, rstrip. intros H.
  apply (f_equal reverse) in H. rewrite reverse_involutive in H. simpl in H.
  rewrite lstrip_drop_run in H. apply drop_run_nil in H.
  assert (Hl : Forall (λ c, is_space c = true) (lstrip s)).
  { apply Forall_forall. intros c Hc. rewrite Forall_forall in H.
    apply H. by apply elem_of_reverse. }
  assert (lstrip s = []) as Hnil.
  { destruct (lstrip s) as [|c u] eqn:E; [done|].
    rewrite lstrip_drop_run in E. apply drop_run_head in E.
    apply Forall_cons in Hl as [Hc _]. congruence. }
  rewrite lstrip_drop_run in Hnil. by apply drop_run_nil.
Qed.

(** Stripping a stripped string that is not empty leaves something. *)
Lemma strip_strip_nil s : strip (strip s) = [] → strip s = [].
Proof.
  intros H. apply strip_nil_all in H.
  destruct (strip s) as [|c t] eqn:E; [done|].
  apply strip_head in E. apply Forall_cons in H as [Hc _]. congruence.
Qed.

Lemma strip_nil : strip [] = [].
Proof. done. Qed.

End StrFacts.

(* ===================================================================== *)
(** ** Facts about scans: patterns without a boundary, stop characters *)
(* ===================================================================== *)

Module ScanFacts.
Import Chars Re Str ReFacts Spec Aux.

(** *** Patterns without [\b] do not look at the character before *)

Lemma blind_once cap p k : blind k → blind (once cap p k).
Proof. intros Hk prev prev' [|c s]; done. Qed.

Lemma blind_star cap p k : blind k → blind (star cap p k).
Proof.
  intros Hk prev prev' s. revert prev prev'.
  induction s as [|c s IH]; intros prev prev'; simpl; [apply Hk|].
  destruct (p c); [|apply Hk].
  destruct (star cap p k (Some c) s); [done|apply Hk].
Qed.

Lemma blind_star_lazy cap p k : blind k → blind (star_lazy cap p k).
Proof.
  intros Hk prev prev' s. destruct s as [|c s]; simpl; by rewrite (Hk prev prev').
Qed.

Lemma blind_match_at rx : no_boundary rx → blind (match_at rx).
Proof.
  induction 1 as [|n rx Hn _ IH]; simpl; [done|].
  destruct n as [cap p q|]; [|done]. destruct q; simpl.
  - by apply blind_once.
  - intros prev prev' s. unfold opt.
    by rewrite (blind_once cap p _ IH prev prev'), (IH prev prev').
  - by apply blind_star.
  - by apply blind_once, blind_star.
  - by apply blind_star_lazy.
Qed.


Lemma sub_from_blind rx repl : no_boundary rx →
  ∀ s prev prev' skip, sub_from rx repl prev skip s = sub_from rx repl prev' skip s.
Proof.
  intros Hrx. induction s as [|c s IH]; intros prev prev' skip.
  - destruct skip; simpl; [|done]. by rewrite (blind_match_at rx Hrx prev prev').
  - destruct skip; simpl; [|done]. by rewrite (blind_match_at rx Hrx prev prev').
Qed.

(** *** A character that no item of the pattern accepts *)

Lemma push_extend cap c b r : push cap c (extend b r) = extend b (push cap c r).
Proof. done. Qed.












End ScanFacts.

(* ===================================================================== *)
(** ** Facts about the cleaned text of [strip_html] *)
(* ===================================================================== *)

Module ProcessorFacts.
Import Chars Re Str Processor ReFacts StrFacts Spec Aux.

Lemma existsb_eqb_elem c (l : str) : existsb (Ascii.eqb c) l = true ↔ c ∈ l.
Proof.
  rewrite existsb_exists. split.
  - intros (x & Hx & ->%Ascii.eqb_eq). by apply list_elem_of_In.
  - intros H. exists c. split; [by apply list_elem_of_In|apply Ascii.eqb_refl].
Qed.

Lemma no_open_nil : no_open [].
Proof. intros u ->%suffix_nil_inv. done. Qed.

Lemma suffix_cons_cases (u l : str) c :
  u `suffix_of` c :: l → u = c :: l ∨ u `suffix_of` l.
Proof.
  intros [[|d k] Hk]; [by left|right].
  injection Hk as _ ->. by exists k.
Qed.

Lemma no_open_cons c l : opens_tag (c :: l) = false → no_open l → no_open (c :: l).
Proof.
  intros Hc Hl u [->|Hu]%suffix_cons_cases; [done|]. by apply Hl.
Qed.

Lemma no_open_tail c l : no_open (c :: l) → no_open l.
Proof. intros H u Hu. apply H. by apply suffix_cons_r. Qed.

Lemma no_open_app a b : "<"%char ∉ a → no_open b → no_open (a ++ b).
Proof.
  induction a as [|c a IH]; intros Ha Hb; [done|]. simpl.
  apply no_open_cons.
  - simpl. destruct (a ++ b); [done|].
    replace (Ascii.eqb c "<") with false; [done|].
    symmetry. apply Ascii.eqb_neq. intros ->. apply Ha. constructor.
  - apply IH; [|done]. intros H. apply Ha. by constructor.
Qed.

Lemma no_open_suffix u l : u `suffix_of` l → no_open l → no_open u.
Proof. intros Hu Hl v Hv. apply Hl. by etrans. Qed.

Lemma opens_tag_app u w : opens_tag u = true → opens_tag (u ++ w) = true.
Proof.
  destruct u as [|c [|x u]]; simpl; try done.
  intros [[-> ->]%andb_true_iff H]%andb_true_iff. simpl.
  rewrite existsb_app, H. done.
Qed.

Lemma no_open_prefix p l : p `prefix_of` l → no_open l → no_open p.
Proof.
  intros [w ->] Hl u [k ->].
  destruct (opens_tag u) eqn:E; [|done].
  apply (opens_tag_app _ w) in E.
  assert (opens_tag (u ++ w) = false); [|congruence]. apply Hl.
  exists k. by rewrite <- app_assoc.
Qed.



(** [sub] creates no tag where the kept text opens none. *)
Lemma sub_from_no_open rx repl :
  (∀ prev s r, match_at rx prev s = Some r → whole r ≠ []) →
  ">"%char ∉ repl → "<"%char ∉ repl →
  (∀ prev s, match_at rx prev (">"%char :: s) = None) →
  ∀ s, (∀ u prev, u `suffix_of` s → match_at rx prev u = None → opens_tag u = false) →
  ∀ prev skip, no_open (sub_from rx repl prev skip s).
Proof.
  intros Hne Hgt Hlt Hclose. induction s as [|c s IH]; intros Hs prev skip.
  - destruct skip; simpl; [|apply no_open_nil].
    destruct (match_at rx prev []); [|apply no_open_nil].
    apply no_open_app; [done|apply no_open_nil].
  - assert (IH' : ∀ prev skip, no_open (sub_from rx repl prev skip s)).
    { apply IH. intros u p' Hu. apply Hs. by apply suffix_cons_r. }
    destruct skip as [|skip]; simpl; [|apply IH'].
    destruct (match_at rx prev (c :: s)) as [r|] eqn:E.
    + apply no_open_app; [done|].
      destruct (whole r) eqn:Ew; [by apply Hne in E|apply IH'].
    + apply no_open_cons; [|apply IH'].
      destruct (opens_tag (c :: sub_from rx repl (Some c) 0 s)) eqn:Eo; [|done].
      exfalso.
      assert (Hin : opens_tag (c :: s) = false) by (eapply Hs; [done|exact E]).
      destruct (sub_from rx repl (Some c) 0 s) as [|x X] eqn:EX; [done|].
      simpl in Eo. apply andb_true_iff in Eo as [[Hc Hx]%andb_true_iff HX].
      apply Ascii.eqb_eq in Hc as ->.
      apply negb_true_iff, Ascii.eqb_neq in Hx.
      apply existsb_eqb_elem in HX.
      assert (">"%char ∈ s) as Hs'.
      { destruct (sub_from_subset rx repl s (Some "<"%char) 0 ">"%char); [|done|done].
        rewrite EX. by constructor. }
      destruct s as [|x0 s]; [by apply elem_of_nil in Hs'|].
      simpl in Hin.
      destruct (Ascii.eqb x0 ">") eqn:Ex0.
      * apply Ascii.eqb_eq in Ex0 as ->.
        rewrite sub_from_miss in EX by apply Hclose. by injection EX as <- _.
      * simpl in Hin. apply elem_of_cons in Hs' as [<-|Hs'].
        { by rewrite Ascii.eqb_refl in Ex0. }
        apply existsb_eqb_elem in Hs'. congruence.
Qed.

Lemma once_nonempty cap p k prev s r : once cap p k prev s = Some r → whole r ≠ [].
Proof.
  destruct s as [|c s]; simpl; [done|]. destruct (p c); [|done].
  destruct (k (Some c) s); simpl; [|done]. by intros [= <-].
Qed.

Lemma drop_run_elem p (s : str) c :
  c ∈ s → p c = false → ∃ d s', drop_run p s = d :: s' ∧ p d = false.
Proof.
  intros Hc Hp. destruct (drop_run p s) as [|d s'] eqn:E.
  - apply drop_run_nil in E. rewrite Forall_forall in E. apply E in Hc. congruence.
  - exists d, s'. split; [done|]. by eapply drop_run_head.
Qed.

Lemma none_of_gt c : none_of ">" c = negb (Ascii.eqb c ">").
Proof. unfold none_of, one_of. simpl. by rewrite orb_false_r. Qed.

(** The tag pattern matches wherever a tag opens. *)
Lemma match_at_tag_opens prev u :
  match_at rx_tag prev u = None → opens_tag u = false.
Proof.
  intros Hm. destruct (opens_tag u) eqn:Eo; [exfalso|done].
  destruct u as [|c [|x u]]; try done. simpl in Eo.
  apply andb_true_iff in Eo as [[->%Ascii.eqb_eq Hx]%andb_true_iff Hu].
  apply existsb_eqb_elem in Hu.
  unfold rx_tag, match_at in Hm. simpl in Hm.
  rewrite none_of_gt, Hx in Hm.
  rewrite (star_det _ _ _ (λ _, True)) in Hm; [|done| |done].
  2:{ intros p' c s _ Hc. unfold once. rewrite none_of_gt in Hc.
      apply negb_true_iff in Hc. rewrite Ascii.eqb_sym in Hc. by rewrite Hc. }
  destruct (drop_run_elem (none_of ">") u ">"%char Hu) as (d & s' & Ed & Hd); [done|].
  rewrite Ed in Hm. rewrite none_of_gt in Hd. apply negb_false_iff in Hd.
  unfold once in Hm. rewrite Ascii.eqb_sym in Hd. by rewrite Hd in Hm.
Qed.

Lemma match_at_tag_nonempty prev s r : match_at rx_tag prev s = Some r → whole r ≠ [].
Proof. apply once_nonempty. Qed.

Lemma match_at_spaces_nonempty prev s r :
  match_at rx_spaces prev s = Some r → whole r ≠ [].
Proof. apply once_nonempty. Qed.

Lemma match_at_spaces_miss prev c s :
  match_at rx_spaces prev (c :: s) = None → is_space c = false.
Proof.
  unfold rx_spaces, cls. rewrite match_at_run. by destruct (is_space c).
Qed.

Lemma no_open_strip t : no_open t → no_open (strip t).
Proof.
  intros H. unfold strip.
  eapply no_open_prefix; [apply rstrip_prefix|].
  eapply no_open_suffix; [apply lstrip_suffix|done].
Qed.

Lemma not_elem_space (c : ascii) : c ≠ " "%char → c ∉ L " ".
Proof. intros Hc [->|H%elem_of_nil]%elem_of_cons; done. Qed.

Lemma strip_html_no_open html : no_open (text_of (strip_html html)).
Proof.
  unfold strip_html, text_of. simpl.
  apply no_open_strip.
  apply sub_from_no_open.
  - apply match_at_spaces_nonempty.
  - by apply not_elem_space.
  - by apply not_elem_space.
  - done.
  - intros u prev Hu _. revert u Hu.
    apply sub_from_no_open.
    + apply match_at_tag_nonempty.
    + by apply not_elem_space.
    + by apply not_elem_space.
    + done.
    + intros u p' _. apply match_at_tag_opens.
Qed.

(** *** The cleaned text has no line break *)

Lemma split_from_none rx s :
  (∀ u prev, u `suffix_of` s → match_at rx prev u = None) →
  ∀ prev cur, split_from rx prev 0 cur s = [reverse cur ++ s].
Proof.
  induction s as [|c s IH]; intros Hs prev cur; simpl.
  - by rewrite app_nil_r.
  - rewrite Hs by done. rewrite IH.
    + by rewrite reverse_cons, <- app_assoc.
    + intros u p' Hu. apply Hs. by apply suffix_cons_r.
Qed.

Lemma match_at_blank_line_miss prev u :
  newline ∉ u → match_at rx_blank_line prev u = None.
Proof.
  destruct u as [|c u]; [done|]. intros Hc.
  unfold rx_blank_line, match_at, lit. cbn [foldr step]. unfold once at 1.
  destruct (Ascii.eqb newline c) eqn:E; [|done].
  apply Ascii.eqb_eq in E as <-. exfalso. apply Hc. constructor.
Qed.

Lemma split_blank_line_one text :
  newline ∉ text → split rx_blank_line text = [text].
Proof.
  intros H. unfold split. rewrite split_from_none; [done|].
  intros u prev [k ->]. apply match_at_blank_line_miss.
  intros Hu. apply H. apply elem_of_app. by right.
Qed.

Lemma sub_spaces_chars s :
  Forall (λ c, is_space c = false ∨ c = " "%char) (sub rx_spaces (L " ") s).
Proof.
  apply sub_from_chars.
  - apply match_at_spaces_nonempty.
  - intros prev c u H. left. by eapply match_at_spaces_miss.
  - constructor; [by right|constructor].
Qed.

Lemma strip_html_no_newline html : newline ∉ text_of (strip_html html).
Proof.
  unfold strip_html, text_of. simpl. intros H%strip_subset.
  pose proof (sub_spaces_chars (sub rx_tag (L " ") (remove_blocks html))) as Hall.
  rewrite Forall_forall in Hall. destruct (Hall _ H) as [E|E]; done.
Qed.

Lemma strip_html_stripped html : ∃ y, text_of (strip_html html) = strip y.
Proof. unfold strip_html, text_of. simpl. eauto. Qed.

End ProcessorFacts.

(* ===================================================================== *)
(** ** Facts about the element and attribute patterns *)
(* ===================================================================== *)

Module BlockFacts.
Import Chars Re Str Processor ReFacts ScanFacts Spec Aux.

Lemma rx_script_block : rx_script = rx_block "script".
Proof. done. Qed.

Lemma rx_style_block : rx_style = rx_block "style".
Proof. done. Qed.

Lemma rx_href_attr : rx_href = rx_attr "href=".
Proof. done. Qed.

Lemma rx_src_attr : rx_src = rx_attr "src=".
Proof. done. Qed.



Lemma L_cons c n : L (String c n) = c :: L n.
Proof. done. Qed.









Lemma L_app a b : L (a ++ b) = L a ++ L b.
Proof.
  induction a as [|c a IH]; [done|].
  change (L (String c (a ++ b)) = L (String c a) ++ L b).
  by rewrite !L_cons, IH.
Qed.

Lemma text_nocase_app a b : text_nocase (a ++ b) = text_nocase a ++ text_nocase b.
Proof. unfold text_nocase. fold (L (a ++ b)). rewrite L_app. apply map_app. Qed.







(** The scan copies a stretch of text in which no match starts. *)
Lemma sub_from_pass rx repl pre rest :
  (∀ prev a c b, pre = a ++ c :: b → match_at rx prev (c :: b ++ rest) = None) →
  ∀ prev, sub_from rx repl prev 0 (pre ++ rest)
          = pre ++ sub_from rx repl (prev_after prev pre) 0 rest.
Proof.
  induction pre as [|c pre IH]; intros Hmiss prev; [done|].
  rewrite <- app_comm_cons, sub_from_miss by apply (Hmiss prev [] c pre eq_refl).
  rewrite IH, prev_after_cons; [done|].
  intros p' a c' b ->. by apply (Hmiss p' (c :: a)).
Qed.


(** *** Attribute values *)

Lemma take_run_end (p : ascii → bool) a rest :
  Forall (λ c, p c = true) a → (∀ d rest', rest = d :: rest' → p d = false) →
  take_run p (a ++ rest) = a ∧ drop_run p (a ++ rest) = rest.
Proof.
  intros Ha Hrest. induction Ha as [|c a Hc _ [IH1 IH2]]; simpl.
  - destruct rest as [|d rest']; [done|]. simpl. by rewrite (Hrest d rest' eq_refl).
  - by rewrite Hc, IH1, IH2.
Qed.



Lemma has_group_attr name : has_group (rx_attr name) = true.
Proof. unfold has_group, rx_attr. rewrite existsb_app. simpl. apply orb_true_r. Qed.



(** The closing bracket and the space end every match of the two attribute
    patterns. *)
Ltac prove_stops :=
  repeat (apply List.Forall_cons; [reflexivity|]); apply List.Forall_nil.



Lemma stops_space_href : stops " " rx_href.
Proof. unfold stops, rx_href, text_nocase. simpl. prove_stops. Qed.

Lemma stops_space_src : stops " " rx_src.
Proof. unfold stops, rx_src, text_nocase. simpl. prove_stops. Qed.

End BlockFacts.

(* ===================================================================== *)
(** ** Facts about the tokenizer *)
(* ===================================================================== *)

Module AnalyzerFacts.
Import Chars Re Str Analyzer ReFacts StrFacts Spec Aux.

Lemma is_alpha_word c : is_alpha c = true → is_word c = true.
Proof. unfold is_word. by intros ->. Qed.

Lemma take_run_weaken (p q : ascii → bool) s :
  (∀ c, p c = true → q c = true) →
  take_run q s = take_run p s ++ take_run q (drop_run p s).
Proof.
  intros Hpq. induction s as [|c s IH]; simpl; [done|].
  destruct (p c) eqn:E; [|done]. rewrite (Hpq _ E). simpl. by rewrite IH.
Qed.

Lemma drop_run_weaken (p q : ascii → bool) s :
  (∀ c, p c = true → q c = true) →
  drop_run q s = drop_run q (drop_run p s).
Proof.
  intros Hpq. induction s as [|c s IH]; simpl; [done|].
  destruct (p c) eqn:E; [|done]. by rewrite (Hpq _ E).
Qed.

Lemma take_run_stop p s : is_Some (head s) → (∀ c, head s = Some c → p c = false) →
  take_run p s = [] ∧ drop_run p s = s.
Proof.
  destruct s as [|c s]; simpl; [by intros [? ?]|].
  intros _ H. by rewrite (H c eq_refl).
Qed.

Lemma forallb_Forall (p : ascii → bool) (l : str) :
  Forall (λ c, p c = true) l → forallb p l = true.
Proof. induction 1 as [|c l E _ IH]; simpl; [done|]. by rewrite E. Qed.

Lemma prev_after_word c run :
  is_alpha c = true → Forall (λ c, is_alpha c = true) run →
  is_word_opt (prev_after (Some c) run) = true.
Proof.
  intros Hc Hrun. unfold prev_after.
  destruct (last run) as [d|] eqn:E; simpl; [|by apply is_alpha_word].
  apply is_alpha_word. rewrite Forall_forall in Hrun. apply Hrun.
  by apply last_Some_elem_of.
Qed.

(** The word pattern in closed form: at a word boundary, a run of letters
    that no other word character follows. *)
Lemma match_at_word prev s :
  match_at rx_word prev s =
  if at_boundary prev s then
    match s with
    | c :: s' =>
        if is_alpha c then
          if is_word_opt (head (drop_run is_alpha s')) then None
          else Some (pushes false (c :: take_run is_alpha s')
                       {| whole := []; grp := []; rest := drop_run is_alpha s' |})
        else None
    | [] => None
    end
  else None.
Proof.
  unfold rx_word, match_at, cls. cbn [foldr step].
  destruct (at_boundary prev s); [|done].
  destruct s as [|c s]; [done|]. unfold once at 1.
  destruct (is_alpha c) eqn:Ec; [|done].
  rewrite (star_det _ _ _ (λ o, is_word_opt o = true)).
  - cbv beta. unfold at_boundary.
    rewrite (prev_after_word _ _ Ec (take_run_all _ _)).
    by destruct (is_word_opt (head (drop_run is_alpha s))).
  - intros d Hd. by apply is_alpha_word.
  - intros p' d u Hp' Hd. unfold at_boundary. simpl.
    by rewrite Hp', (is_alpha_word _ Hd).
  - simpl. by apply is_alpha_word.
Qed.

Lemma letter_words_cons_in c s :
  is_word c = true →
  letter_words (c :: s) =
  if only_letters (c :: take_run is_word s)
  then (c :: take_run is_word s) :: letter_words (drop_run is_word s)
  else letter_words (drop_run is_word s).
Proof. intros E. unfold letter_words. by rewrite runs_cons_in. Qed.

Lemma letter_words_cons_out c s :
  is_word c = false → letter_words (c :: s) = letter_words s.
Proof. intros E. unfold letter_words. by rewrite runs_cons_out. Qed.

Lemma only_letters_cons c run :
  only_letters (c :: run) = is_alpha c && only_letters run.
Proof. done. Qed.

(** A run of letters that a digit or an underscore follows is part of a
    longer run of word characters, which is not made of letters only. *)
Lemma only_letters_blocked s :
  is_word_opt (head (drop_run is_alpha s)) = true →
  only_letters (take_run is_word s) = false.
Proof.
  intros Eh.
  rewrite (take_run_weaken is_alpha is_word) by apply is_alpha_word.
  unfold only_letters. rewrite forallb_app. apply andb_false_iff. right.
  destruct (drop_run is_alpha s) as [|d u] eqn:Ed; [done|].
  simpl in Eh. simpl. rewrite Eh. simpl.
  by rewrite (drop_run_head _ _ _ _ Ed).
Qed.

Lemma word_run_of_letters s :
  is_word_opt (head (drop_run is_alpha s)) = false →
  take_run is_word s = take_run is_alpha s ∧
  drop_run is_word s = drop_run is_alpha s.
Proof.
  intros Eh.
  rewrite (take_run_weaken is_alpha is_word s) by apply is_alpha_word.
  rewrite (drop_run_weaken is_alpha is_word s) by apply is_alpha_word.
  destruct (drop_run is_alpha s) as [|d u]; [by rewrite app_nil_r|].
  simpl in Eh. simpl. rewrite Eh. by rewrite app_nil_r.
Qed.

Lemma drop_run_cons_in p c s : p c = true → drop_run p (c :: s) = drop_run p s.
Proof. intros E. simpl. by rewrite E. Qed.

Lemma drop_run_cons_out p c s : p c = false → drop_run p (c :: s) = c :: s.
Proof. intros E. simpl. by rewrite E. Qed.

Lemma match_at_word_off prev c s :
  at_boundary prev (c :: s) && is_alpha c
  && negb (is_word_opt (head (drop_run is_alpha s))) = false →
  match_at rx_word prev (c :: s) = None.
Proof.
  intros H. rewrite match_at_word.
  destruct (at_boundary prev (c :: s)); [|done].
  destruct (is_alpha c); [|done].
  by destruct (is_word_opt (head (drop_run is_alpha s))).
Qed.

Lemma at_boundary_cons prev c s :
  at_boundary prev (c :: s) = xorb (is_word_opt prev) (is_word c).
Proof. done. Qed.

Lemma scan_words n : ∀ s, length s ≤ n →
  (∀ prev, is_word_opt prev = false → findall_from rx_word prev 0 s = letter_words s) ∧
  (∀ prev, is_word_opt prev = true →
     findall_from rx_word prev 0 s = letter_words (drop_run is_word s)).
Proof.
  induction n as [|n IH]; intros [|c s] Hn; simpl in Hn; try lia.
  - split; intros prev Hp; rewrite findall_from_nil, match_at_word;
      by destruct (at_boundary prev []).
  - split; intros prev Hp; rewrite findall_from_nil, match_at_word;
      by destruct (at_boundary prev []).
  - assert (Hs : length s ≤ n) by lia.
    destruct (IH s Hs) as [IH1 IH2].
    split; intros prev Hp.
    + destruct (is_word c) eqn:Ew.
      * rewrite letter_words_cons_in, only_letters_cons by done.
        destruct (is_alpha c) eqn:Ea.
        -- destruct (is_word_opt (head (drop_run is_alpha s))) eqn:Eh.
           ++ rewrite findall_from_miss.
              2:{ apply match_at_word_off. rewrite Eh. apply andb_false_r. }
              rewrite only_letters_blocked by done. by apply IH2.
           ++ destruct (word_run_of_letters s Eh) as [Et Ed].
              erewrite findall_from_hit.
              2:{ rewrite match_at_word, at_boundary_cons, Hp, Ew, Ea, Eh. done. }
              2:{ by rewrite whole_pushes. }
              rewrite rest_pushes. simpl rest. unfold reported. simpl has_group.
              cbv iota. rewrite whole_pushes, app_nil_r.
              destruct (IH (drop_run is_alpha s)) as [_ IH2'].
              { pose proof (length_drop_run is_alpha s). lia. }
              rewrite IH2'.
              2:{ rewrite prev_after_cons.
                  apply prev_after_word; [done|apply take_run_all]. }
              rewrite Et, Ed.
              replace (only_letters (take_run is_alpha s)) with true.
              2:{ symmetry. apply forallb_Forall, take_run_all. }
              simpl. do 2 f_equal.
              destruct (drop_run is_alpha s) as [|d u]; [done|].
              simpl in Eh. by rewrite drop_run_cons_out.
        -- rewrite findall_from_miss.
           2:{ apply match_at_word_off. by rewrite Ea, andb_false_r. }
           simpl. by apply IH2.
      * rewrite findall_from_miss.
        2:{ apply match_at_word_off. by rewrite at_boundary_cons, Hp, Ew. }
        rewrite letter_words_cons_out by done. by apply IH1.
    + destruct (is_word c) eqn:Ew.
      * rewrite findall_from_miss.
        2:{ apply match_at_word_off. by rewrite at_boundary_cons, Hp, Ew. }
        rewrite drop_run_cons_in by done. by apply IH2.
      * assert (is_alpha c = false) as Ea.
        { destruct (is_alpha c) eqn:Ea; [|done]. apply is_alpha_word in Ea. congruence. }
        rewrite findall_from_miss.
        2:{ apply match_at_word_off. by rewrite Ea, andb_false_r. }
        rewrite drop_run_cons_out, letter_words_cons_out by done. by apply IH1.
Qed.

Lemma findall_word s : findall rx_word s = letter_words s.
Proof. by apply (scan_words (length s) s). Qed.

End AnalyzerFacts.

(* ===================================================================== *)
(** ** Facts about the readability totals *)
(* ===================================================================== *)

Module ReadabilityFacts.
Import Chars Re Str Analyzer ReFacts StrFacts AnalyzerFacts Spec Aux.

(** Every run is non-empty and made of characters of the text. *)
Lemma runs_elem p n : ∀ s r, length s ≤ n → r ∈ runs p s →
  r ≠ [] ∧ Forall (λ c, p c = true ∧ c ∈ s) r.
Proof.
  induction n as [|n IH]; intros [|c s] r Hn; simpl in Hn; try lia.
  - by intros ?%elem_of_nil.
  - by intros ?%elem_of_nil.
  - destruct (p c) eqn:E.
    + rewrite runs_cons_in by done.
      intros [->|Hr]%elem_of_cons.
      * split; [done|]. constructor; [split; [done|constructor]|].
        pose proof (take_run_all p s) as Hall.
        rewrite Forall_forall in Hall |- *. intros d Hd. split; [by apply Hall|].
        right. rewrite <- (take_drop_run p s). apply elem_of_app. by left.
      * pose proof (length_drop_run p s).
        destruct (IH (drop_run p s) r) as [Hne Hall]; [lia|done|].
        split; [done|]. eapply Forall_impl; [exact Hall|].
        intros d [Hd Hin]. split; [done|]. right.
        rewrite <- (take_drop_run p s). apply elem_of_app. by right.
    + rewrite runs_cons_out by done. intros Hr.
      destruct (IH s r) as [Hne Hall]; [lia|done|].
      split; [done|]. eapply Forall_impl; [exact Hall|].
      intros d [Hd Hin]. split; [done|]. by right.
Qed.

(** A letter, also once lower-cased, is neither white space nor the end of a
    sentence. *)
Lemma letter_not_separator c :
  is_alpha (lower_char c) = true →
  is_space c = false ∧ one_of ".!?" c = false.
Proof.
  destruct c as [[] [] [] [] [] [] [] []]; vm_compute; intros H; split; congruence.
Qed.

Lemma tokenize_text_letter text :
  tokenize_text text ≠ [] →
  ∃ c, c ∈ text ∧ is_space c = false ∧ one_of ".!?" c = false.
Proof.
  unfold tokenize_text. rewrite findall_word. unfold letter_words.
  destruct (List.filter only_letters (runs is_word (lower text))) as [|r rs] eqn:E;
    [done|]. intros _.
  assert (r ∈ List.filter only_letters (runs is_word (lower text))) as Hr.
  { rewrite E. constructor. }
  apply list_elem_of_In, filter_In in Hr as [Hr Hl].
  apply list_elem_of_In in Hr.
  destruct (runs_elem is_word _ _ r (le_n _) Hr) as [Hne Hall].
  destruct r as [|d r]; [done|].
  apply Forall_cons in Hall as [[_ Hd] _].
  unfold only_letters in Hl. simpl in Hl. apply andb_true_iff in Hl as [Hl _].
  unfold lower in Hd. apply list_elem_of_fmap in Hd as (c & -> & Hc).
  exists c. split; [done|]. by apply letter_not_separator.
Qed.

(** A character that no match covers ends up in one of the pieces. *)
Lemma split_from_keeps rx (P : ascii → Prop) c :
  (∀ prev u r, match_at rx prev u = Some r → Forall P (whole r)) →
  ¬ P c →
  ∀ s prev skip cur,
    Forall P (take skip s) → c ∈ cur ∨ c ∈ s →
    ∃ seg, seg ∈ split_from rx prev skip cur s ∧ c ∈ seg.
Proof.
  intros Hm Hc. induction s as [|d s IH]; intros prev skip cur Hskip Hin.
  - exists (reverse cur). split.
    + destruct skip; simpl; constructor.
    + destruct Hin as [Hin|Hin%elem_of_nil]; [|done]. by apply elem_of_reverse.
  - destruct skip as [|skip]; simpl.
    + destruct (match_at rx prev (d :: s)) as [r|] eqn:E.
      * destruct (whole r) as [|x w] eqn:Ew.
        -- apply IH; [by rewrite take_0|].
           destruct Hin as [Hin|[->|Hin]%elem_of_cons]; auto.
           ++ left. by right.
           ++ left. by left.
        -- pose proof (match_at_split _ _ _ _ E) as Hsplit.
           pose proof (Hm _ _ _ E) as Hall.
           rewrite Ew in Hsplit, Hall. injection Hsplit as <- Hs.
           apply Forall_cons in Hall as [Hd Hw].
           destruct Hin as [Hin|[->|Hin]%elem_of_cons]; [| done |].
           ++ exists (reverse cur). split; [by left|by apply elem_of_reverse].
           ++ destruct (IH (Some d) (length w) []) as (seg & Hseg & Hcs).
              { rewrite Hs. by rewrite take_app_length. }
              { by right. }
              exists seg. split; [by right|done].
      * apply IH; [by rewrite take_0|].
        destruct Hin as [Hin|[->|Hin]%elem_of_cons]; auto.
        -- left. by right.
        -- left. by left.
    + simpl in Hskip. apply Forall_cons in Hskip as [Hd Hskip].
      apply IH; [done|].
      destruct Hin as [Hin|[->|Hin]%elem_of_cons]; auto. done.
Qed.

Lemma match_at_run_whole cap p prev u r :
  match_at [Rep cap p Plus] prev u = Some r → Forall (λ c, p c = true) (whole r).
Proof.
  rewrite match_at_run. destruct u as [|c u]; [done|].
  destruct (p c) eqn:E; [|done]. intros [= <-].
  rewrite whole_pushes, app_nil_r. apply (take_run_all p (c :: u)).
Qed.

Lemma nonblank_elem seg c : c ∈ seg → is_space c = false → Processor.nonblank seg = true.
Proof.
  intros Hc Hs. unfold Processor.nonblank.
  destruct (strip seg) eqn:E; [|done].
  apply strip_nil_all in E. rewrite Forall_forall in E. apply E in Hc. congruence.
Qed.

(** A text with a token has a sentence. *)
Lemma tokens_sentences text :
  0 < length (tokenize_text text) → 0 < length (sentences_of text).
Proof.
  intros Ht.
  destruct (tokenize_text_letter text) as (c & Hc & Hsp & Hend).
  { intros E. rewrite E in Ht. simpl in Ht. lia. }
  destruct (split_from_keeps Processor.rx_sentence_end
              (λ c, one_of ".!?" c = true) c) with (s := text) (prev := @None ascii)
              (skip := 0) (cur := @nil ascii) as (seg & Hseg & Hcs).
  - intros prev u r. apply match_at_run_whole.
  - congruence.
  - by rewrite take_0.
  - by right.
  - unfold sentences_of, Processor.stripped_nonblank. rewrite length_map.
    assert (seg ∈ List.filter Processor.nonblank (split Processor.rx_sentence_end text))
      as Hf.
    { apply list_elem_of_In, filter_In. split; [by apply list_elem_of_In|].
      by eapply nonblank_elem. }
    destruct (List.filter _ _); [by apply elem_of_nil in Hf|simpl; lia].
Qed.

(** *** The totals of the corpus *)

Lemma foldl_add_text acc texts :
  foldl add_text acc texts =
  {| total_sentences := total_sentences acc + sum_nat (map sentences_in texts);
     total_words := total_words acc + sum_nat (map words_in texts);
     total_syllables := total_syllables acc + sum_nat (map syllables_in texts);
     total_chars := total_chars acc + sum_nat (map chars_in texts) |}.
Proof.
  revert acc. induction texts as [|text texts IH]; intros acc; simpl.
  - destruct acc. simpl. f_equal; lia.
  - rewrite IH. unfold add_text. simpl.
    unfold sentences_in, sentences_of, words_in, syllables_in, chars_in.
    f_equal; lia.
Qed.

Lemma corpus_totals_sum texts :
  corpus_totals texts =
  {| total_sentences := sum_nat (map sentences_in texts);
     total_words := sum_nat (map words_in texts);
     total_syllables := sum_nat (map syllables_in texts);
     total_chars := sum_nat (map chars_in texts) |}.
Proof. unfold corpus_totals. by rewrite foldl_add_text. Qed.

Lemma sum_nat_pos {A} (f g : A → nat) l :
  (∀ x, 0 < f x → 0 < g x) → 0 < sum_nat (map f l) → 0 < sum_nat (map g l).
Proof.
  intros Hfg. induction l as [|x l IH]; simpl; [done|].
  intros H. destruct (f x) eqn:E.
  - simpl in H. apply IH in H. lia.
  - assert (0 < g x) by (apply Hfg; lia). lia.
Qed.

Lemma syllable_count_pos word : 0 < syllable_count word.
Proof.
  unfold syllable_count.
  destruct (length (findall rx_vowels word)) eqn:E; simpl; lia.
Qed.

Lemma syllables_in_pos text : 0 < words_in text → 0 < syllables_in text.
Proof.
  unfold words_in, syllables_in.
  destruct (tokenize_text text) as [|w ws]; simpl; [lia|].
  pose proof (syllable_count_pos w). lia.
Qed.

Lemma corpus_sentences_pos texts :
  0 < total_words (corpus_totals texts) → 0 < total_sentences (corpus_totals texts).
Proof.
  rewrite corpus_totals_sum. simpl. apply sum_nat_pos.
  intros text. apply tokens_sentences.
Qed.

Lemma corpus_syllables_pos texts :
  0 < total_words (corpus_totals texts) → 0 < total_syllables (corpus_totals texts).
Proof.
  rewrite corpus_totals_sum. simpl. apply sum_nat_pos.
  intros text. apply syllables_in_pos.
Qed.

Lemma is_pos_ratio a b : 0 < a → 0 < b → Num.is_pos (Num.ratio a b) = true.
Proof.
  intros Ha Hb. destruct a as [|a]; [lia|]. destruct b as [|b]; [lia|].
  unfold Num.is_pos, Num.ratio. simpl. apply Z.ltb_lt. lia.
Qed.

Lemma syllable_count_runs word :
  syllable_count word = Nat.max 1 (length (runs (one_of "aeiouy") word)).
Proof.
  unfold syllable_count, rx_vowels. rewrite findall_run.
  destruct (length (runs (one_of "aeiouy") word)) as [|[|n]]; simpl; lia.
Qed.

End ReadabilityFacts.

(* ===================================================================== *)
(** ** Facts about the similarity and the pairs of documents *)
(* ===================================================================== *)

Module SimilarityFacts.
Import Chars Re Str Analyzer Spec Aux.

Lemma ratio_same n : 0 < n → (Num.ratio n n == 1)%Q.
Proof.
  intros Hn. unfold Num.ratio. apply Qmult_inv_r.
  destruct n as [|n]; [lia|]. done.
Qed.

Lemma ratio_zero n : (Num.ratio 0 n == 0)%Q.
Proof. unfold Num.ratio. apply Qmult_0_l. Qed.

Lemma size_pos_gset (X : gset str) : X ≠ ∅ → 0 < size X.
Proof.
  intros Hne. assert (size X ≠ 0); [|lia].
  apply size_non_empty_iff. intros H. apply Hne. by apply leibniz_equiv.
Qed.

Lemma jaccard_comm a b : jaccard_similarity a b = jaccard_similarity b a.
Proof.
  unfold jaccard_similarity. cbv zeta.
  by rewrite (comm_L (∪) (to_set a)), (comm_L (∩) (to_set a)).
Qed.

Lemma jaccard_same a b :
  to_set a = to_set b → to_set a ≠ ∅ → (jaccard_similarity a b == 1)%Q.
Proof.
  intros Hab Hne. unfold jaccard_similarity. cbv zeta. rewrite <- Hab.
  rewrite (idemp_L (∪)), (idemp_L (∩)).
  rewrite bool_decide_false by done.
  by apply ratio_same, size_pos_gset.
Qed.

Lemma jaccard_disjoint a b :
  to_set a ∩ to_set b = ∅ → (jaccard_similarity a b == 0)%Q.
Proof.
  intros Hd. unfold jaccard_similarity. cbv zeta. rewrite Hd.
  case_bool_decide; [done|]. rewrite size_empty. apply ratio_zero.
Qed.

Lemma jaccard_empty a b :
  to_set a ∪ to_set b = ∅ → jaccard_similarity a b = 0%Q.
Proof.
  intros Hu. unfold jaccard_similarity. cbv zeta. by rewrite bool_decide_true.
Qed.

(** *** The pairs of the two nested loops *)

Lemma length_pairs_from n a k :
  a + k = n →
  2 * length (flat_map (λ i, map (λ j, (i, j)) (seq (i + 1) (n - (i + 1)))) (seq a k))
  = k * (k - 1).
Proof.
  revert a. induction k as [|k IH]; intros a Hn; simpl; [done|].
  rewrite length_app, length_map, length_seq.
  specialize (IH (S a) ltac:(lia)). nia.
Qed.

Lemma length_index_pairs n : length (index_pairs n) = n * (n - 1) / 2.
Proof.
  pose proof (length_pairs_from n 0 n eq_refl) as H.
  fold (index_pairs n) in H.
  apply Nat.div_unique_exact; lia.
Qed.

Lemma elem_of_pairs_from n a k i j :
  a + k = n →
  (i, j) ∈ flat_map (λ i, map (λ j, (i, j)) (seq (i + 1) (n - (i + 1)))) (seq a k)
  ↔ a ≤ i ∧ i < j ∧ j < n.
Proof.
  intros Hn. rewrite list_elem_of_In, in_flat_map. split.
  - intros (x & Hx & Hij). apply in_seq in Hx.
    apply in_map_iff in Hij as (y & [= <- <-] & Hy). apply in_seq in Hy. lia.
  - intros (Ha & Hij & Hj). exists i. split; [apply in_seq; lia|].
    apply in_map_iff. exists j. split; [done|]. apply in_seq. lia.
Qed.

Lemma elem_of_index_pairs n i j : (i, j) ∈ index_pairs n ↔ i < j ∧ j < n.
Proof.
  unfold index_pairs. rewrite (elem_of_pairs_from n 0 n) by done. lia.
Qed.

End SimilarityFacts.

(* ===================================================================== *)
(** ** Facts about the corpus and the order of the pairs *)
(* ===================================================================== *)

Module CorpusFacts.
Import Chars Re Str Analyzer SimilarityFacts Spec Aux.

Lemma seq_sorted a k : StronglySorted lt (seq a k).
Proof.
  revert a. induction k as [|k IH]; intros a; simpl; constructor; [apply IH|].
  apply Forall_forall. intros x Hx%list_elem_of_In%in_seq. lia.
Qed.

Lemma pairs_from_sorted n a k :
  StronglySorted pair_lt
    (flat_map (λ i, map (λ j, (i, j)) (seq (i + 1) (n - (i + 1)))) (seq a k)).
Proof.
  revert a. induction k as [|k IH]; intros a; simpl; [constructor|].
  apply StronglySorted_app_2; [| |apply IH].
  - intros [i j] [i' j'] H1 H2.
    apply list_elem_of_In, in_map_iff in H1 as (y & [= <- <-] & _).
    apply list_elem_of_In, in_flat_map in H2 as (x & Hx%in_seq & Hy).
    apply in_map_iff in Hy as (y' & [= <- <-] & _).
    left. simpl. lia.
  - apply (StronglySorted_fmap (λ j, (a, j)) lt pair_lt); [|apply seq_sorted].
    intros x y Hxy. right. simpl. lia.
Qed.

Lemma index_pairs_sorted n : StronglySorted pair_lt (index_pairs n).
Proof. apply pairs_from_sorted. Qed.

Lemma omap_total {A B} (f : A → option B) l :
  Forall (λ x, is_Some (f x)) l → Forall2 (λ y x, f x = Some y) (omap f l) l.
Proof.
  induction 1 as [|x l [y Hy] _ IH]; simpl; [constructor|].
  rewrite Hy. by constructor.
Qed.

(** Every pair of the loops yields an entry: the list of entries runs along
    the list of pairs. *)
Lemma similarities_along_pairs docs :
  Forall2 (λ e ij, similarity_at docs ij = Some e)
          (calculate_document_similarities docs) (index_pairs (length docs)).
Proof.
  apply omap_total, Forall_forall. intros [i j] Hij%elem_of_index_pairs.
  unfold similarity_at. simpl.
  destruct (lookup_lt_is_Some_2 docs i) as [d1 ->]; [lia|].
  destruct (lookup_lt_is_Some_2 docs j) as [d2 ->]; [lia|]. by eexists.
Qed.

Lemma length_similarities docs :
  length (calculate_document_similarities docs)
  = length docs * (length docs - 1) / 2.
Proof.
  rewrite (Forall2_length _ _ _ (similarities_along_pairs docs)).
  apply length_index_pairs.
Qed.

Lemma foldl_analyze_one w files c :
  documents_data (foldl (analyze_one w) c files)
  = documents_data c ++ omap (loaded w) files.
Proof.
  revert c. induction files as [|f files IH]; intros c; simpl.
  - by rewrite app_nil_r.
  - rewrite IH. unfold analyze_one, loaded.
    destruct (Processor.is_success (Processor.status f)); [|done].
    destruct (load_text w (Processor.output_file f)); simpl; [|done].
    by rewrite <- app_assoc.
Qed.

Lemma analyze_corpus_documents w files :
  documents_data (analyze_corpus w files) = omap (loaded w) files.
Proof. unfold analyze_corpus. by rewrite foldl_analyze_one. Qed.

Lemma length_omap_le {A B} (f : A → option B) l : length (omap f l) ≤ length l.
Proof. induction l as [|x l IH]; csimpl; [done|]. destruct (f x); simpl; lia. Qed.

Lemma omap_all {A B} (f : A → option B) l :
  Forall (λ x, is_Some (f x)) l → length (omap f l) = length l.
Proof. intros H. apply (Forall2_length _ _ _ (omap_total f l H)). Qed.

Lemma omap_loaded_filter w files :
  omap (loaded w) (List.filter (λ r, Processor.is_success (Processor.status r)) files)
  = omap (loaded w) files.
Proof.
  induction files as [|f files IH]; [done|]. simpl.
  destruct (Processor.is_success (Processor.status f)) eqn:E; csimpl.
  - by rewrite IH.
  - unfold loaded at 2. by rewrite E.
Qed.

Lemma loaded_is_Some w f :
  is_Some (loaded w f)
  ↔ Processor.is_success (Processor.status f) = true
    ∧ is_Some (load_text w (Processor.output_file f)).
Proof.
  unfold loaded. destruct (Processor.is_success (Processor.status f)).
  - destruct (load_text w (Processor.output_file f)); simpl.
    + split; [intros _; split; [done|by eexists]|intros _; by eexists].
    + split; [by intros [? ?]|by intros [_ [? ?]]].
  - split; [by intros [? ?]|by intros [? _]].
Qed.

Lemma length_omap_loaded w files :
  length (omap (loaded w) files)
  ≤ length (List.filter (λ r, Processor.is_success (Processor.status r)) files).
Proof. rewrite <- omap_loaded_filter. apply length_omap_le. Qed.

Lemma length_omap_loaded_all w files :
  Forall (λ r, Processor.is_success (Processor.status r) = true →
               is_Some (load_text w (Processor.output_file r))) files →
  length (omap (loaded w) files)
  = length (List.filter (λ r, Processor.is_success (Processor.status r)) files).
Proof.
  intros H. rewrite <- omap_loaded_filter. apply omap_all.
  apply Forall_forall. intros f Hf%list_elem_of_In%filter_In.
  destruct Hf as [Hf Hs]. apply loaded_is_Some. split; [done|].
  rewrite Forall_forall in H. apply H; [by apply list_elem_of_In|done].
Qed.

End CorpusFacts.

(* ===================================================================== *)
(** ** Facts about the batch of the Processor *)
(* ===================================================================== *)

Module BatchFacts.
Import Chars Re Str Processor Spec Aux.

Lemma process_item_raw env i it w : raw_dir (process_item env i it w).2 = raw_dir w.
Proof.
  unfold process_item, process_html_file.
  destruct (raw_dir w !! file it); [|done]. by destruct (env i).
Qed.

Lemma process_item_result env i it w :
  let r := (process_item env i it w).1 in
  source_file r = file it ∧
  output_file r = output_name (file it) ∧
  status r = (if item_ok env w i it then L "success" else L "failed").
Proof.
  unfold process_item, process_html_file, item_ok.
  destruct (raw_dir w !! file it); [|done]. by destruct (env i).
Qed.

Lemma process_item_same_raw env i it w1 w2 :
  raw_dir w1 = raw_dir w2 → (process_item env i it w1).1 = (process_item env i it w2).1.
Proof.
  intros H. unfold process_item, process_html_file. rewrite H.
  destruct (raw_dir w2 !! file it); [|done]. by destruct (env i).
Qed.


Lemma process_all_cons env i it items w :
  process_all env i (it :: items) w =
  ((process_item env i it w).1
     :: (process_all env (S i) items (process_item env i it w).2).1,
   (process_all env (S i) items (process_item env i it w).2).2).
Proof.
  simpl. destruct (process_item env i it w) as [r w1]. simpl.
  by destruct (process_all env (S i) items w1).
Qed.


(** The outcome of an item depends on the raw documents and on its own write
    only: the items before it do not matter. *)
Lemma process_all_results env items : ∀ i w,
  (process_all env i items w).1 =
  imap (λ k it, (process_item env (i + k) it w).1) items.
Proof.
  induction items as [|it items IH]; intros i w; [done|].
  rewrite process_all_cons. simpl. rewrite Nat.add_0_r. f_equal.
  rewrite IH. apply imap_ext. intros k x _. simpl.
  rewrite Nat.add_succ_r. apply process_item_same_raw, process_item_raw.
Qed.

Lemma process_all_lookup env items i w k it :
  items !! k = Some it →
  (process_all env i items w).1 !! k = Some (process_item env (i + k) it w).1.
Proof.
  intros H. rewrite process_all_results, list_lookup_imap, H. done.
Qed.

Lemma process_all_length env items i w :
  length (process_all env i items w).1 = length items.
Proof. by rewrite process_all_results, length_imap. Qed.




Lemma count_status_sum rs :
  Forall (λ r, status r = L "success" ∨ status r = L "failed") rs →
  count_status is_success rs + count_status is_failed rs = length rs.
Proof.
  unfold count_status. induction 1 as [|r rs Hr _ IH]; simpl; [done|].
  destruct Hr as [-> | ->].
  - replace (is_success (L "success")) with true by done.
    replace (is_failed (L "success")) with false by done. simpl. lia.
  - replace (is_success (L "failed")) with false by done.
    replace (is_failed (L "failed")) with true by done. simpl. lia.
Qed.

End BatchFacts.

(* ===================================================================== *)
(** ** Facts about doubles *)
(* ===================================================================== *)

Module FloatFacts.
Import Aux.
Local Open Scope Q_scope.

Lemma pow2_pos k : 0 < Num.pow2 k.
Proof. unfold Num.pow2. by apply Qpower_0_lt. Qed.

Lemma pow2_add a b : Num.pow2 (a + b) == Num.pow2 a * Num.pow2 b.
Proof. unfold Num.pow2. by apply Qpower_plus. Qed.

Lemma pow2_nat n : (0 <= n)%Z → Num.pow2 n == inject_Z (2 ^ n).
Proof. intros Hn. unfold Num.pow2. by rewrite Zpower_Qpower. Qed.

Lemma pow2_ge_1 n : (0 <= n)%Z → 1 <= Num.pow2 n.
Proof.
  intros Hn. rewrite pow2_nat by done. change 1 with (inject_Z 1).
  rewrite <- Zle_Qle. pose proof (Z.pow_pos_nonneg 2 n). lia.
Qed.

Lemma pow2_le a b : (a <= b)%Z → Num.pow2 a <= Num.pow2 b.
Proof.
  intros Hab. replace b with (a + (b - a))%Z by lia. rewrite pow2_add.
  pose proof (pow2_pos a) as H1. pose proof (pow2_ge_1 (b - a) ltac:(lia)) as H2.
  revert H1 H2. generalize (Num.pow2 a) (Num.pow2 (b - a)). intros u v H1 H2. clear - H1 H2. nra.
Qed.

Lemma pow2_lt a b : (a < b)%Z → Num.pow2 a < Num.pow2 b.
Proof.
  intros Hab. replace b with (a + 1 + (b - a - 1))%Z by lia. rewrite !pow2_add.
  pose proof (pow2_pos a) as H1. pose proof (pow2_ge_1 (b - a - 1) ltac:(lia)) as H2.
  change (Num.pow2 1) with 2.
  revert H1 H2. generalize (Num.pow2 a) (Num.pow2 (b - a - 1)). intros u v H1 H2. clear - H1 H2. nra.
Qed.

Lemma pow2_succ a : Num.pow2 (a + 1) == 2 * Num.pow2 a.
Proof. rewrite pow2_add. change (Num.pow2 1) with 2. ring. Qed.

(** The exponent of a number other than 0 is its binary order of magnitude. *)
Lemma exponent_spec x :
  ¬ x == 0 →
  Num.pow2 (Num.exponent x) <= Qabs x ∧ Qabs x < Num.pow2 (Num.exponent x + 1).
Proof.
  intros Hx. destruct x as [n q].
  assert (Hn : (0 < Z.abs n)%Z).
  { destruct n; [|lia|lia]. exfalso. apply Hx. reflexivity. }
  unfold Num.exponent. cbn [Qnum Qden].
  set (a := Z.log2 (Z.abs n)). set (b := Z.log2 (Z.pos q)).
  assert (Ha : (0 <= a)%Z) by apply Z.log2_nonneg.
  assert (Hb : (0 <= b)%Z) by apply Z.log2_nonneg.
  destruct (Z.log2_spec (Z.abs n) Hn) as [Ha1 Ha2]. fold a in Ha1, Ha2.
  destruct (Z.log2_spec (Z.pos q)) as [Hb1 Hb2]; [lia|]. fold b in Hb1, Hb2.
  assert (Habs : Qabs (n # q) == inject_Z (Z.abs n) / inject_Z (Z.pos q)).
  { rewrite <- Zabs_Qabs. apply Qmake_Qdiv. }
  assert (Hq : 0 < inject_Z (Z.pos q)).
  { change 0 with (inject_Z 0). rewrite <- Zlt_Qlt. lia. }
  assert (Hpa : Num.pow2 a == inject_Z (2 ^ a)) by (by apply pow2_nat).
  assert (Hpb : Num.pow2 b == inject_Z (2 ^ b)) by (by apply pow2_nat).
  assert (Hpb1 : Num.pow2 (b + 1) == inject_Z (2 ^ (b + 1))) by (apply pow2_nat; lia).
  assert (Hpa1 : Num.pow2 (a + 1) == inject_Z (2 ^ (a + 1))) by (apply pow2_nat; lia).
  pose proof (pow2_pos b) as Hb0. pose proof (pow2_pos (b + 1)) as Hb10.
  (* the bounds of a and b, as rationals *)
  assert (Q1 : Num.pow2 a <= inject_Z (Z.abs n)) by (rewrite Hpa, <- Zle_Qle; lia).
  assert (Q2 : inject_Z (Z.abs n) < Num.pow2 (a + 1)) by (rewrite Hpa1, <- Zlt_Qlt; lia).
  assert (Q3 : Num.pow2 b <= inject_Z (Z.pos q)) by (rewrite Hpb, <- Zle_Qle; lia).
  assert (Q4 : inject_Z (Z.pos q) < Num.pow2 (b + 1)) by (rewrite Hpb1, <- Zlt_Qlt; lia).
  assert (Hd : Num.pow2 (a - b) * Num.pow2 b == Num.pow2 a).
  { rewrite <- pow2_add. by replace (a - b + b)%Z with a by lia. }
  assert (Hd1 : Num.pow2 (a - b + 1) * Num.pow2 b == Num.pow2 (a + 1)).
  { rewrite <- pow2_add. by replace (a - b + 1 + b)%Z with (a + 1)%Z by lia. }
  assert (Hd0 : Num.pow2 (a - b - 1) * Num.pow2 (b + 1) == Num.pow2 a).
  { rewrite <- pow2_add. by replace (a - b - 1 + (b + 1))%Z with a by lia. }
  pose proof (pow2_pos (a - b)) as Hdp. pose proof (pow2_pos (a - b + 1)) as Hdp1.
  pose proof (pow2_pos (a - b - 1)) as Hdp0.
  assert (Hup : Qabs (n # q) < Num.pow2 (a - b + 1)).
  { rewrite Habs. apply Qlt_shift_div_r; [done|]. nra. }
  destruct (Qle_bool (Num.pow2 (a - b)) (Qabs (n # q))) eqn:E.
  - apply Qle_bool_iff in E. done.
  - assert (Hlt : Qabs (n # q) < Num.pow2 (a - b)).
    { apply Qnot_le_lt. intros H. apply Qle_bool_iff in H. congruence. }
    replace (a - b - 1 + 1)%Z with (a - b)%Z by lia. split; [|done].
    rewrite Habs. apply Qle_shift_div_l; [done|]. nra.
Qed.

(** The exponent is the only such integer. *)
Lemma exponent_unique x e :
  Num.pow2 e <= Qabs x → Qabs x < Num.pow2 (e + 1) → Num.exponent x = e.
Proof.
  intros H1 H2.
  assert (Hx : ¬ x == 0).
  { intros H. rewrite H in H1. pose proof (pow2_pos e). change (Qabs 0) with 0 in H1. lra. }
  destruct (exponent_spec x Hx) as [H3 H4].
  destruct (Z.lt_trichotomy (Num.exponent x) e) as [Hlt|[Heq|Hgt]]; [|done|].
  - pose proof (pow2_le (Num.exponent x + 1) e). lapply H; [|lia]. lra.
  - pose proof (pow2_le (e + 1) (Num.exponent x)). lapply H; [|lia]. lra.
Qed.

Lemma exponent_comp x y : ¬ y == 0 → x == y → Num.exponent x = Num.exponent y.
Proof.
  intros Hy H. destruct (exponent_spec y Hy) as [H1 H2].
  apply exponent_unique; by rewrite H.
Qed.

(** *** Rounding to an integer *)

Lemma round_half_even_near y :
  - (1 # 2) <= inject_Z (Num.round_half_even y) - y
  ∧ inject_Z (Num.round_half_even y) - y <= 1 # 2.
Proof.
  unfold Num.round_half_even.
  pose proof (Qfloor_le y) as Hlo. pose proof (Qlt_floor y) as Hhi.
  rewrite inject_Z_plus in Hhi. change (inject_Z 1) with 1 in Hhi.
  destruct (Qcompare (y - inject_Z (Qfloor y)) (1 # 2)) eqn:E.
  - apply Qeq_alt in E.
    destruct (Z.even (Qfloor y)); [|rewrite inject_Z_plus; change (inject_Z 1) with 1];
      split; lra.
  - apply Qlt_alt in E. split; lra.
  - apply Qgt_alt in E. rewrite inject_Z_plus. change (inject_Z 1) with 1. split; lra.
Qed.

Lemma round_half_even_le y N : y <= inject_Z N → (Num.round_half_even y <= N)%Z.
Proof.
  intros H. destruct (round_half_even_near y) as [_ Hn].
  assert (Hlt : inject_Z (Num.round_half_even y) < inject_Z (N + 1)).
  { rewrite inject_Z_plus. change (inject_Z 1) with 1. lra. }
  rewrite <- Zlt_Qlt in Hlt. lia.
Qed.

Lemma round_half_even_ge y N : inject_Z N <= y → (N <= Num.round_half_even y)%Z.
Proof.
  intros H. destruct (round_half_even_near y) as [Hn _].
  assert (Hlt : inject_Z (N - 1) < inject_Z (Num.round_half_even y)).
  { unfold Z.sub. rewrite inject_Z_plus. change (inject_Z (- (1))) with (- (1)). lra. }
  rewrite <- Zlt_Qlt in Hlt. lia.
Qed.

Lemma round_half_even_comp x y :
  x == y → Num.round_half_even x = Num.round_half_even y.
Proof.
  intros H. unfold Num.round_half_even.
  assert (Hf : Qfloor x = Qfloor y) by (by rewrite H).
  rewrite Hf.
  assert (Hc : Qcompare (x - inject_Z (Qfloor y)) (1 # 2)
               = Qcompare (y - inject_Z (Qfloor y)) (1 # 2)) by (by rewrite H).
  by rewrite Hc.
Qed.

(** *** The nearest double *)

Lemma double_zero x : x == 0 → Num.double x = 0.
Proof. intros H. unfold Num.double. by rewrite (Qeq_eq_bool _ _ H). Qed.

(** A double is a multiple of its unit in the last place. *)
Lemma double_unfold x :
  ¬ x == 0 →
  Num.double x
  == inject_Z (Num.round_half_even (x / Num.pow2 (Num.exponent x - 52)))
     * Num.pow2 (Num.exponent x - 52).
Proof.
  intros Hx. unfold Num.double.
  destruct (Qeq_bool x 0) eqn:E; [by apply Qeq_bool_eq in E|].
  apply Qred_correct.
Qed.

Lemma double_comp x y : x == y → Num.double x = Num.double y.
Proof.
  intros H. unfold Num.double.
  assert (Qeq_bool x 0 = Qeq_bool y 0) as -> by (by rewrite H).
  destruct (Qeq_bool y 0) eqn:E; [done|].
  apply Qeq_bool_neq in E. rewrite (exponent_comp x y E H).
  apply Qred_complete.
  rewrite (round_half_even_comp (x / Num.pow2 (Num.exponent y - 52))
             (y / Num.pow2 (Num.exponent y - 52))); [reflexivity|].
  by rewrite H.
Qed.

(** The relative error of a rounding is at most [2 ^ -53]. *)
Lemma double_near x : Qabs (Num.double x - x) <= Qabs x * Num.pow2 (-53).
Proof.
  destruct (Qeq_dec x 0) as [Hx|Hx].
  { rewrite (double_zero x Hx), Hx. discriminate. }
  rewrite (double_unfold x Hx).
  destruct (exponent_spec x Hx) as [He _].
  set (e := Num.exponent x) in *. set (ulp := Num.pow2 (e - 52)).
  pose proof (pow2_pos (e - 52)) as Hu. fold ulp in Hu.
  destruct (round_half_even_near (x / ulp)) as [H1 H2].
  set (m := inject_Z (Num.round_half_even (x / ulp))) in *.
  assert (Hdiv : x / ulp * ulp == x) by (field; lra).
  assert (Hhalf : Num.pow2 e * Num.pow2 (-53) == ulp * (1 # 2)).
  { unfold ulp. replace (e - 52)%Z with (e + (-53) + 1)%Z by lia.
    rewrite <- pow2_add, (pow2_succ (e + -53)). ring. }
  pose proof (pow2_pos (-53)) as H53.
  assert (Hbound : ulp * (1 # 2) <= Qabs x * Num.pow2 (-53)).
  { rewrite <- Hhalf. apply Qmult_le_compat_r; [done|lra]. }
  eapply Qle_trans; [|exact Hbound].
  apply Qabs_Qle_condition. split.
  - assert (- (ulp * (1 # 2)) <= (m - x / ulp) * ulp) by nra. lra.
  - assert ((m - x / ulp) * ulp <= ulp * (1 # 2)) by nra. lra.
Qed.

(** Rounding keeps a number on its side of a power of two. *)
Lemma double_le_pow2 x k : 0 < x → x <= Num.pow2 k → Num.double x <= Num.pow2 k.
Proof.
  intros H0 Hk.
  assert (Hx : ¬ x == 0) by lra.
  rewrite (double_unfold x Hx).
  destruct (exponent_spec x Hx) as [He _]. rewrite Qabs_pos in He by lra.
  set (e := Num.exponent x) in *. set (ulp := Num.pow2 (e - 52)).
  pose proof (pow2_pos (e - 52)) as Hu. fold ulp in Hu.
  assert (Hek : (e <= k)%Z).
  { destruct (Z_le_gt_dec e k) as [?|Hgt]; [done|].
    pose proof (pow2_lt k e ltac:(lia)). lra. }
  assert (Hn : Num.pow2 (k - e + 52) == inject_Z (2 ^ (k - e + 52)))
    by (apply pow2_nat; lia).
  assert (Hmul : Num.pow2 (k - e + 52) * ulp == Num.pow2 k).
  { unfold ulp. rewrite <- pow2_add. by replace (k - e + 52 + (e - 52))%Z with k by lia. }
  assert (Hm : (Num.round_half_even (x / ulp) <= 2 ^ (k - e + 52))%Z).
  { apply round_half_even_le. rewrite <- Hn.
    apply Qle_shift_div_r; [done|]. by rewrite Hmul. }
  rewrite Zle_Qle, <- Hn in Hm. rewrite <- Hmul.
  apply Qmult_le_compat_r; [done|lra].
Qed.

Lemma double_ge_pow2 x k : Num.pow2 k <= x → Num.pow2 k <= Num.double x.
Proof.
  intros Hk. pose proof (pow2_pos k) as Hk0.
  assert (Hx : ¬ x == 0) by lra.
  rewrite (double_unfold x Hx).
  destruct (exponent_spec x Hx) as [_ He]. rewrite Qabs_pos in He by lra.
  set (e := Num.exponent x) in *. set (ulp := Num.pow2 (e - 52)).
  pose proof (pow2_pos (e - 52)) as Hu. fold ulp in Hu.
  assert (Hek : (k <= e)%Z).
  { destruct (Z_le_gt_dec k e) as [?|Hgt]; [done|].
    pose proof (pow2_le (e + 1) k ltac:(lia)). lra. }
  apply Qle_trans with (Num.pow2 e); [by apply pow2_le|].
  assert (Hn : Num.pow2 52 == inject_Z (2 ^ 52)) by (by apply pow2_nat).
  assert (Hmul : Num.pow2 52 * ulp == Num.pow2 e).
  { unfold ulp. rewrite <- pow2_add. by replace (52 + (e - 52))%Z with e by lia. }
  assert (He' : Num.pow2 e <= x).
  { destruct (exponent_spec x Hx) as [He' _]. by rewrite Qabs_pos in He' by lra. }
  assert (Hm : (2 ^ 52 <= Num.round_half_even (x / ulp))%Z).
  { apply round_half_even_ge. rewrite <- Hn.
    apply Qle_shift_div_l; [done|]. by rewrite Hmul. }
  rewrite Zle_Qle, <- Hn in Hm. rewrite <- Hmul.
  apply Qmult_le_compat_r; [done|lra].
Qed.

Lemma double_pos x : 0 < x → 0 < Num.double x.
Proof.
  intros H0. assert (Hx : ¬ x == 0) by lra.
  destruct (exponent_spec x Hx) as [He _]. rewrite Qabs_pos in He by lra.
  pose proof (double_ge_pow2 x _ He). pose proof (pow2_pos (Num.exponent x)). lra.
Qed.

Lemma double_nonneg x : 0 <= x → 0 <= Num.double x.
Proof.
  intros H0. destruct (Qeq_dec x 0) as [Hx|Hx].
  - rewrite (double_zero x Hx). discriminate.
  - apply Qlt_le_weak, double_pos. lra.
Qed.

Lemma double_unit x : 0 <= x → x <= 1 → 0 <= Num.double x ∧ Num.double x <= 1.
Proof.
  intros H0 H1. split; [by apply double_nonneg|].
  destruct (Qeq_dec x 0) as [Hx|Hx].
  - rewrite (double_zero x Hx). discriminate.
  - apply (double_le_pow2 x 0); [lra|done].
Qed.

Lemma double_ge_1 x : 1 <= x → 1 <= Num.double x.
Proof. apply (double_ge_pow2 x 0). Qed.

(** *** Division *)

Lemma nat_pos_Q (n : nat) : (0 < n)%nat → 0 < inject_Z (Z.of_nat n).
Proof. intros H. change 0 with (inject_Z 0). rewrite <- Zlt_Qlt. lia. Qed.

Lemma ratio_positive a b : (0 < a)%nat → (0 < b)%nat → 0 < Num.ratio a b.
Proof.
  intros Ha Hb. unfold Num.ratio. apply Qlt_shift_div_l; [by apply nat_pos_Q|].
  rewrite Qmult_0_l. by apply nat_pos_Q.
Qed.

Lemma is_pos_spec x : Num.is_pos x = true ↔ 0 < x.
Proof.
  unfold Num.is_pos, Qlt. simpl. rewrite Z.ltb_lt. lia.
Qed.

Lemma is_pos_div a b : (0 < a)%nat → (0 < b)%nat → Num.is_pos (Num.div a b) = true.
Proof. intros Ha Hb. apply is_pos_spec, double_pos. by apply ratio_positive. Qed.

Lemma div_unit a b : (a <= b)%nat → (0 < b)%nat → 0 <= Num.div a b ∧ Num.div a b <= 1.
Proof.
  intros Hab Hb. unfold Num.div. pose proof (nat_pos_Q b Hb) as Hq.
  apply double_unit; unfold Num.ratio.
  - apply Qle_shift_div_l; [done|]. rewrite Qmult_0_l.
    change 0 with (inject_Z 0). rewrite <- Zle_Qle. lia.
  - apply Qle_shift_div_r; [done|]. rewrite Qmult_1_l, <- Zle_Qle. lia.
Qed.

Lemma div_ge_1 a b : (b <= a)%nat → (0 < b)%nat → 1 <= Num.div a b.
Proof.
  intros Hab Hb. unfold Num.div. pose proof (nat_pos_Q b Hb) as Hq.
  apply double_ge_1. unfold Num.ratio.
  apply Qle_shift_div_l; [done|]. rewrite Qmult_1_l, <- Zle_Qle. lia.
Qed.

(** *** Rounding to decimals *)

Lemma scale_positive (n : nat) : 0 < inject_Z (10 ^ Z.of_nat n).
Proof. change 0 with (inject_Z 0). rewrite <- Zlt_Qlt. apply Z.pow_pos_nonneg; lia. Qed.

(** Rounding keeps a number of the unit interval inside it. *)
Lemma round_unit x n : 0 <= x → x <= 1 → 0 <= Num.round x n ∧ Num.round x n <= 1.
Proof.
  intros H0 H1. unfold Num.round. pose proof (scale_positive n) as Hs.
  set (scale := inject_Z (10 ^ Z.of_nat n)) in *.
  assert (Hlo : (0 <= Num.round_half_even (x * scale))%Z).
  { apply round_half_even_ge. change (inject_Z 0) with 0. nra. }
  assert (Hhi : (Num.round_half_even (x * scale) <= 10 ^ Z.of_nat n)%Z).
  { apply round_half_even_le. fold scale. nra. }
  rewrite Zle_Qle in Hlo, Hhi. fold scale in Hhi. change (inject_Z 0) with 0 in Hlo.
  apply double_unit.
  - apply Qle_shift_div_l; [done|]. lra.
  - apply Qle_shift_div_r; [done|]. lra.
Qed.

Lemma round_ge_1 x n : 1 <= x → 1 <= Num.round x n.
Proof.
  intros H1. unfold Num.round. pose proof (scale_positive n) as Hs.
  set (scale := inject_Z (10 ^ Z.of_nat n)) in *.
  assert (Hlo : (10 ^ Z.of_nat n <= Num.round_half_even (x * scale))%Z).
  { apply round_half_even_ge. fold scale. nra. }
  rewrite Zle_Qle in Hlo. fold scale in Hlo.
  apply double_ge_1. apply Qle_shift_div_l; [done|]. lra.
Qed.

Lemma round_zero n : Num.round 0 n = 0.
Proof.
  unfold Num.round. apply double_zero.
  rewrite (round_half_even_comp _ 0 (Qmult_0_l _)).
  change (Num.round_half_even 0) with 0%Z. unfold Qdiv. apply Qmult_0_l.
Qed.

(** *** The accuracy of a computation *)

Lemma unit_roundoff_pos : 0 < unit_roundoff.
Proof. apply pow2_pos. Qed.

Lemma growth_ge_1 k : 1 <= growth k.
Proof.
  induction k as [|k IH]; cbn [growth]; [discriminate|].
  pose proof unit_roundoff_pos. nra.
Qed.

Lemma growth_mono k l : (k <= l)%nat → growth k <= growth l.
Proof.
  induction 1 as [|l _ IH]; [apply Qle_refl|]. cbn [growth].
  pose proof unit_roundoff_pos. pose proof (growth_ge_1 l). nra.
Qed.

Lemma growth_add k l : growth (k + l) == growth k * growth l.
Proof.
  induction l as [|l IH].
  - rewrite Nat.add_0_r. cbn [growth]. ring.
  - rewrite Nat.add_succ_r. cbn [growth]. rewrite IH. ring.
Qed.

Lemma near_size k x' x m : near k x' x m → Qabs x' <= m * growth k.
Proof.
  intros [H1 H2].
  assert (Hx : x' == x + (x' - x)) by ring.
  rewrite Hx. eapply Qle_trans; [apply Qabs_triangle|]. lra.
Qed.

Lemma near_nonneg k x' x m : near k x' x m → 0 <= m.
Proof. intros [H1 _]. pose proof (Qabs_nonneg x). lra. Qed.

Lemma near_exact x : near 0 x x (Qabs x).
Proof.
  split; [apply Qle_refl|]. cbn [growth].
  assert (x - x == 0) as -> by ring. change (Qabs 0) with 0. lra.
Qed.

Lemma near_weaken k l x' x m : (k <= l)%nat → near k x' x m → near l x' x m.
Proof.
  intros Hkl [H1 H2]. split; [done|].
  pose proof (growth_mono k l Hkl). pose proof (Qabs_nonneg x).
  eapply Qle_trans; [exact H2|]. nra.
Qed.

Lemma near_bound k x' x m m' : m <= m' → near k x' x m → near k x' x m'.
Proof.
  intros Hm [H1 H2]. split; [lra|].
  pose proof (growth_ge_1 k). eapply Qle_trans; [exact H2|]. nra.
Qed.

Lemma near_double k x' x m : near k x' x m → near (S k) (Num.double x') x m.
Proof.
  intros H. pose proof (near_size _ _ _ _ H) as Hs.
  pose proof (near_nonneg _ _ _ _ H) as Hm. destruct H as [H1 H2].
  split; [done|]. cbn [growth].
  pose proof (double_near x') as Hd. fold unit_roundoff in Hd.
  pose proof unit_roundoff_pos as Hu.
  assert (Hx : Num.double x' - x == (Num.double x' - x') + (x' - x)) by ring.
  rewrite Hx. eapply Qle_trans; [apply Qabs_triangle|].
  assert (Qabs x' * unit_roundoff <= m * growth k * unit_roundoff) by nra.
  lra.
Qed.

Lemma near_mul k l a' a ma b' b mb :
  near k a' a ma → near l b' b mb → near (k + l) (a' * b') (a * b) (ma * mb).
Proof.
  intros Ha Hb.
  pose proof (near_size _ _ _ _ Hb) as Hsb.
  pose proof (near_nonneg _ _ _ _ Ha) as Hma. pose proof (near_nonneg _ _ _ _ Hb) as Hmb.
  destruct Ha as [Ha1 Ha2], Hb as [Hb1 Hb2].
  pose proof (Qabs_nonneg a). pose proof (Qabs_nonneg b).
  pose proof (Qabs_nonneg b'). pose proof (Qabs_nonneg (a' - a)).
  pose proof (Qabs_nonneg (b' - b)).
  pose proof (growth_ge_1 k). pose proof (growth_ge_1 l).
  split.
  - rewrite Qabs_Qmult. nra.
  - rewrite growth_add.
    assert (Hx : a' * b' - a * b == (a' - a) * b' + a * (b' - b)) by ring.
    rewrite Hx. eapply Qle_trans; [apply Qabs_triangle|]. rewrite !Qabs_Qmult.
    assert (Qabs (a' - a) * Qabs b' <= ma * (growth k - 1) * (mb * growth l)).
    { apply Qmult_le_compat_nonneg; split; lra. }
    assert (Qabs a * Qabs (b' - b) <= ma * (mb * (growth l - 1))).
    { apply Qmult_le_compat_nonneg; split; lra. }
    nra.
Qed.

Lemma near_sub k a' a ma b' b mb :
  near k a' a ma → near k b' b mb → near k (a' - b') (a - b) (ma + mb).
Proof.
  intros [Ha1 Ha2] [Hb1 Hb2]. split.
  - assert (Hx : a - b == a + - b) by ring. rewrite Hx.
    eapply Qle_trans; [apply Qabs_triangle|]. rewrite Qabs_opp. lra.
  - assert (Hx : a' - b' - (a - b) == (a' - a) + - (b' - b)) by ring. rewrite Hx.
    eapply Qle_trans; [apply Qabs_triangle|]. rewrite Qabs_opp. lra.
Qed.

Lemma near_literal x : 0 <= x → near 1 (Num.double x) x x.
Proof.
  intros H. apply near_double. apply (near_bound 0 x x (Qabs x)); [|apply near_exact].
  rewrite Qabs_pos by done. apply Qle_refl.
Qed.

(** The score in double precision is the score in exact arithmetic up to five
    roundings. *)
Lemma complexity_near A B :
  0 < A → 0 < B →
  Qabs (Num.sub (Num.sub Analyzer.c_206_835 (Num.mul Analyzer.c_1_015 (Num.double A)))
                (Num.mul Analyzer.c_84_6 (Num.double B))
        - ((206835 # 1000) - (1015 # 1000) * A - (846 # 10) * B))
  <= ((206835 # 1000) + (1015 # 1000) * A + (846 # 10) * B) * Num.pow2 (-50).
Proof.
  intros HA HB.
  assert (H1 : near 3 Analyzer.c_206_835 (206835 # 1000) (206835 # 1000)).
  { apply (near_weaken 1); [lia|]. by apply near_literal. }
  assert (H2 : near 3 (Num.mul Analyzer.c_1_015 (Num.double A))
                 ((1015 # 1000) * A) ((1015 # 1000) * A)).
  { apply near_double. apply (near_mul 1 1); apply near_literal; [done|lra]. }
  assert (H3 : near 4 (Num.mul Analyzer.c_84_6 (Num.double B))
                 ((846 # 10) * B) ((846 # 10) * B)).
  { apply (near_weaken 3); [lia|].
    apply near_double. apply (near_mul 1 1); apply near_literal; [done|lra]. }
  pose proof (near_double _ _ _ _ (near_sub _ _ _ _ _ _ _ H1 H2)) as H4.
  pose proof (near_double _ _ _ _ (near_sub _ _ _ _ _ _ _ H4 H3)) as [_ H5].
  eapply Qle_trans; [exact H5|].
  assert (Hg : growth 5 - 1 <= Num.pow2 (-50)) by (by vm_compute).
  apply Qmult_le_l; [lra|done].
Qed.

End FloatFacts.

(* ===================================================================== *)
(** ** The properties of the specification *)
(* ===================================================================== *)

Section Claims.
Import Chars Re Str Spec Aux.
Import ReFacts StrFacts ScanFacts ProcessorFacts BlockFacts AnalyzerFacts.
Import ReadabilityFacts SimilarityFacts CorpusFacts BatchFacts FloatFacts.

(** *** The examples of the specification, run on the embedding *)

Example strip_html_example_text :
  Processor.strip_html (L "<p>Hello <b>World</b></p>") = (L "Hello World", [], []).
Proof. reflexivity. Qed.

Example strip_html_example_links :
  Processor.strip_html
    (L "<a href=" ++ Processor.dquote :: L "http://x.com" ++ Processor.dquote
       :: L ">l</a><img src=" ++ Processor.dquote :: L "y.png" ++ Processor.dquote
       :: L ">")
  = (L "l", [L "http://x.com"], [L "y.png"]).
Proof. reflexivity. Qed.

Example extract_ngrams_example :
  Analyzer.extract_ngrams [L "a"; L "b"; L "c"] 2 = [L "a b"; L "b c"]
  ∧ Analyzer.extract_ngrams [L "a"] 2 = [].
Proof. split; reflexivity. Qed.

Example jaccard_example :
  (Analyzer.jaccard_similarity [L "a"; L "b"] [L "a"; L "c"] == 1 # 3)%Q
  ∧ Num.round (Num.double (Analyzer.jaccard_similarity [L "a"; L "b"] [L "a"; L "c"])) 4
    = Num.double (3333 # 10000).
Proof. split; by vm_compute. Qed.

Example count_statistics_example :
  Processor.count_statistics (L "Hi there. How are you?! fine")
  = {| Processor.word_count := 6; Processor.sentence_count := 3;
       Processor.paragraph_count := 1;
       Processor.avg_word_length := Num.double (383 # 100) |}.
Proof. by vm_compute. Qed.

(** Rounding acts on the double, not on the exact quotient: [43 / 40] is the
    double just below 1.075 and rounds to 1.07, [1 / 160] is the double just
    above 0.00625 and rounds to 0.0063, and the score of the text
    ["Hello World"], 77.905 in exact arithmetic, is a double above it and
    rounds to 77.91. *)
Example round_examples :
  Num.round (Num.div 43 40) 2 = Num.double (107 # 100)
  ∧ Num.round (Num.div 1 160) 4 = Num.double (63 # 10000)
  ∧ Analyzer.calculate_readability_metrics [L "Hello World"]
    = {| Analyzer.avg_sentence_length := Num.double 2;
         Analyzer.avg_word_length := Num.double 5;
         Analyzer.complexity_score := Num.double (7791 # 100) |}
  ∧ (Analyzer.complexity_score_of (Analyzer.corpus_totals [L "Hello World"])
     == 77905 # 1000)%Q.
Proof. split_and!; by vm_compute. Qed.

Example tokenize_text_example :
  Analyzer.tokenize_text (L "Hello, World! foo_bar x9 it's a-b 3D Zz")
  = [L "hello"; L "world"; L "it"; L "s"; L "a"; L "b"; L "zz"].
Proof. reflexivity. Qed.

(** *** Tokenization *)

(** C1, as the specification states it, fails: on ["abc123 def"] the
    tokenizer returns ["def"] only.  The letters [abc] touch a digit, so no
    word boundary follows them, and the pattern cannot start inside the
    run.  The maximal runs of letters would be ["abc"] and ["def"]. *)
Lemma tokenize_text_digits_counterexample :
  Analyzer.tokenize_text (L "abc123 def") = [L "def"]
  ∧ letter_runs (L "abc123 def") = [L "abc"; L "def"]
  ∧ Analyzer.tokenize_text (L "abc123 def") ≠ letter_runs (L "abc123 def").
Proof. split_and!; [by vm_compute|by vm_compute|]. vm_compute. discriminate. Qed.

(** C1, amended: for every text, [tokenize_text] returns, in the order of
    the text, the maximal runs of word characters (letters, digits,
    underscore) of the lower-cased text that are made of the letters a to z
    only.  Punctuation and white space separate tokens; a digit or an
    underscore next to letters removes the whole run. *)
Theorem tokenize_text_letter_words (text : str) :
  Analyzer.tokenize_text text = letter_words (lower text).
Proof. unfold Analyzer.tokenize_text. apply findall_word. Qed.

(** *** The Text Extractor *)



(** C10: the paragraph count recorded for a document is 1 when the cleaned
    text is not empty and 0 when it is: the cleaned text has no line break
    left, so the split on blank lines returns it whole. *)
Theorem paragraph_count_at_most_one (source_file html : str) :
  let text := Processor.text_of (Processor.strip_html html) in
  Re.split Processor.rx_blank_line text = [text]
  ∧ Processor.paragraph_count (Processor.count_statistics text)
    = match text with [] => 0 | _ => 1 end
  ∧ Processor.paragraph_count
      (Processor.pd_statistics (Processor.render source_file html))
    = Processor.paragraph_count (Processor.count_statistics text)
  ∧ Processor.paragraph_count
      (Processor.pd_statistics (Processor.render source_file html)) ≤ 1.
Proof.
  intros text.
  assert (Hsplit : split Processor.rx_blank_line text = [text]).
  { apply split_blank_line_one, strip_html_no_newline. }
  assert (Hcount : Processor.paragraph_count (Processor.count_statistics text)
                   = match text with [] => 0 | _ => 1 end).
  { unfold Processor.count_statistics. cbn [Processor.paragraph_count].
    rewrite Hsplit. unfold Processor.stripped_nonblank. rewrite length_map.
    cbn [List.filter]. unfold Processor.nonblank.
    destruct (strip_html_stripped html) as [y Hy]. fold text in Hy.
    destruct (strip text) as [|c t] eqn:E.
    - rewrite Hy in E. apply strip_strip_nil in E. rewrite <- Hy in E. by rewrite E.
    - destruct text; [by rewrite strip_nil in E|done]. }
  assert (Hrender : Processor.paragraph_count
                      (Processor.pd_statistics (Processor.render source_file html))
                    = Processor.paragraph_count (Processor.count_statistics text)).
  { unfold Processor.render, text, Processor.text_of.
    by destruct (Processor.strip_html html) as [[t l] i]. }
  split_and!; [done|done|done|].
  rewrite Hrender, Hcount. destruct text; lia.
Qed.

(** *** Readability *)

(** C5: the readability metrics are one pooled quantity.  The four totals
    are sums over all the texts of the corpus; the syllable count of a word
    is its number of maximal runs of the vowels a, e, i, o, u, y, and at
    least 1; the average sentence length is the total of words over the total
    of sentences.  As soon as the corpus has a word, it has a sentence, and
    the complexity score is 206.835 - 1.015 * (words / sentences) - 84.6 *
    (syllables / words), computed in double precision and then rounded to
    two decimals; before it is rounded it differs from the value of the
    formula in exact arithmetic by at most [2 ^ -50] times the sum of the
    three terms.  When the corpus has no word, the score is 0. *)
Theorem readability_pooled (all_texts : list str) :
  let t := Analyzer.corpus_totals all_texts in
  let W := Analyzer.total_words t in
  let S := Analyzer.total_sentences t in
  let Y := Analyzer.total_syllables t in
  let metrics := Analyzer.calculate_readability_metrics all_texts in
  let score :=
    Num.sub (Num.sub Analyzer.c_206_835 (Num.mul Analyzer.c_1_015 (Num.div W S)))
            (Num.mul Analyzer.c_84_6 (Num.div Y W)) in
  (W = Analyzer.sum_nat (map words_in all_texts)
   ∧ S = Analyzer.sum_nat (map sentences_in all_texts)
   ∧ Y = Analyzer.sum_nat (map syllables_in all_texts))
  ∧ (∀ word, Analyzer.syllable_count word
             = Nat.max 1 (length (runs (one_of "aeiouy") word)))
  ∧ Analyzer.avg_sentence_length metrics
    = Num.round (if 0 <? S then Num.div W S else 0%Q) 2
  ∧ (if 0 <? W
     then 0 < S
          ∧ Analyzer.complexity_score metrics = Num.round score 2
          ∧ Analyzer.complexity_score_of t
            = ((206835 # 1000) - (1015 # 1000) * Num.ratio W S
               - (846 # 10) * Num.ratio Y W)%Q
          ∧ (Qabs (score - Analyzer.complexity_score_of t)
             <= ((206835 # 1000) + (1015 # 1000) * Num.ratio W S
                 + (846 # 10) * Num.ratio Y W) * Num.pow2 (-50))%Q
     else Analyzer.complexity_score metrics = 0%Q
          ∧ Analyzer.complexity_score_of t = 0%Q).
Proof.
  intros t W S Y metrics score.
  assert (Hsum : t = {| Analyzer.total_sentences := Analyzer.sum_nat (map sentences_in all_texts);
                        Analyzer.total_words := Analyzer.sum_nat (map words_in all_texts);
                        Analyzer.total_syllables := Analyzer.sum_nat (map syllables_in all_texts);
                        Analyzer.total_chars := Analyzer.sum_nat (map chars_in all_texts) |})
    by apply corpus_totals_sum.
  split_and!.
  - unfold W. by rewrite Hsum.
  - unfold S. by rewrite Hsum.
  - unfold Y. by rewrite Hsum.
  - apply syllable_count_runs.
  - done.
  - destruct (0 <? W) eqn:EW.
    + apply Nat.ltb_lt in EW.
      assert (HS : 0 < S) by (by apply corpus_sentences_pos).
      assert (HY : 0 < Y) by (by apply corpus_syllables_pos).
      assert (Hexact : Analyzer.complexity_score_of t
                       = ((206835 # 1000) - (1015 # 1000) * Num.ratio W S
                          - (846 # 10) * Num.ratio Y W)%Q).
      { unfold Analyzer.complexity_score_of, Analyzer.avg_sentence_length_of,
          Analyzer.avg_syllables_per_word_of. fold S W Y.
        rewrite (proj2 (Nat.ltb_lt 0 S) HS), (proj2 (Nat.ltb_lt 0 W) EW).
        by rewrite !is_pos_ratio. }
      split_and!; [done| |done|].
      * unfold metrics, Analyzer.calculate_readability_metrics, Analyzer.metrics_of.
        fold t. cbn [Analyzer.complexity_score]. fold S W Y.
        rewrite (proj2 (Nat.ltb_lt 0 S) HS), (proj2 (Nat.ltb_lt 0 W) EW).
        unfold Analyzer.complexity. by rewrite !is_pos_div.
      * rewrite Hexact. apply complexity_near; by apply ratio_positive.
    + apply Nat.ltb_ge in EW. assert (W = 0) as HW by lia. split.
      * unfold metrics, Analyzer.calculate_readability_metrics, Analyzer.metrics_of.
        fold t. cbn [Analyzer.complexity_score]. fold S W Y. rewrite HW.
        unfold Analyzer.complexity. cbn [Nat.ltb Nat.leb].
        rewrite andb_false_r. apply round_zero.
      * unfold Analyzer.complexity_score_of, Analyzer.avg_syllables_per_word_of.
        fold W. rewrite HW. simpl. by rewrite andb_false_r.
Qed.

(** *** Similarity *)

(** C6, as the specification states it, fails for two documents without
    tokens: their token sets are identical, and the similarity is 0, not 1
    (the union is empty). *)
Lemma jaccard_empty_counterexample :
  Analyzer.to_set [] = Analyzer.to_set []
  ∧ Analyzer.jaccard_similarity [] [] = 0%Q
  ∧ ¬ (Analyzer.jaccard_similarity [] [] == 1)%Q.
Proof. split_and!; [done|done|]. by vm_compute. Qed.

(** C6, amended: the similarity is symmetric; it is 1 for two documents with
    the same set of tokens when that set is not empty; it is 0 for two
    documents without a common token; and it is 0 when neither document has
    a token. *)
Theorem jaccard_similarity_properties (a b : list str) :
  Analyzer.jaccard_similarity a b = Analyzer.jaccard_similarity b a
  ∧ (Analyzer.to_set a = Analyzer.to_set b → Analyzer.to_set a ≠ ∅ →
     (Analyzer.jaccard_similarity a b == 1)%Q)
  ∧ (Analyzer.to_set a ∩ Analyzer.to_set b = ∅ →
     (Analyzer.jaccard_similarity a b == 0)%Q)
  ∧ (Analyzer.to_set a ∪ Analyzer.to_set b = ∅ →
     Analyzer.jaccard_similarity a b = 0%Q).
Proof.
  split_and!.
  - apply jaccard_comm.
  - apply jaccard_same.
  - apply jaccard_disjoint.
  - apply jaccard_empty.
Qed.

Lemma jaccard_similarity_properties_witness :
  (Analyzer.jaccard_similarity [L "a"; L "b"] [L "b"; L "a"; L "b"] == 1)%Q
  ∧ (Analyzer.jaccard_similarity [L "a"] [L "b"] == 0)%Q
  ∧ Analyzer.jaccard_similarity [] [] = 0%Q.
Proof.
  split_and!.
  - apply (jaccard_similarity_properties [L "a"; L "b"] [L "b"; L "a"; L "b"]).
    + apply set_eq. intros x. unfold Analyzer.to_set.
      rewrite !elem_of_list_to_set, !elem_of_cons, !elem_of_nil. tauto.
    + intros H. assert (L "a" ∈ Analyzer.to_set [L "a"; L "b"]) as Hin.
      { unfold Analyzer.to_set. rewrite elem_of_list_to_set. by left. }
      rewrite H in Hin. by apply not_elem_of_empty in Hin.
  - apply (jaccard_similarity_properties [L "a"] [L "b"]).
    apply set_eq. intros x. unfold Analyzer.to_set.
    rewrite elem_of_intersection, !elem_of_list_to_set, !elem_of_cons, !elem_of_nil.
    split; [|by intros ?%not_elem_of_empty].
    intros [[->|[]] [H|[]]]. discriminate H.
  - apply (jaccard_similarity_properties [] []). unfold Analyzer.to_set. simpl.
    apply (left_id_L ∅ (∪)).
Defined.

(** *** The batch of the Processor *)

(** C7: the Processor handles every item that the fetch stage reports as a
    success, in order; the outcome of an item depends on its own raw document
    and on its own write only ([item_ok]), so that a failure marks that item
    as failed and nothing else; and the completion record is returned with
    counts that add up. *)
Theorem batch_failure_isolated (env : nat → Processor.write_outcome)
    (fetch_results : list Processor.fetch_item) (w : Processor.world) :
  let c := (Processor.main env fetch_results w).1 in
  let items :=
    List.filter (λ r, Processor.is_success (Processor.fetch_status r)) fetch_results in
  map Processor.source_file (Processor.results c) = map Processor.file items
  ∧ (∀ k it, items !! k = Some it →
       ∃ r, Processor.results c !! k = Some r
            ∧ Processor.source_file r = Processor.file it
            ∧ Processor.output_file r = Processor.output_name (Processor.file it)
            ∧ Processor.status r
              = if item_ok env w k it then L "success" else L "failed")
  ∧ Processor.files_processed c = length items
  ∧ Processor.successful c + Processor.failed c = Processor.files_processed c.
Proof.
  intros c items.
  assert (Hres : Processor.results c = (Processor.process_all env 0 items w).1).
  { unfold c, Processor.main. fold items.
    by destruct (Processor.process_all env 0 items w). }
  assert (Hfiles : Processor.files_processed c = length (Processor.results c)).
  { unfold c, Processor.main. fold items.
    by destruct (Processor.process_all env 0 items w). }
  assert (Hsucc : Processor.successful c
                  = Processor.count_status Processor.is_success (Processor.results c)).
  { unfold c, Processor.main. fold items.
    by destruct (Processor.process_all env 0 items w). }
  assert (Hfail : Processor.failed c
                  = Processor.count_status Processor.is_failed (Processor.results c)).
  { unfold c, Processor.main. fold items.
    by destruct (Processor.process_all env 0 items w). }
  assert (Hat : ∀ k it, items !! k = Some it →
            Processor.results c !! k = Some (Processor.process_item env k it w).1).
  { intros k it Hk. rewrite Hres. by apply (process_all_lookup env items 0 w k it). }
  split_and!.
  - apply list_eq. intros k. rewrite !list_lookup_fmap.
    destruct (items !! k) as [it|] eqn:Hk.
    + rewrite (Hat k it Hk). simpl.
      by destruct (process_item_result env k it w) as (-> & _).
    + rewrite lookup_ge_None_2; [done|].
      rewrite Hres, process_all_length. by apply lookup_ge_None_1.
  - intros k it Hk. eexists. split; [by apply Hat|].
    apply (process_item_result env k it w).
  - by rewrite Hfiles, Hres, process_all_length.
  - rewrite Hsucc, Hfail, Hfiles. apply count_status_sum.
    apply Forall_forall. intros r [k Hk]%list_elem_of_lookup.
    destruct (items !! k) as [it|] eqn:Hit.
    + rewrite (Hat k it Hit) in Hk. injection Hk as <-.
      destruct (process_item_result env k it w) as (_ & _ & ->).
      destruct (item_ok env w k it); auto.
    + apply lookup_lt_Some in Hk. apply lookup_ge_None_1 in Hit.
      rewrite Hres, process_all_length in Hk. lia.
Qed.

Lemma batch_failure_isolated_witness :
  ∃ r, Processor.results
         (Processor.main Examples.all_writes_ok
            [Examples.ok (L "missing.html"); Examples.ok (L "b.html")]
            Examples.fresh).1 !! 1 = Some r
       ∧ Processor.source_file r = L "b.html"
       ∧ Processor.status r = L "success".
Proof.
  destruct (batch_failure_isolated Examples.all_writes_ok
              [Examples.ok (L "missing.html"); Examples.ok (L "b.html")]
              Examples.fresh) as (_ & H & _).
  destruct (H 1 (Examples.ok (L "b.html")) eq_refl) as (r & Hr & Hs & _ & Hst).
  exists r. split_and!; [exact Hr|exact Hs|exact Hst].
Defined.






(** *** The corpus of the Analyzer *)

(** C4, as the specification states it, fails: the Analyzer skips a
    document that it cannot load, so two success items of which one has no
    readable file give a report with no similarity entry, where n(n-1)/2 is
    1. *)
Lemma document_similarity_counterexample :
  ∃ report,
    Analyzer.main Examples.stale
      [Examples.success_of (L "a.json"); Examples.success_of (L "b.json")]
    = Some report
    ∧ Analyzer.documents_processed report = 2
    ∧ length (Analyzer.document_similarity report) = 0
    ∧ length (Analyzer.document_similarity report) ≠ 2 * (2 - 1) / 2.
Proof. eexists. split_and!; [reflexivity|done|done|done]. Qed.

(** C4, amended: when a report is written, its similarity entries are those
    of the documents that the Analyzer loaded (the success items whose file
    it could read), m of them: there are m(m-1)/2 entries, one for each pair
    of indices i < j < m, in the order of the two nested loops (by i, then by
    j); m is at most the number n of success items, which the report gives
    as [documents_processed], and equal to it when every success item
    loads. *)
Theorem document_similarity_count (w : Processor.world)
    (process_results : list Processor.item_result) (report : Analyzer.final_report) :
  Analyzer.main w process_results = Some report →
  let docs := omap (loaded w) process_results in
  let m := length docs in
  length (Analyzer.document_similarity report) = m * (m - 1) / 2
  ∧ Forall2 (λ e ij, Analyzer.similarity_at docs ij = Some e)
            (Analyzer.document_similarity report) (Analyzer.index_pairs m)
  ∧ StronglySorted pair_lt (Analyzer.index_pairs m)
  ∧ (∀ i j, (i, j) ∈ Analyzer.index_pairs m ↔ i < j ∧ j < m)
  ∧ m ≤ Analyzer.documents_processed report
  ∧ (Forall (λ r, Processor.is_success (Processor.status r) = true →
                  is_Some (Analyzer.load_text w (Processor.output_file r)))
            process_results →
     m = Analyzer.documents_processed report).
Proof.
  intros Hmain docs m. unfold Analyzer.main in Hmain.
  set (ok := List.filter (λ r, Processor.is_success (Processor.status r)) process_results)
    in Hmain.
  assert (Hdocs : Analyzer.documents_data (Analyzer.analyze_corpus w ok) = docs).
  { rewrite analyze_corpus_documents. apply omap_loaded_filter. }
  assert (Hrep : Analyzer.document_similarity report
                 = Analyzer.calculate_document_similarities docs
                 ∧ Analyzer.documents_processed report = length ok).
  { destruct ok; [done|]. injection Hmain as <-. simpl. by rewrite Hdocs. }
  destruct Hrep as [-> ->].
  split_and!.
  - apply length_similarities.
  - apply similarities_along_pairs.
  - apply index_pairs_sorted.
  - apply elem_of_index_pairs.
  - apply length_omap_loaded.
  - apply length_omap_loaded_all.
Qed.

Lemma document_similarity_count_witness :
  ∃ report,
    Analyzer.main Examples.processed
      [Examples.success_of (L "a.json"); Examples.success_of (L "b.json")]
    = Some report
    ∧ length (Analyzer.document_similarity report) = 2 * (2 - 1) / 2.
Proof.
  eexists. split; [reflexivity|].
  exact (proj1 (document_similarity_count Examples.processed
                  [Examples.success_of (L "a.json"); Examples.success_of (L "b.json")]
                  _ eq_refl)).
Defined.

(** *** Links and images *)



(** The page of the example: the link inside the script element is not
    reported, the two links around it are, in order and twice. *)
Example strip_html_script_example :
  let html := Examples.link_before
              ++ element "script" Examples.script_attrs Examples.script_body
              ++ Examples.after_script in
  Processor.links_of (Processor.strip_html html) = [L "x"; L "x"]
  ∧ Processor.images_of (Processor.strip_html html) = [L "y.png"].
Proof. split; reflexivity. Qed.
End Claims.

(* ===================================================================== *)
(** ** Facts about white space: collapsing, splitting, joining *)
(* ===================================================================== *)

Module WhitespaceFacts.
Import Chars Re Str Spec Aux Shape Helper.
Import ReFacts StrFacts ScanFacts ProcessorFacts BlockFacts ReadabilityFacts.

Lemma split_ws_from_runs cur s : split_ws_from cur s = runs_from nonspace cur s.
Proof.
  revert cur. induction s as [|c s IH]; intros cur; simpl; [done|].
  unfold nonspace at 1. destruct (is_space c); simpl.
  - destruct cur; by rewrite IH.
  - apply IH.
Qed.

Lemma split_ws_runs s : split_ws s = runs nonspace s.
Proof. apply split_ws_from_runs. Qed.

Lemma no_boundary_spaces : no_boundary Processor.rx_spaces.
Proof. repeat constructor. Qed.

Lemma collapse_nil : collapse [] = [].
Proof. done. Qed.

Lemma collapse_space c s :
  is_space c = true → collapse (c :: s) = " "%char :: collapse (drop_run is_space s).
Proof.
  intros E. unfold collapse, sub.
  pose proof (match_at_run false is_space None (c :: s)) as Hm.
  cbv beta iota in Hm. rewrite E in Hm.
  erewrite sub_from_hit; [|exact Hm|by rewrite whole_pushes; simpl; rewrite E].
  rewrite rest_pushes. simpl rest. simpl drop_run. rewrite E.
  change (L " " ++ ?x) with (" "%char :: x). f_equal.
  apply sub_from_blind, no_boundary_spaces.
Qed.

Lemma collapse_nonspace c s :
  is_space c = false → collapse (c :: s) = c :: collapse s.
Proof.
  intros E. unfold collapse, sub. rewrite sub_from_miss.
  - f_equal. apply sub_from_blind, no_boundary_spaces.
  - pose proof (match_at_run false is_space None (c :: s)) as Hm.
    cbv beta iota in Hm. by rewrite E in Hm.
Qed.

Lemma collapse_run r s :
  Forall (λ c, is_space c = false) r → collapse (r ++ s) = r ++ collapse s.
Proof.
  induction 1 as [|c r Hc _ IH]; [done|].
  simpl. rewrite collapse_nonspace by done. by rewrite IH.
Qed.

Lemma runs_drop_run p s : runs p (drop_run (λ c, negb (p c)) s) = runs p s.
Proof.
  induction s as [|c s IH]; [done|]. simpl.
  destruct (p c) eqn:E; simpl; [done|]. by rewrite runs_cons_out.
Qed.

Lemma nonspace_true c : nonspace c = true ↔ is_space c = false.
Proof. unfold nonspace. by destruct (is_space c). Qed.

Lemma nonspace_false c : nonspace c = false ↔ is_space c = true.
Proof. unfold nonspace. by destruct (is_space c). Qed.

Lemma drop_run_space_runs s : runs nonspace (drop_run is_space s) = runs nonspace s.
Proof.
  rewrite <- (runs_drop_run nonspace s). f_equal.
  induction s as [|c s IH]; [done|]. simpl. unfold nonspace at 1.
  rewrite negb_involutive. destruct (is_space c); [apply IH|done].
Qed.

Lemma take_run_nonspace s : Forall (λ c, is_space c = false) (take_run nonspace s).
Proof.
  eapply Forall_impl; [apply take_run_all|]. intros c. apply nonspace_true.
Qed.

Lemma collapse_shape n : ∀ s, length s ≤ n →
  ∃ b, Forall (λ c, is_space c = true) b
       ∧ collapse s = lead s ++ join (L " ") (runs nonspace s) ++ b.
Proof.
  induction n as [n IH] using lt_wf_ind. intros [|c s] Hn.
  { exists []. split; [constructor|done]. }
  simpl in Hn. destruct (is_space c) eqn:E.
  - rewrite collapse_space by done.
    rewrite runs_cons_out by (by apply nonspace_false).
    rewrite <- drop_run_space_runs.
    destruct (IH (length (drop_run is_space s))) with (s := drop_run is_space s)
      as (b & Hb & Heq); [pose proof (length_drop_run is_space s); lia|done|].
    exists b. split; [done|]. rewrite Heq. simpl. rewrite E.
    assert (lead (drop_run is_space s) = []) as ->; [|done].
    destruct (drop_run is_space s) as [|d t] eqn:Ed; [done|].
    apply drop_run_head in Ed. simpl. by rewrite Ed.
  - assert (Hc : nonspace c = true) by (by apply nonspace_true).
    rewrite runs_cons_in by done.
    assert (Hcol : collapse (c :: s)
                   = (c :: take_run nonspace s) ++ collapse (drop_run nonspace s)).
    { rewrite <- collapse_run by (constructor; [done|apply take_run_nonspace]).
      simpl. by rewrite take_drop_run. }
    rewrite Hcol.
    destruct (IH (length (drop_run nonspace s))) with (s := drop_run nonspace s)
      as (b & Hb & Heq); [pose proof (length_drop_run nonspace s); lia|done|].
    rewrite Heq. assert (lead (c :: s) = []) as -> by (simpl; by rewrite E).
    change ([] ++ ?x) with x.
    destruct (drop_run nonspace s) as [|d t] eqn:Ed.
    + exists b. split; [done|]. reflexivity.
    + pose proof (drop_run_head _ _ _ _ Ed) as Hd. apply nonspace_false in Hd.
      simpl lead. rewrite Hd.
      destruct (runs nonspace (d :: t)) as [|r2 rs] eqn:Er.
      * exists (L " " ++ b). split; [by constructor|]. reflexivity.
      * exists b. split; [done|]. simpl. by rewrite <- !app_assoc.
Qed.

Lemma lstrip_spaces a x : Forall (λ c, is_space c = true) a → lstrip (a ++ x) = lstrip x.
Proof. induction 1 as [|c a Hc _ IH]; [done|]. simpl. by rewrite Hc. Qed.

Lemma lstrip_keeps c x : is_space c = false → lstrip (c :: x) = c :: x.
Proof. intros E. simpl. by rewrite E. Qed.

Lemma rstrip_spaces x b : Forall (λ c, is_space c = true) b → rstrip (x ++ b) = rstrip x.
Proof.
  intros Hb. unfold rstrip. rewrite reverse_app, lstrip_spaces; [done|].
  by apply Forall_reverse.
Qed.

Lemma rstrip_keeps y c : is_space c = false → rstrip (y ++ [c]) = y ++ [c].
Proof.
  intros E. unfold rstrip. rewrite reverse_app.
  change (reverse [c] ++ reverse y) with (c :: reverse y).
  rewrite lstrip_keeps by done. by rewrite reverse_cons, reverse_involutive.
Qed.

Lemma strip_all_spaces a : Forall (λ c, is_space c = true) a → strip a = [].
Proof.
  intros Ha. unfold strip. rewrite <- (app_nil_r a), lstrip_spaces by done. done.
Qed.

Lemma join_cons2 sep w w2 ws : join sep (w :: w2 :: ws) = w ++ sep ++ join sep (w2 :: ws).
Proof. done. Qed.

Lemma join_head ws :
  ws ≠ [] → Forall is_plain_word ws →
  ∃ c y, join (L " ") ws = c :: y ∧ is_space c = false.
Proof.
  intros Hne Hws. destruct ws as [|w ws]; [done|].
  apply Forall_cons in Hws as [[Hw Hall] _].
  destruct w as [|c w]; [done|]. apply Forall_cons in Hall as [Hc _].
  destruct ws as [|w2 ws]; [by exists c, w|].
  rewrite join_cons2. by eexists c, _.
Qed.

Lemma join_last ws :
  ws ≠ [] → Forall is_plain_word ws →
  ∃ y c, join (L " ") ws = y ++ [c] ∧ is_space c = false.
Proof.
  intros Hne Hws. induction Hws as [|w ws [Hw Hall] Hws IH]; [done|].
  destruct ws as [|w2 ws].
  - simpl. destruct (exists_last Hw) as (y & c & ->).
    exists y, c. split; [done|].
    rewrite Forall_app, Forall_singleton in Hall. by destruct Hall.
  - destruct IH as (y & c & Heq & Hc); [done|].
    rewrite join_cons2, Heq. exists (w ++ L " " ++ y), c.
    split; [by rewrite <- !app_assoc|done].
Qed.

Lemma runs_plain s : Forall is_plain_word (runs nonspace s).
Proof.
  apply Forall_forall. intros r Hr.
  destruct (runs_elem nonspace (length s) s r) as [Hne Hall]; [done|done|].
  split; [done|]. eapply Forall_impl; [exact Hall|].
  intros c [Hc _]. by apply nonspace_true.
Qed.

Lemma split_ws_plain s : Forall is_plain_word (split_ws s).
Proof. rewrite split_ws_runs. apply runs_plain. Qed.

(** Collapsing the white space and stripping the ends gives the words joined
    by single spaces. *)
Lemma strip_collapse s : strip (collapse s) = join (L " ") (split_ws s).
Proof.
  destruct (collapse_shape (length s) s) as (b & Hb & Heq); [done|].
  rewrite Heq, split_ws_runs.
  assert (Hlead : Forall (λ c, is_space c = true) (lead s)).
  { destruct s as [|c s]; [constructor|]. simpl. destruct (is_space c) eqn:E.
    - by constructor.
    - constructor. }
  pose proof (runs_plain s) as Hws.
  destruct (runs nonspace s) as [|w ws] eqn:Er.
  - simpl. apply strip_all_spaces. by apply Forall_app.
  - destruct (join_head (w :: ws)) as (c & y & Hj & Hc); [done|done|].
    destruct (join_last (w :: ws)) as (y' & c' & Hj' & Hc'); [done|done|].
    unfold strip. rewrite lstrip_spaces by done.
    rewrite Hj. simpl app. rewrite lstrip_keeps by done.
    change (c :: y ++ b) with ((c :: y) ++ b). rewrite <- Hj.
    rewrite rstrip_spaces by done. rewrite Hj'. by apply rstrip_keeps.
Qed.

Lemma runs_app_run p r s :
  r ≠ [] → Forall (λ c, p c = true) r →
  (∀ d s', s = d :: s' → p d = false) →
  runs p (r ++ s) = r :: runs p s.
Proof.
  intros Hne Hr Hs. destruct r as [|c r]; [done|].
  apply Forall_cons in Hr as [Hc Hr]. simpl.
  rewrite runs_cons_in by done.
  destruct (take_run_end p r s Hr Hs) as [-> ->]. done.
Qed.

Lemma split_ws_join ws :
  Forall is_plain_word ws → split_ws (join (L " ") ws) = ws.
Proof.
  rewrite split_ws_runs.
  induction 1 as [|w ws [Hne Hw] Hws IH]; [done|].
  assert (Hw' : Forall (λ c, nonspace c = true) w).
  { eapply Forall_impl; [exact Hw|]. intros c. apply nonspace_true. }
  destruct ws as [|w2 ws].
  - simpl. rewrite <- (app_nil_r w) at 1. by rewrite runs_app_run.
  - rewrite join_cons2. rewrite runs_app_run; [|done|done|].
    + f_equal. change (L " " ++ ?x) with (" "%char :: x).
      rewrite runs_cons_out by done. apply IH.
    + intros d s' [= <- _]. done.
Qed.

(** In words joined by single spaces, white space is a single space between
    two other characters. *)
Lemma join_spaces ws :
  Forall is_plain_word ws →
  ∀ a c b, join (L " ") ws = a ++ c :: b → is_space c = true →
    c = " "%char
    ∧ (∃ a' x, a = a' ++ [x] ∧ is_space x = false)
    ∧ (∃ y b', b = y :: b' ∧ is_space y = false).
Proof.
  induction 1 as [|w ws [Hne Hw] Hws IH]; intros a c b Heq Hc.
  { by destruct a. }
  destruct ws as [|w2 ws].
  - simpl in Heq. rewrite Heq in Hw. apply Forall_app in Hw as [_ Hw].
    apply Forall_cons in Hw as [Hw _]. congruence.
  - rewrite join_cons2 in Heq.
    destruct (join_head (w2 :: ws)) as (y & t & Hj & Hy); [done|done|].
    destruct (exists_last Hne) as (w0 & x & Hw0).
    assert (Hx : is_space x = false).
    { rewrite Hw0, Forall_app, Forall_singleton in Hw. by destruct Hw. }
    change (L " " ++ ?x) with (" "%char :: x) in Heq.
    apply app_eq_app in Heq as [l [[Hl1 Hl2]|[Hl1 Hl2]]].
    + destruct l as [|c' l].
      * rewrite app_nil_r in Hl1. simpl in Hl2. injection Hl2 as -> ->.
        split_and!; [done| |].
        -- exists w0, x. by rewrite <- Hl1.
        -- by exists y, t.
      * simpl in Hl2. injection Hl2 as <- _.
        rewrite Hl1, Forall_app, Forall_cons in Hw. destruct Hw as (_ & Hw & _).
        congruence.
    + destruct l as [|c' l].
      * rewrite app_nil_r in Hl1. simpl in Hl2. injection Hl2 as <- <-.
        split_and!; [done| |].
        -- exists w0, x. by rewrite Hl1.
        -- by exists y, t.
      * simpl in Hl2. injection Hl2 as <- Hl2.
        destruct (IH l c b Hl2 Hc) as (-> & (a' & x' & -> & Hx') & Hb).
        split_and!; [done| |done].
        exists (w ++ " "%char :: a'), x'. split; [|done].
        rewrite Hl1. by rewrite <- app_assoc.
Qed.

Lemma sum_lengths_runs p s :
  Processor.sum_lengths (runs p s) = length (List.filter p s).
Proof.
  remember (length s) as n eqn:Hn. revert s Hn.
  induction n as [n IH] using lt_wf_ind. intros [|c s] Hn; [done|].
  simpl in Hn. destruct (p c) eqn:E.
  - rewrite runs_cons_in by done. simpl. rewrite E. simpl.
    rewrite (IH (length (drop_run p s))); [|pose proof (length_drop_run p s); lia|done].
    rewrite <- (take_drop_run p s) at 3. rewrite List.filter_app, length_app.
    f_equal. f_equal. clear.
    induction s as [|d s IH]; [done|]. simpl. destruct (p d) eqn:E; [|done].
    simpl. rewrite E. simpl. by rewrite IH.
  - rewrite runs_cons_out by done. simpl. rewrite E.
    apply (IH (length s)); [lia|done].
Qed.

Lemma filter_nonblank_plain ws :
  Forall is_plain_word ws → List.filter Processor.nonblank ws = ws.
Proof.
  induction 1 as [|w ws [Hne Hw] _ IH]; [done|]. simpl.
  destruct w as [|c w]; [done|]. apply Forall_cons in Hw as [Hc _].
  rewrite (nonblank_elem (c :: w) c); [by rewrite IH|by left|done].
Qed.

Lemma words_of_text text :
  List.filter Processor.nonblank (split_ws text) = split_ws text.
Proof. apply filter_nonblank_plain, split_ws_plain. Qed.

Lemma occurrences_app c a b :
  occurrences c (a ++ b) = occurrences c a + occurrences c b.
Proof. unfold occurrences. by rewrite List.filter_app, length_app. Qed.

Lemma occurrences_plain w :
  Forall (λ c, is_space c = false) w → occurrences " " w = 0.
Proof.
  induction 1 as [|c w Hc _ IH]; [done|]. unfold occurrences in *.
  cbn [List.filter]. destruct (Ascii.eqb " " c) eqn:E; [|exact IH].
  apply Ascii.eqb_eq in E. by subst c.
Qed.

Lemma occurrences_join ws :
  Forall is_plain_word ws →
  occurrences " " (join (L " ") ws) = length ws - 1.
Proof.
  induction 1 as [|w ws [Hne Hw] Hws IH]; [done|].
  destruct ws as [|w2 ws].
  - simpl. by apply occurrences_plain.
  - rewrite join_cons2, !occurrences_app, IH, occurrences_plain by done.
    simpl. lia.
Qed.

Lemma split_from_chars rx (P : ascii → Prop) :
  ∀ s prev skip cur, Forall P cur → Forall P s →
    Forall (Forall P) (split_from rx prev skip cur s).
Proof.
  induction s as [|c s IH]; intros prev skip cur Hcur Hs.
  - destruct skip; simpl; repeat constructor; by apply Forall_reverse.
  - apply Forall_cons in Hs as [Hc Hs]. destruct skip as [|k]; simpl.
    + destruct (match_at rx prev (c :: s)) as [r|].
      * destruct (whole r).
        -- apply IH; [by constructor|done].
        -- constructor; [by apply Forall_reverse|]. apply IH; [constructor|done].
      * apply IH; [by constructor|done].
    + by apply IH.
Qed.

Lemma stripped_nonblank_spaces pieces :
  Forall (Forall (λ c, is_space c = true)) pieces →
  Processor.stripped_nonblank pieces = [].
Proof.
  induction 1 as [|p pieces Hp _ IH]; [done|].
  unfold Processor.stripped_nonblank in *. simpl.
  unfold Processor.nonblank at 1. by rewrite (strip_all_spaces p Hp).
Qed.

Lemma split_ws_nil_iff s : split_ws s = [] ↔ Forall (λ c, is_space c = true) s.
Proof.
  rewrite split_ws_runs. split.
  - induction s as [|c s IH]; [constructor|]. intros Hr.
    destruct (is_space c) eqn:E.
    + constructor; [done|]. apply IH.
      by rewrite runs_cons_out in Hr by (by apply nonspace_false).
    + by rewrite runs_cons_in in Hr by (by apply nonspace_true).
  - induction 1 as [|c s Hc _ IH]; [done|].
    by rewrite runs_cons_out by (by apply nonspace_false).
Qed.

Lemma word_count_split text :
  Processor.word_count (Processor.count_statistics text) = length (split_ws text).
Proof. unfold Processor.count_statistics. simpl. by rewrite words_of_text. Qed.

Lemma avg_word_length_split text :
  Processor.avg_word_length (Processor.count_statistics text)
  = Num.round (if 0 <? length (split_ws text)
               then Num.div (length (List.filter nonspace text))
                            (length (split_ws text))
               else 0%Q) 2.
Proof.
  unfold Processor.count_statistics. cbn [Processor.avg_word_length].
  rewrite words_of_text. by rewrite split_ws_runs, sum_lengths_runs.
Qed.

Lemma length_le_sum_lengths ws :
  Forall is_plain_word ws → length ws ≤ Processor.sum_lengths ws.
Proof.
  induction 1 as [|w ws [Hne _] _ IH]; [done|].
  destruct w; [done|]. simpl. lia.
Qed.

Lemma words_le_chars text :
  length (split_ws text) ≤ length (List.filter nonspace text).
Proof.
  rewrite <- sum_lengths_runs, <- split_ws_runs.
  apply length_le_sum_lengths, split_ws_plain.
Qed.
End WhitespaceFacts.

(* ===================================================================== *)
(** ** Facts about what a pattern captures *)
(* ===================================================================== *)

Module CaptureFacts.
Import Chars Re Str Spec Aux Shape Helper.
Import ReFacts StrFacts ScanFacts ProcessorFacts BlockFacts.

(** Every value that [findall] reports is the report of a match at some
    position of the string. *)
Lemma findall_from_elem rx v :
  ∀ s prev skip, v ∈ findall_from rx prev skip s →
    ∃ prev' u r, u `suffix_of` s ∧ match_at rx prev' u = Some r ∧ v = reported rx r.
Proof.
  induction s as [|c s IH]; intros prev skip Hv.
  - destruct skip; simpl in Hv; [|by apply elem_of_nil in Hv].
    destruct (match_at rx prev []) as [r|] eqn:E; [|by apply elem_of_nil in Hv].
    apply list_elem_of_singleton in Hv. by exists prev, [], r.
  - destruct skip as [|k]; simpl in Hv.
    + destruct (match_at rx prev (c :: s)) as [r|] eqn:E.
      * apply elem_of_cons in Hv as [->|Hv]; [by exists prev, (c :: s), r|].
        destruct (IH _ _ Hv) as (prev' & u & r' & Hu & Hm & ->).
        exists prev', u, r'. split; [by apply suffix_cons_r|done].
      * destruct (IH _ _ Hv) as (prev' & u & r' & Hu & Hm & ->).
        exists prev', u, r'. split; [by apply suffix_cons_r|done].
    + destruct (IH _ _ Hv) as (prev' & u & r' & Hu & Hm & ->).
      exists prev', u, r'. split; [by apply suffix_cons_r|done].
Qed.

Lemma once_inv cap p k prev s r :
  once cap p k prev s = Some r →
  ∃ c s' r', s = c :: s' ∧ p c = true ∧ k (Some c) s' = Some r' ∧ r = push cap c r'.
Proof.
  unfold once. destruct s as [|c s]; [done|]. destruct (p c) eqn:E; [|done].
  destruct (k (Some c) s) as [r'|] eqn:Ek; [|done]. intros [= <-].
  by exists c, s, r'.
Qed.

Lemma captures_final P : captures P final.
Proof. intros prev s r [= <-]. constructor. Qed.

Lemma grp_push_ok P cap p c r :
  (cap = true → ∀ c, p c = true → P c) → p c = true →
  Forall P (grp r) → Forall P (grp (push cap c r)).
Proof. intros Hp Hc Hr. destruct cap; simpl; [|done]. constructor; auto. Qed.

Lemma captures_once P cap p k :
  (cap = true → ∀ c, p c = true → P c) → captures P k → captures P (once cap p k).
Proof.
  intros Hp Hk prev s r (c & s' & r' & -> & Hc & Hr & ->)%once_inv.
  eapply grp_push_ok; eauto.
Qed.

Lemma captures_opt P cap p k :
  (cap = true → ∀ c, p c = true → P c) → captures P k → captures P (opt cap p k).
Proof.
  intros Hp Hk prev s r. unfold opt.
  destruct (once cap p k prev s) as [r'|] eqn:E.
  - intros [= <-]. by eapply captures_once.
  - apply Hk.
Qed.

Lemma captures_star P cap p k :
  (cap = true → ∀ c, p c = true → P c) → captures P k → captures P (star cap p k).
Proof.
  intros Hp Hk prev s. revert prev. induction s as [|c s IH]; intros prev r; simpl.
  - apply Hk.
  - destruct (p c) eqn:E; [|apply Hk].
    destruct (star cap p k (Some c) s) as [r'|] eqn:Es; [|apply Hk].
    intros [= <-]. eapply grp_push_ok; eauto.
Qed.

Lemma captures_star_lazy P cap p k :
  (cap = true → ∀ c, p c = true → P c) → captures P k → captures P (star_lazy cap p k).
Proof.
  intros Hp Hk prev s. revert prev. induction s as [|c s IH]; intros prev r; simpl.
  - destruct (k prev []) eqn:E; [|done]. intros [= <-]. by eapply Hk.
  - destruct (k prev (c :: s)) eqn:E; [intros [= <-]; by eapply Hk|].
    destruct (p c) eqn:Ec; [|done].
    destruct (star_lazy cap p k (Some c) s) as [r'|] eqn:Es; [|done].
    intros [= <-]. eapply grp_push_ok; eauto.
Qed.

Lemma captures_step P n k :
  match n with
  | Rep true p _ => ∀ c, p c = true → P c
  | _ => True
  end →
  captures P k → captures P (step n k).
Proof.
  intros Hn Hk. destruct n as [cap p q|]; simpl.
  - assert (Hp : cap = true → ∀ c, p c = true → P c) by (by intros ->).
    destruct q.
    + by apply captures_once.
    + by apply captures_opt.
    + by apply captures_star.
    + apply captures_once; [done|]. by apply captures_star.
    + by apply captures_star_lazy.
  - intros prev s r. destruct (at_boundary prev s); [apply Hk|done].
Qed.

Lemma captures_match_at P rx :
  Forall (λ n, match n with
               | Rep true p _ => ∀ c, p c = true → P c
               | _ => True
               end) rx →
  captures P (match_at rx).
Proof.
  induction 1 as [|n rx Hn _ IH]; [apply captures_final|].
  by apply captures_step.
Qed.

Lemma captures_some_once_cap p k : captures_some (once true p k).
Proof. by intros prev s r (c & s' & r' & -> & Hc & Hr & ->)%once_inv. Qed.

Lemma captures_some_once p k : captures_some k → captures_some (once false p k).
Proof.
  intros Hk prev s r (c & s' & r' & -> & Hc & Hr & ->)%once_inv. simpl.
  by eapply Hk.
Qed.

Lemma captures_some_opt p k : captures_some k → captures_some (opt false p k).
Proof.
  intros Hk prev s r. unfold opt.
  destruct (once false p k prev s) as [r'|] eqn:E.
  - intros [= <-]. by eapply captures_some_once.
  - apply Hk.
Qed.

Lemma captures_some_text name rx :
  captures_some (match_at rx) → captures_some (match_at (text_nocase name ++ rx)).
Proof.
  intros Hrx. unfold text_nocase.
  induction (list_ascii_of_string name) as [|c l IH]; [done|].
  simpl. by apply captures_some_once.
Qed.

Lemma captures_some_attr name : captures_some (match_at (rx_attr name)).
Proof.
  apply captures_some_text. simpl.
  apply captures_some_opt, captures_some_once_cap.
Qed.

Lemma captures_attr name :
  captures (λ c, Processor.is_value_char c = true) (match_at (rx_attr name)).
Proof.
  apply captures_match_at. unfold rx_attr, text_nocase. apply Forall_app. split.
  - apply Forall_forall. intros n (c & -> & _)%list_elem_of_fmap. done.
  - constructor; [done|]. constructor; [|constructor]. by intros c.
Qed.

(** Every value that one of the two attribute patterns reports is a
    non-empty run of value characters. *)
Lemma findall_attr_values name s v :
  v ∈ findall (rx_attr name) s →
  v ≠ [] ∧ Forall (λ c, Processor.is_value_char c = true) v.
Proof.
  intros (prev & u & r & _ & Hm & ->)%findall_from_elem.
  unfold reported. rewrite has_group_attr. split.
  - by eapply captures_some_attr.
  - by eapply captures_attr.
Qed.

Lemma is_value_char_spec c :
  Processor.is_value_char c = true
  ↔ c ≠ "'"%char ∧ c ≠ Processor.dquote ∧ c ≠ " "%char ∧ c ≠ ">"%char.
Proof.
  unfold Processor.is_value_char, Processor.is_quote.
  rewrite negb_true_iff, !orb_false_iff.
  rewrite <- !not_true_iff_false, !Ascii.eqb_eq. tauto.
Qed.

End CaptureFacts.

(* ===================================================================== *)
(** ** Facts about [replace] and the output name *)
(* ===================================================================== *)

Module NameFacts.
Import Chars Str Shape Helper.

Lemma starts_with_spec p s : starts_with p s = true ↔ ∃ t, s = p ++ t.
Proof.
  revert s. induction p as [|a p IH]; intros s; simpl.
  - split; [by exists s|done].
  - destruct s as [|b s]; [split; [done|by intros [t ?]]|].
    rewrite andb_true_iff, Ascii.eqb_eq, IH. split.
    + intros [-> [t ->]]. by exists t.
    + intros [t [= -> ->]]. split; [done|by exists t].
Qed.

(** A character that the pattern does not have ends every attempt to match
    the pattern across it. *)
Lemma starts_with_stop p d a r :
  d ∉ p → starts_with p (a ++ d :: r) = starts_with p a || bool_decide (p = []).
Proof.
  revert a. induction p as [|x p IH]; intros a Hd; simpl.
  - by destruct a.
  - apply not_elem_of_cons in Hd as [Hx Hd]. destruct a as [|c a]; simpl.
    + destruct (Ascii.eqb_spec x d) as [->|_]; [done|done].
    + rewrite IH by done. destruct (Ascii.eqb x c); [|done]. simpl.
      destruct p; simpl; [by destruct a|by rewrite orb_false_r].
Qed.

Lemma replace_from_skip old new skip s :
  replace_from old new skip s = replace_from old new 0 (drop skip s).
Proof.
  revert s. induction skip as [|k IH]; intros s; [by rewrite drop_0|].
  destruct s as [|c s]; [done|]. simpl. apply IH.
Qed.

Lemma replace_hit old new t :
  old ≠ [] → replace old new (old ++ t) = new ++ replace old new t.
Proof.
  intros Hne. destruct old as [|x old]; [done|]. unfold replace. simpl.
  assert (starts_with old (old ++ t) = true) as -> by (apply starts_with_spec; by exists t).
  rewrite Ascii.eqb_refl. simpl. f_equal.
  rewrite replace_from_skip. by rewrite drop_app_length.
Qed.

Lemma replace_miss old new c s :
  starts_with old (c :: s) = false → replace old new (c :: s) = c :: replace old new s.
Proof. intros E. unfold replace. cbn [replace_from]. by rewrite E. Qed.

Lemma replace_nil old new : replace old new [] = [].
Proof. done. Qed.

Lemma length_replace old new n : ∀ s, length s ≤ n →
  length old = length new → old ≠ [] → length (replace old new s) = length s.
Proof.
  induction n as [n IH] using lt_wf_ind. intros [|c s] Hn Hlen Hne; [done|].
  destruct (starts_with old (c :: s)) eqn:E.
  - apply starts_with_spec in E as [t E]. rewrite E, replace_hit by done.
    rewrite !length_app, Hlen. f_equal.
    apply (IH (length t)); [|done|done|done].
    apply (f_equal length) in E. rewrite length_app in E. simpl in *.
    destruct old; [done|]. simpl in E. lia.
  - rewrite replace_miss by done. simpl. f_equal.
    apply (IH (length s)); [simpl in Hn; lia|done|done|done].
Qed.

(** A pattern with its first character nowhere else: an occurrence never
    runs across a later occurrence of that character. *)
Lemma replace_app_first x old new n : ∀ a r, length a ≤ n →
  x ∉ old →
  replace (x :: old) new (a ++ x :: r)
  = replace (x :: old) new a ++ replace (x :: old) new (x :: r).
Proof.
  induction n as [n IH] using lt_wf_ind. intros [|c a] r Hn Hx; [done|].
  destruct (starts_with (x :: old) (c :: a)) eqn:E.
  - apply starts_with_spec in E as [t E]. rewrite E.
    rewrite <- !app_assoc, !replace_hit by done. rewrite <- app_assoc. f_equal.
    apply (IH (length t)); [|done|done].
    apply (f_equal length) in E. rewrite length_app in E. simpl in *. lia.
  - rewrite (replace_miss _ _ c a) by done.
    change ((c :: a) ++ x :: r) with (c :: (a ++ x :: r)).
    rewrite replace_miss.
    + simpl. f_equal. apply (IH (length a)); [simpl in Hn; lia|done|done].
    + cbn [starts_with] in *. rewrite starts_with_stop by done.
      destruct (Ascii.eqb x c); [|done]. simpl in *. rewrite E. simpl.
      destruct old; [done|]. by rewrite bool_decide_eq_false_2.
Qed.

(** The replacement is invisible to a pattern without the first character
    of [old], when [new] starts with that character too. *)
Lemma starts_with_replace q x old new' s :
  x ∉ q →
  starts_with q (replace (x :: old) (x :: new') s) = starts_with q s.
Proof.
  intros Hx. revert s. induction q as [|a q IHq]; intros s; [done|].
  apply not_elem_of_cons in Hx as [Ha Hq].
  destruct s as [|c s]; [done|].
  destruct (starts_with (x :: old) (c :: s)) eqn:E.
  - apply starts_with_spec in E as [t E]. rewrite E, replace_hit by done.
    simpl. by destruct (Ascii.eqb_spec a x).
  - rewrite replace_miss by done. simpl. destruct (Ascii.eqb a c); [|done].
    simpl. by apply IHq.
Qed.

Lemma contains_cons old c s :
  contains old (c :: s) = starts_with old (c :: s) || contains old s.
Proof. done. Qed.

Lemma contains_spec old s : contains old s = true ↔ ∃ a b, s = a ++ old ++ b.
Proof.
  induction s as [|c s IH].
  - simpl. rewrite orb_false_r, starts_with_spec. split.
    + intros [t Ht]. by exists [], t.
    + intros (a & b & Hab). destruct a; [by exists b|done].
  - rewrite contains_cons, orb_true_iff, starts_with_spec, IH. split.
    + intros [[t Ht]|(a & b & ->)]; [by exists [], t|by exists (c :: a), b].
    + intros (a & b & Hab). destruct a as [|c' a]; [left; by exists b|].
      injection Hab as -> ->. right. by exists a, b.
Qed.

Lemma contains_json x : contains (L ".html") (L ".json" ++ x) = contains (L ".html") x.
Proof. done. Qed.

Lemma output_name_html t :
  Processor.output_name (L ".html" ++ t) = L ".json" ++ Processor.output_name t.
Proof. by apply replace_hit. Qed.

Lemma contains_output_name n : ∀ s, length s ≤ n →
  contains (L ".html") (Processor.output_name s) = false.
Proof.
  induction n as [n IH] using lt_wf_ind. intros [|c s] Hn; [done|].
  destruct (starts_with (L ".html") (c :: s)) eqn:E.
  - apply starts_with_spec in E as [t E]. rewrite E, output_name_html, contains_json.
    apply (IH (length t)); [|done].
    apply (f_equal length) in E. rewrite length_app in E. simpl in *. lia.
  - unfold Processor.output_name in *. rewrite replace_miss by done.
    rewrite contains_cons, orb_false_iff. split.
    + change (L ".html") with ("."%char :: L "html") in *.
      change (L ".json") with ("."%char :: L "json").
      cbn [starts_with] in *. rewrite starts_with_replace; [done|].
      apply (bool_decide_unpack _). reflexivity.
    + apply (IH (length s)); [simpl in Hn; lia|done].
Qed.

Lemma output_name_same s :
  contains (L ".html") s = false → Processor.output_name s = s.
Proof.
  induction s as [|c s IH]; [done|].
  rewrite contains_cons, orb_false_iff. intros [E Hs].
  unfold Processor.output_name in *. rewrite replace_miss by done. by rewrite IH.
Qed.

Lemma output_name_app_dot a r :
  Processor.output_name (a ++ "."%char :: r)
  = Processor.output_name a ++ Processor.output_name ("."%char :: r).
Proof.
  apply (replace_app_first "." (L "html") (L ".json") (length a)); [done|].
  apply (bool_decide_unpack _). reflexivity.
Qed.

End NameFacts.

(* ===================================================================== *)
(** ** Facts about the files that a batch writes *)
(* ===================================================================== *)

Module StoreFacts.
Import Chars Str Spec Shape Helper Processor.
Import BatchFacts.






Lemma writes_paths env items : ∀ i raw p,
  p ∈ (writes env i items raw).*1 →
  ∃ it, it ∈ items ∧ output_name (file it) = p.
Proof.
  induction items as [|it items IH]; intros i raw p Hp.
  { by apply elem_of_nil in Hp. }
  cbn [writes] in Hp. rewrite fmap_app, elem_of_app in Hp.
  destruct Hp as [Hp|Hp].
  - exists it. split; [by left|].
    destruct (raw !! file it); [|by apply elem_of_nil in Hp].
    destruct (env i); simpl in Hp.
    + by apply list_elem_of_singleton in Hp.
    + by apply elem_of_nil in Hp.
    + by apply list_elem_of_singleton in Hp.
  - destruct (IH _ _ _ Hp) as (it' & Hit & Heq). exists it'. split; [by right|done].
Qed.





End StoreFacts.

(* ===================================================================== *)
(** ** Facts about tokens *)
(* ===================================================================== *)

Module TokenFacts.
Import Chars Re Str Spec Aux Shape Helper.
Import ReFacts StrFacts AnalyzerFacts ReadabilityFacts BlockFacts WhitespaceFacts.

Lemma take_drop_run_stop p a d b :
  p d = false →
  take_run p (a ++ d :: b) = take_run p a
  ∧ drop_run p (a ++ d :: b) = drop_run p a ++ d :: b.
Proof.
  intros Hd. induction a as [|c a [IH1 IH2]]; simpl.
  - by rewrite Hd.
  - destruct (p c); [by rewrite IH1, IH2|done].
Qed.

(** A character outside the class separates the runs on its two sides. *)
Lemma runs_app_stop p d n : ∀ a b, length a ≤ n →
  p d = false → runs p (a ++ d :: b) = runs p a ++ runs p b.
Proof.
  induction n as [n IH] using lt_wf_ind. intros [|c a] b Hn Hd.
  { simpl. by rewrite runs_cons_out. }
  simpl in Hn. simpl app. destruct (p c) eqn:E.
  - rewrite !runs_cons_in by done.
    destruct (take_drop_run_stop p a d b Hd) as [-> ->].
    simpl. f_equal.
    apply (IH (length (drop_run p a))); [|done|done].
    pose proof (length_drop_run p a). lia.
  - rewrite !runs_cons_out by done. apply (IH (length a)); [lia|done|done].
Qed.

Lemma runs_whole p w :
  w ≠ [] → Forall (λ c, p c = true) w → runs p w = [w].
Proof.
  intros Hne Hw. rewrite <- (app_nil_r w) at 1. by rewrite runs_app_run.
Qed.

Lemma runs_join p ws :
  p " "%char = false →
  Forall (λ w, w ≠ [] ∧ Forall (λ c, p c = true) w) ws →
  runs p (join (L " ") ws) = ws.
Proof.
  intros Hsp. induction 1 as [|w ws [Hne Hw] Hws IH]; [done|].
  destruct ws as [|w2 ws].
  - simpl. by apply runs_whole.
  - rewrite join_cons2. change (L " " ++ ?x) with (" "%char :: x).
    rewrite (runs_app_stop p " " (length w)) by done.
    rewrite runs_whole by done. by rewrite IH.
Qed.

Lemma lower_alpha c :
  is_alpha (lower_char c) = true → is_lower_az (lower_char c) = true.
Proof.
  destruct c as [[] [] [] [] [] [] [] []]; vm_compute; intros;
    first [reflexivity|discriminate].
Qed.

Lemma lower_az_fixed c : is_lower_az c = true → lower_char c = c.
Proof.
  destruct c as [[] [] [] [] [] [] [] []]; vm_compute; intros;
    first [reflexivity|discriminate].
Qed.

Lemma lower_az_alpha c : is_lower_az c = true → is_alpha c = true.
Proof. unfold is_alpha. by intros ->. Qed.

Lemma lower_az_nonspace c : is_lower_az c = true → is_space c = false.
Proof.
  destruct c as [[] [] [] [] [] [] [] []]; vm_compute; intros;
    first [reflexivity|discriminate].
Qed.

Lemma is_word_lower c : is_word (lower_char c) = is_word c.
Proof. by destruct c as [[] [] [] [] [] [] [] []]. Qed.

Lemma lower_app a b : lower (a ++ b) = lower a ++ lower b.
Proof. apply map_app. Qed.

Lemma token_plain w : is_token w → is_plain_word w.
Proof.
  intros [Hne Hw]. split; [done|].
  eapply Forall_impl; [exact Hw|]. apply lower_az_nonspace.
Qed.

(** Every token is a non-empty string of the letters a to z. *)
Lemma tokenize_text_tokens text : Forall is_token (Analyzer.tokenize_text text).
Proof.
  unfold Analyzer.tokenize_text. rewrite findall_word. unfold letter_words.
  apply Forall_forall. intros r [Hin Hr]%list_elem_of_In%filter_In.
  apply list_elem_of_In in Hin.
  destruct (runs_elem is_word (length (lower text)) (lower text) r) as [Hne Hall];
    [done|done|].
  split; [done|]. unfold only_letters in Hr.
  apply Is_true_true, forallb_True in Hr.
  rewrite Forall_forall in Hall, Hr |- *. intros c Hc.
  destruct (Hall c Hc) as [_ Hlow].
  apply list_elem_of_fmap in Hlow as (c0 & -> & _).
  apply lower_alpha. by apply Is_true_true, Hr.
Qed.

Lemma lower_fixed s : Forall (λ c, lower_char c = c) s → lower s = s.
Proof. induction 1 as [|c s Hc _ IH]; [done|]. simpl. by rewrite Hc, IH. Qed.

Lemma Forall_join (P : ascii → Prop) sep ws :
  Forall P sep → Forall (Forall P) ws → Forall P (join sep ws).
Proof.
  intros Hsep. induction 1 as [|w ws Hw Hws IH]; [constructor|].
  destruct ws as [|w2 ws]; [done|].
  rewrite join_cons2. rewrite !Forall_app. auto.
Qed.

Lemma filter_only_letters ws :
  Forall is_token ws → List.filter only_letters ws = ws.
Proof.
  induction 1 as [|w ws [Hne Hw] _ IH]; [done|]. simpl.
  unfold only_letters at 1. rewrite forallb_Forall; [by rewrite IH|].
  eapply Forall_impl; [exact Hw|]. apply lower_az_alpha.
Qed.

(** Tokens joined by single spaces tokenize to themselves. *)
Lemma tokenize_text_join ws :
  Forall is_token ws → Analyzer.tokenize_text (join (L " ") ws) = ws.
Proof.
  intros Hws. unfold Analyzer.tokenize_text. rewrite findall_word.
  rewrite lower_fixed.
  - unfold letter_words. rewrite runs_join; [by apply filter_only_letters|done|].
    eapply Forall_impl; [exact Hws|]. intros w [Hne Hw]. split; [done|].
    eapply Forall_impl; [exact Hw|]. intros c Hc.
    by apply is_alpha_word, lower_az_alpha.
  - apply Forall_join; [by constructor|].
    eapply Forall_impl; [exact Hws|]. intros w [_ Hw].
    eapply Forall_impl; [exact Hw|]. apply lower_az_fixed.
Qed.

(** A character that is not a word character separates the tokens on its
    two sides. *)
Lemma tokenize_text_app d a b :
  is_word d = false →
  Analyzer.tokenize_text (a ++ d :: b)
  = Analyzer.tokenize_text a ++ Analyzer.tokenize_text b.
Proof.
  intros Hd. unfold Analyzer.tokenize_text. rewrite !findall_word.
  rewrite lower_app. simpl lower. unfold letter_words.
  rewrite (runs_app_stop is_word (lower_char d) (length (lower a)));
    [|done|by rewrite is_word_lower].
  apply List.filter_app.
Qed.

Lemma tokenize_text_nil : Analyzer.tokenize_text [] = [].
Proof. done. Qed.

Lemma tokenize_text_texts texts :
  Analyzer.tokenize_text (join (L " ") texts)
  = concat (map Analyzer.tokenize_text texts).
Proof.
  induction texts as [|t texts IH]; [done|].
  destruct texts as [|t2 texts].
  - simpl. by rewrite app_nil_r.
  - rewrite join_cons2. change (L " " ++ ?x) with (" "%char :: x).
    rewrite tokenize_text_app by done. by rewrite IH.
Qed.

End TokenFacts.

(* ===================================================================== *)
(** ** Facts about counters *)
(* ===================================================================== *)

Module CounterFacts.
Import Shape Helper Counter.

Lemma get_incr key c k :
  get (incr key c) k = if bool_decide (key = k) then S (get c k) else get c k.
Proof.
  induction c as [|[k0 n] c IH]; simpl.
  - by repeat case_bool_decide.
  - repeat case_bool_decide; simplify_eq; simpl;
      repeat case_bool_decide; simplify_eq; try done.
    all: rewrite IH; by repeat case_bool_decide.
Qed.

Lemma elem_of_keys_incr key c k : k ∈ (incr key c).*1 ↔ k = key ∨ k ∈ c.*1.
Proof.
  induction c as [|[k0 n] c IH]; simpl.
  - rewrite list_elem_of_singleton, elem_of_nil. tauto.
  - case_bool_decide; simplify_eq; simpl; rewrite !elem_of_cons.
    + tauto.
    + rewrite IH. tauto.
Qed.

Lemma keys_incr key c :
  (incr key c).*1 = if bool_decide (key ∈ c.*1) then c.*1 else c.*1 ++ [key].
Proof.
  induction c as [|[k0 n] c IH].
  - rewrite bool_decide_eq_false_2; [done|apply not_elem_of_nil].
  - cbn [incr]. destruct (decide (k0 = key)) as [->|Hk0].
    + rewrite bool_decide_eq_true_2 by done.
      rewrite bool_decide_eq_true_2; [done|by left].
    + rewrite bool_decide_eq_false_2 by done.
      rewrite fmap_cons, IH. destruct (decide (key ∈ c.*1)) as [Hin|Hin].
      * rewrite bool_decide_eq_true_2 by done.
        rewrite bool_decide_eq_true_2; [done|by right].
      * rewrite bool_decide_eq_false_2 by done.
        rewrite bool_decide_eq_false_2; [done|].
        apply not_elem_of_cons. by split.
Qed.

Lemma NoDup_incr key c : NoDup c.*1 → NoDup (incr key c).*1.
Proof.
  intros Hc. rewrite keys_incr. case_bool_decide as Hin; [done|].
  apply NoDup_app. split_and!; [done| |apply NoDup_singleton].
  intros x Hx ->%list_elem_of_singleton. done.
Qed.

Lemma positive_incr key c :
  Forall (λ kv, 0 < kv.2) c → Forall (λ kv, 0 < kv.2) (incr key c).
Proof.
  induction 1 as [|[k0 n] c Hn Hc IH]; simpl.
  - repeat constructor.
  - case_bool_decide; constructor; simpl in *; first [done|lia].
Qed.

Lemma sum_incr key c :
  Analyzer.sum_nat (incr key c).*2 = S (Analyzer.sum_nat c.*2).
Proof.
  induction c as [|[k0 n] c IH]; [done|]. cbn [incr].
  case_bool_decide; rewrite !fmap_cons; unfold Analyzer.sum_nat in *;
    cbn [foldr snd]; [done|]. rewrite IH. lia.
Qed.

Lemma update_snoc c keys key : update c (keys ++ [key]) = incr key (update c keys).
Proof. unfold update. by rewrite foldl_app. Qed.

Lemma update_app c a b : update c (a ++ b) = update (update c a) b.
Proof. unfold update. by rewrite foldl_app. Qed.

Lemma update_cons c key keys : update c (key :: keys) = update (incr key c) keys.
Proof. done. Qed.

Lemma count_of_cons x y l :
  count_of x (y :: l) = (if bool_decide (y = x) then 1 else 0) + count_of x l.
Proof. unfold count_of. simpl. by case_bool_decide. Qed.

Lemma count_of_app x a b : count_of x (a ++ b) = count_of x a + count_of x b.
Proof. unfold count_of. by rewrite List.filter_app, length_app. Qed.

Lemma count_of_pos x l : 0 < count_of x l ↔ x ∈ l.
Proof.
  induction l as [|y l IH].
  - split; [by intros ?%Nat.lt_irrefl|by intros ?%elem_of_nil].
  - rewrite count_of_cons, elem_of_cons. case_bool_decide; simplify_eq.
    + split; [by left|lia].
    + simpl. rewrite IH. split; [by right|]. by intros [->|?].
Qed.

Lemma get_update keys : ∀ c k, get (update c keys) k = get c k + count_of k keys.
Proof.
  induction keys as [|key keys IH]; intros c k.
  - unfold count_of. simpl. lia.
  - rewrite update_cons, IH, get_incr, count_of_cons.
    case_bool_decide; lia.
Qed.

Lemma elem_of_keys_update keys : ∀ c k,
  k ∈ (update c keys).*1 ↔ k ∈ c.*1 ∨ k ∈ keys.
Proof.
  induction keys as [|key keys IH]; intros c k.
  - simpl. rewrite elem_of_nil. tauto.
  - rewrite update_cons, IH, elem_of_keys_incr, elem_of_cons. tauto.
Qed.

Lemma NoDup_update keys : ∀ c, NoDup c.*1 → NoDup (update c keys).*1.
Proof.
  induction keys as [|key keys IH]; intros c Hc; [done|].
  rewrite update_cons. by apply IH, NoDup_incr.
Qed.

Lemma positive_update keys : ∀ c,
  Forall (λ kv, 0 < kv.2) c → Forall (λ kv, 0 < kv.2) (update c keys).
Proof.
  induction keys as [|key keys IH]; intros c Hc; [done|].
  rewrite update_cons. by apply IH, positive_incr.
Qed.

Lemma sum_update keys : ∀ c,
  Analyzer.sum_nat (update c keys).*2 = Analyzer.sum_nat c.*2 + length keys.
Proof.
  induction keys as [|key keys IH]; intros c; [simpl; lia|].
  rewrite update_cons, IH, sum_incr. simpl. lia.
Qed.

Lemma get_elem c k n : NoDup c.*1 → (k, n) ∈ c → get c k = n.
Proof.
  induction c as [|[k0 n0] c IH]; intros Hnd Hin.
  { by apply elem_of_nil in Hin. }
  simpl in *. apply NoDup_cons in Hnd as [Hk0 Hnd].
  apply elem_of_cons in Hin as [[= -> ->]|Hin].
  - by rewrite bool_decide_eq_true_2.
  - rewrite bool_decide_eq_false_2; [by apply IH|].
    intros ->. apply Hk0. apply list_elem_of_fmap. by exists (k, n).
Qed.

(** The counter of a list of keys: one item for each distinct key, with
    the number of its occurrences. *)
Lemma counter_items keys k n :
  (k, n) ∈ update [] keys → n = count_of k keys ∧ 0 < n ∧ k ∈ keys.
Proof.
  intros Hin.
  assert (Hget : get (update [] keys) k = n).
  { apply get_elem; [|done]. apply NoDup_update. constructor. }
  rewrite get_update in Hget. simpl in Hget. subst n.
  assert (k ∈ keys) as Hk.
  { assert (k ∈ (update [] keys).*1) as Hk.
    { apply list_elem_of_fmap. by exists (k, count_of k keys). }
    apply elem_of_keys_update in Hk as [Hk|Hk]; [by apply elem_of_nil in Hk|done]. }
  split_and!; [done| |done]. by apply count_of_pos.
Qed.

Lemma length_counter keys :
  length (update [] keys) = size (Analyzer.to_set keys).
Proof.
  rewrite <- (length_fmap fst).
  rewrite <- (size_list_to_set (C := gset str) (update [] keys).*1).
  - f_equal. apply set_eq. intros k. unfold Analyzer.to_set.
    rewrite !elem_of_list_to_set, elem_of_keys_update, elem_of_nil. tauto.
  - apply NoDup_update. constructor.
Qed.

(** *** Sorting by count *)

Lemma insert_by_count_perm x l : insert_by_count x l ≡ₚ x :: l.
Proof.
  induction l as [|y l IH]; simpl; [done|].
  destruct (x.2 <? y.2); [|done]. rewrite IH. apply Permutation_swap.
Qed.

Lemma by_count_perm c : by_count c ≡ₚ c.
Proof.
  induction c as [|x c IH]; simpl; [done|].
  by rewrite insert_by_count_perm, IH.
Qed.

Lemma insert_by_count_sorted x l :
  StronglySorted desc l → StronglySorted desc (insert_by_count x l).
Proof.
  induction 1 as [|y l Hl IH Hy]; simpl.
  - repeat constructor.
  - destruct (x.2 <? y.2) eqn:E.
    + apply Nat.ltb_lt in E. constructor; [done|].
      rewrite insert_by_count_perm. constructor; [unfold desc; lia|done].
    + apply Nat.ltb_ge in E. constructor; [by constructor|].
      constructor; [done|]. eapply Forall_impl; [exact Hy|].
      unfold desc. intros z ?. lia.
Qed.

Lemma by_count_sorted c : StronglySorted desc (by_count c).
Proof.
  induction c as [|x c IH]; simpl; [constructor|].
  by apply insert_by_count_sorted.
Qed.

(** The sort is stable: the items of one count keep their order. *)
Lemma insert_by_count_stable n x l :
  List.filter (λ kv, kv.2 =? n) (insert_by_count x l)
  = List.filter (λ kv, kv.2 =? n) (x :: l).
Proof.
  induction l as [|y l IH]; [done|]. cbn [insert_by_count].
  destruct (x.2 <? y.2) eqn:E; [|done].
  apply Nat.ltb_lt in E. cbn [List.filter] in *. rewrite IH.
  destruct (x.2 =? n) eqn:Ex, (y.2 =? n) eqn:Ey; try done.
  apply Nat.eqb_eq in Ex, Ey. lia.
Qed.

Lemma by_count_stable n c :
  List.filter (λ kv, kv.2 =? n) (by_count c) = List.filter (λ kv, kv.2 =? n) c.
Proof.
  induction c as [|x c IH]; [done|]. cbn [by_count foldr].
  rewrite insert_by_count_stable. cbn [List.filter]. fold (by_count c).
  by rewrite IH.
Qed.

Lemma length_most_common n c : length (most_common n c) = n `min` length c.
Proof. unfold most_common. by rewrite length_take, (Permutation_length (by_count_perm c)). Qed.

Lemma most_common_subset n c x : x ∈ most_common n c → x ∈ c.
Proof.
  unfold most_common. intros Hx%elem_of_take. destruct Hx as (i & Hi & _).
  rewrite <- (by_count_perm c). by eapply list_elem_of_lookup_2.
Qed.

Lemma most_common_NoDup n c : NoDup c.*1 → NoDup (most_common n c).*1.
Proof.
  intros Hc. unfold most_common. rewrite fmap_take.
  eapply sublist_NoDup; [|apply sublist_take]. by rewrite (by_count_perm c).
Qed.

Lemma sorted_descending l :
  StronglySorted desc l → descending l.*2.
Proof.
  intros Hl i j a b Hij Hi Hj.
  rewrite list_lookup_fmap in Hi, Hj.
  destruct (l !! i) as [x|] eqn:Ex; [|done].
  destruct (l !! j) as [y|] eqn:Ey; [|done].
  simpl in *. simplify_eq.
  destruct (decide (i = j)) as [->|Hne]; [by simplify_eq|].
  assert (i < j) as Hlt by lia.
  rewrite <- (take_drop j l) in Hl.
  apply (StronglySorted_app_1_elem_of desc _ _ x y Hl).
  - apply elem_of_take. by exists i.
  - apply list_elem_of_lookup. exists 0. by rewrite lookup_drop, Nat.add_0_r.
Qed.

Lemma most_common_descending n c : descending (most_common n c).*2.
Proof.
  apply sorted_descending. unfold most_common.
  pose proof (by_count_sorted c) as Hs.
  rewrite <- (take_drop n (by_count c)) in Hs.
  by apply StronglySorted_app_1_l in Hs.
Qed.

(** What [most_common] leaves out is counted at most as often as what it
    keeps. *)
Lemma most_common_cut n c x y :
  x ∈ most_common n c → y ∈ c → y ∉ most_common n c → y.2 ≤ x.2.
Proof.
  unfold most_common. intros Hx Hy Hout.
  rewrite <- (by_count_perm c), <- (take_drop n (by_count c)) in Hy.
  apply elem_of_app in Hy as [Hy|Hy]; [done|].
  pose proof (by_count_sorted c) as Hs.
  rewrite <- (take_drop n (by_count c)) in Hs.
  apply (StronglySorted_app_1_elem_of desc _ _ x y Hs Hx Hy).
Qed.

End CounterFacts.

(* ===================================================================== *)
(** ** Facts about the corpus, its counters and the n-grams *)
(* ===================================================================== *)

Module AnalysisFacts.
Import Chars Str Spec Shape Helper Analyzer.
Import CorpusFacts CounterFacts TokenFacts WhitespaceFacts.

Lemma loaded_words w f d : loaded w f = Some d →
  ∃ text, load_text w (Processor.output_file f) = Some text
          ∧ Processor.is_success (Processor.status f) = true
          ∧ filename d = Processor.output_file f
          ∧ words d = tokenize_text text
          ∧ doc_word_count d = length (words d).
Proof.
  unfold loaded. destruct (Processor.is_success _); [|done].
  destruct (load_text w _) as [text|]; [|done]. simpl. intros [= <-].
  by exists text.
Qed.

Lemma analyze_one_loaded w c f :
  analyze_one w c f =
  match loaded w f, load_text w (Processor.output_file f) with
  | Some d, Some text =>
      {| all_words := all_words c ++ words d;
         all_texts := all_texts c ++ [text];
         documents_data := documents_data c ++ [d] |}
  | _, _ => c
  end.
Proof.
  unfold analyze_one, loaded. destruct (Processor.is_success _); [|done].
  by destruct (load_text w _).
Qed.

Lemma foldl_analyze_one_words w files : ∀ c,
  all_words (foldl (analyze_one w) c files)
  = all_words c ++ concat (map words (omap (loaded w) files)).
Proof.
  induction files as [|f files IH]; intros c; simpl.
  - by rewrite app_nil_r.
  - rewrite IH, analyze_one_loaded.
    destruct (loaded w f) as [d|] eqn:E; [|done].
    destruct (loaded_words w f d E) as (text & -> & _). simpl.
    by rewrite <- app_assoc.
Qed.

Lemma foldl_analyze_one_texts w files : ∀ c,
  map tokenize_text (all_texts (foldl (analyze_one w) c files))
  = map tokenize_text (all_texts c) ++ map words (omap (loaded w) files).
Proof.
  induction files as [|f files IH]; intros c; simpl.
  - by rewrite app_nil_r.
  - rewrite IH, analyze_one_loaded.
    destruct (loaded w f) as [d|] eqn:E; [|done].
    destruct (loaded_words w f d E) as (text & -> & _ & _ & Hw & _). simpl.
    by rewrite map_app, <- app_assoc, Hw.
Qed.

Lemma analyze_corpus_words w files :
  all_words (analyze_corpus w files)
  = concat (map words (documents_data (analyze_corpus w files))).
Proof.
  rewrite analyze_corpus_documents. unfold analyze_corpus.
  by rewrite foldl_analyze_one_words.
Qed.

Lemma analyze_corpus_texts w files :
  map tokenize_text (all_texts (analyze_corpus w files))
  = map words (documents_data (analyze_corpus w files)).
Proof.
  rewrite analyze_corpus_documents. unfold analyze_corpus.
  by rewrite foldl_analyze_one_texts.
Qed.

Lemma documents_word_count w files :
  Forall (λ d, doc_word_count d = length (words d))
         (documents_data (analyze_corpus w files)).
Proof.
  rewrite analyze_corpus_documents. apply Forall_forall.
  intros d (f & _ & Hf)%list_elem_of_omap.
  by destruct (loaded_words w f d Hf) as (text & _ & _ & _ & _ & ?).
Qed.

Lemma length_concat_sum {A} (ls : list (list A)) :
  length (concat ls) = sum_nat (map length ls).
Proof. induction ls as [|l ls IH]; [done|]. simpl. by rewrite length_app, IH. Qed.

(** *** The counters *)

Lemma count_one_loaded w f file_info :
  Ranked.count_one w f file_info =
  match loaded w file_info with
  | Some d =>
      {| Ranked.word_frequency := Counter.update (Ranked.word_frequency f) (words d);
         Ranked.bigram_frequency :=
           Counter.update (Ranked.bigram_frequency f) (extract_ngrams (words d) 2);
         Ranked.trigram_frequency :=
           Counter.update (Ranked.trigram_frequency f) (extract_ngrams (words d) 3) |}
  | None => f
  end.
Proof.
  unfold Ranked.count_one, loaded. destruct (Processor.is_success _); [|done].
  by destruct (load_text w _).
Qed.

Lemma foldl_count_one w files : ∀ f,
  let docs := omap (loaded w) files in
  Ranked.word_frequency (foldl (Ranked.count_one w) f files)
  = Counter.update (Ranked.word_frequency f) (concat (map words docs))
  ∧ Ranked.bigram_frequency (foldl (Ranked.count_one w) f files)
    = Counter.update (Ranked.bigram_frequency f)
        (concat (map (λ d, extract_ngrams (words d) 2) docs))
  ∧ Ranked.trigram_frequency (foldl (Ranked.count_one w) f files)
    = Counter.update (Ranked.trigram_frequency f)
        (concat (map (λ d, extract_ngrams (words d) 3) docs)).
Proof.
  induction files as [|file_info files IH]; intros f; [done|].
  cbn [foldl]. destruct (IH (Ranked.count_one w f file_info)) as (H1 & H2 & H3).
  rewrite H1, H2, H3. rewrite count_one_loaded. csimpl.
  destruct (loaded w file_info) as [d|]; [|done].
  cbn [map concat]. by rewrite !update_app.
Qed.

Lemma word_frequency_corpus w files :
  Ranked.word_frequency (Ranked.analyze_corpus w files)
  = Counter.update [] (all_words (analyze_corpus w files)).
Proof.
  unfold Ranked.analyze_corpus.
  destruct (foldl_count_one w files
              {| Ranked.word_frequency := []; Ranked.bigram_frequency := [];
                 Ranked.trigram_frequency := [] |}) as (-> & _).
  rewrite analyze_corpus_words, analyze_corpus_documents. done.
Qed.

Lemma bigram_frequency_corpus w files :
  Ranked.bigram_frequency (Ranked.analyze_corpus w files)
  = Counter.update []
      (concat (map (λ d, extract_ngrams (words d) 2)
                   (documents_data (analyze_corpus w files)))).
Proof.
  unfold Ranked.analyze_corpus.
  destruct (foldl_count_one w files
              {| Ranked.word_frequency := []; Ranked.bigram_frequency := [];
                 Ranked.trigram_frequency := [] |}) as (_ & -> & _).
  by rewrite analyze_corpus_documents.
Qed.

(** *** The n-grams *)

Lemma length_extract_ngrams ws n :
  length (extract_ngrams ws n) = length ws + 1 - n.
Proof.
  unfold extract_ngrams. destruct (length ws <? n) eqn:E.
  - apply Nat.ltb_lt in E. simpl. lia.
  - apply Nat.ltb_ge in E. rewrite length_map, length_seq. lia.
Qed.

Lemma lookup_extract_ngrams ws n i :
  i + n ≤ length ws →
  extract_ngrams ws n !! i = Some (join (L " ") (take n (drop i ws)))
  ∧ length (take n (drop i ws)) = n.
Proof.
  intros Hi. unfold extract_ngrams.
  assert ((length ws <? n) = false) as -> by (apply Nat.ltb_ge; lia).
  split.
  - rewrite list_lookup_fmap, lookup_seq_lt by lia. done.
  - rewrite length_take, length_drop. lia.
Qed.

Lemma extract_ngrams_short ws n : length ws < n → extract_ngrams ws n = [].
Proof. intros H. unfold extract_ngrams. by apply Nat.ltb_lt in H as ->. Qed.

Lemma elem_of_extract_ngrams ws n g :
  g ∈ extract_ngrams ws n →
  ∃ i, i + n ≤ length ws ∧ g = join (L " ") (take n (drop i ws)).
Proof.
  unfold extract_ngrams. destruct (length ws <? n) eqn:E.
  { by intros ?%elem_of_nil. }
  apply Nat.ltb_ge in E.
  intros Hg. apply list_elem_of_fmap in Hg as (i & -> & Hi).
  apply elem_of_seq in Hi. exists i. split; [lia|done].
Qed.

End AnalysisFacts.

(* ===================================================================== *)
(** ** Facts about ratios, rounding and the similarity *)
(* ===================================================================== *)

Module MetricFacts.
Import Chars Str Spec Shape Helper Analyzer.
Import ReadabilityFacts SimilarityFacts CorpusFacts.

Local Open Scope Q_scope.

Lemma inject_nat_nonneg (n : nat) : 0 <= inject_Z (Z.of_nat n).
Proof. change 0 with (inject_Z 0). rewrite <- Zle_Qle. lia. Qed.

Lemma inject_nat_pos (n : nat) : (0 < n)%nat → 0 < inject_Z (Z.of_nat n).
Proof. intros H. change 0 with (inject_Z 0). rewrite <- Zlt_Qlt. lia. Qed.

Lemma ratio_nonneg a b : (0 < b)%nat → 0 <= Num.ratio a b.
Proof.
  intros Hb. unfold Num.ratio. apply Qle_shift_div_l; [by apply inject_nat_pos|].
  rewrite Qmult_0_l. apply inject_nat_nonneg.
Qed.

Lemma ratio_le_1 a b : (a ≤ b)%nat → (0 < b)%nat → Num.ratio a b <= 1.
Proof.
  intros Hab Hb. unfold Num.ratio. apply Qle_shift_div_r; [by apply inject_nat_pos|].
  rewrite Qmult_1_l. rewrite <- Zle_Qle. lia.
Qed.

Lemma ratio_eq_1 a b : (0 < b)%nat → Num.ratio a b == 1 → a = b.
Proof.
  intros Hb H. unfold Num.ratio in H.
  assert (Hb' : ¬ inject_Z (Z.of_nat b) == 0).
  { intros E. pose proof (inject_nat_pos b Hb) as Hp. rewrite E in Hp.
    by apply Qlt_irrefl in Hp. }
  apply (Qmult_inj_r _ _ (inject_Z (Z.of_nat b)) Hb') in H.
  rewrite Qmult_1_l in H. unfold Qdiv in H.
  rewrite <- Qmult_assoc, (Qmult_comm (/ _)), Qmult_inv_r, Qmult_1_r in H by done.
  rewrite inject_Z_injective in H. lia.
Qed.

Lemma ratio_eq_0 a b : (0 < b)%nat → Num.ratio a b == 0 → a = 0%nat.
Proof.
  intros Hb H. unfold Num.ratio in H.
  assert (Hb' : ¬ inject_Z (Z.of_nat b) == 0).
  { intros E. pose proof (inject_nat_pos b Hb) as Hp. rewrite E in Hp.
    by apply Qlt_irrefl in Hp. }
  apply (Qmult_inj_r _ _ (inject_Z (Z.of_nat b)) Hb') in H.
  rewrite Qmult_0_l in H. unfold Qdiv in H.
  rewrite <- Qmult_assoc, (Qmult_comm (/ _)), Qmult_inv_r, Qmult_1_r in H by done.
  change 0 with (inject_Z 0) in H. rewrite inject_Z_injective in H. lia.
Qed.

Lemma jaccard_unfold a b :
  to_set a ∪ to_set b ≠ ∅ →
  jaccard_similarity a b
  = Num.ratio (size (to_set a ∩ to_set b)) (size (to_set a ∪ to_set b)).
Proof. intros H. unfold jaccard_similarity. by rewrite bool_decide_eq_false_2. Qed.

Lemma inter_size_le (X Y : gset str) : (size (X ∩ Y) ≤ size (X ∪ Y))%nat.
Proof.
  apply subseteq_size. intros x [Hx _]%elem_of_intersection.
  apply elem_of_union. by left.
Qed.

Lemma jaccard_range a b :
  0 <= jaccard_similarity a b ∧ jaccard_similarity a b <= 1.
Proof.
  destruct (decide (to_set a ∪ to_set b = ∅)) as [E|E].
  - rewrite jaccard_empty by done. split; [apply Qle_refl|discriminate].
  - rewrite jaccard_unfold by done.
    pose proof (size_pos_gset _ E). split.
    + by apply ratio_nonneg.
    + apply ratio_le_1; [apply inter_size_le|done].
Qed.

Lemma jaccard_one a b :
  jaccard_similarity a b == 1 ↔ to_set a = to_set b ∧ to_set a ≠ ∅.
Proof.
  split; [|intros [? ?]; by apply jaccard_same].
  intros H. destruct (decide (to_set a ∪ to_set b = ∅)) as [E|E].
  { rewrite jaccard_empty in H by done. discriminate H. }
  rewrite jaccard_unfold in H by done.
  apply ratio_eq_1 in H; [|by apply size_pos_gset].
  assert (to_set a ∩ to_set b = to_set a ∪ to_set b) as Heq.
  { apply set_subseteq_size_eq; [|lia].
    intros x [Hx _]%elem_of_intersection. apply elem_of_union. by left. }
  assert (Hall : ∀ x, x ∈ to_set a ∪ to_set b → x ∈ to_set a ∧ x ∈ to_set b).
  { intros x Hx. rewrite <- Heq in Hx. by apply elem_of_intersection in Hx. }
  split.
  - apply set_eq. intros x. split; intros Hx.
    + apply Hall, elem_of_union. by left.
    + apply Hall, elem_of_union. by right.
  - intros Ha. apply E. apply set_eq. intros x. split.
    + intros Hx. destruct (Hall x Hx) as [Hx' _]. by rewrite Ha in Hx'.
    + by intros ?%elem_of_empty.
Qed.

Lemma jaccard_zero a b :
  jaccard_similarity a b == 0 ↔ to_set a ∩ to_set b = ∅.
Proof.
  split; [|apply jaccard_disjoint].
  intros H. destruct (decide (to_set a ∪ to_set b = ∅)) as [E|E].
  { apply set_eq. intros x. split; [|by intros ?%elem_of_empty].
    intros [Hx _]%elem_of_intersection. rewrite <- E. apply elem_of_union. by left. }
  rewrite jaccard_unfold in H by done.
  apply ratio_eq_0 in H; [|by apply size_pos_gset].
  by apply size_empty_iff, leibniz_equiv in H.
Qed.

(** *** The entries of the similarity table *)

Lemma similarity_entries docs e :
  e ∈ calculate_document_similarities docs →
  ∃ i j d1 d2,
    (i < j)%nat ∧ docs !! i = Some d1 ∧ docs !! j = Some d2
    ∧ doc1 e = filename d1 ∧ doc2 e = filename d2
    ∧ similarity e
      = Num.round (Num.double (jaccard_similarity (words d1) (words d2))) 4.
Proof.
  unfold calculate_document_similarities.
  intros ([i j] & Hij & He)%list_elem_of_omap.
  apply elem_of_index_pairs in Hij as [Hlt _].
  unfold similarity_at in He. simpl in He.
  destruct (docs !! i) as [d1|] eqn:E1; [|done].
  destruct (docs !! j) as [d2|] eqn:E2; [|done].
  simpl in He. injection He as <-. by exists i, j, d1, d2.
Qed.

(** *** The order of the texts *)

Lemma sum_nat_perm l l' : l ≡ₚ l' → sum_nat l = sum_nat l'.
Proof.
  unfold sum_nat. induction 1; simpl; [done|congruence|lia|congruence].
Qed.

Lemma corpus_totals_perm texts texts' :
  texts ≡ₚ texts' → corpus_totals texts = corpus_totals texts'.
Proof.
  intros H. rewrite !corpus_totals_sum.
  f_equal; apply sum_nat_perm; by apply fmap_Permutation.
Qed.

End MetricFacts.

(* ===================================================================== *)
(** ** Facts about the two stages together *)
(* ===================================================================== *)

Module PipelineFacts.
Import Chars Str Spec Shape Helper.
Import BatchFacts CorpusFacts StoreFacts.

Lemma processor_main_unfold env fetch_results w :
  let run := Processor.process_all env 0 (success_items fetch_results) w in
  Processor.main env fetch_results w
  = ({| Processor.files_processed := length run.1;
        Processor.successful := Processor.count_status Processor.is_success run.1;
        Processor.failed := Processor.count_status Processor.is_failed run.1;
        Processor.results := run.1 |}, run.2).
Proof.
  unfold Processor.main, success_items.
  by destruct (Processor.process_all env 0 _ w).
Qed.


Lemma render_statistics source_file html :
  Processor.pd_statistics (Processor.render source_file html)
  = Processor.count_statistics (Processor.text_of (Processor.strip_html html)).
Proof.
  unfold Processor.render, Processor.text_of.
  by destruct (Processor.strip_html html) as [[t l] i].
Qed.





End PipelineFacts.

(* ===================================================================== *)
(** ** Facts about the tables of the report *)
(* ===================================================================== *)

Module ReportFacts.
Import Chars Str Spec Shape Helper Analyzer.
Import CorpusFacts CounterFacts TokenFacts AnalysisFacts MetricFacts.

Lemma foldl_analyze_one_filter w rs : ∀ c,
  foldl (analyze_one w) c
    (List.filter (λ r, Processor.is_success (Processor.status r)) rs)
  = foldl (analyze_one w) c rs.
Proof.
  induction rs as [|r rs IH]; intros c; [done|]. simpl.
  destruct (Processor.is_success (Processor.status r)) eqn:E; simpl.
  - apply IH.
  - rewrite IH. unfold analyze_one at 3. by rewrite E.
Qed.

Lemma analyze_corpus_filter w rs :
  analyze_corpus w (List.filter (λ r, Processor.is_success (Processor.status r)) rs)
  = analyze_corpus w rs.
Proof. apply foldl_analyze_one_filter. Qed.

Lemma foldl_count_one_filter w rs : ∀ f,
  foldl (Ranked.count_one w) f
    (List.filter (λ r, Processor.is_success (Processor.status r)) rs)
  = foldl (Ranked.count_one w) f rs.
Proof.
  induction rs as [|r rs IH]; intros f; [done|]. simpl.
  destruct (Processor.is_success (Processor.status r)) eqn:E; simpl.
  - apply IH.
  - rewrite IH. unfold Ranked.count_one at 3. by rewrite E.
Qed.

Lemma ranked_corpus_filter w rs :
  Ranked.analyze_corpus w
    (List.filter (λ r, Processor.is_success (Processor.status r)) rs)
  = Ranked.analyze_corpus w rs.
Proof. apply foldl_count_one_filter. Qed.

Lemma ranked_main_unfold w rs tables :
  Ranked.main w rs = Some tables →
  tables =
  {| Ranked.unique_words :=
       length (Ranked.word_frequency (Ranked.analyze_corpus w rs));
     Ranked.report_top_100_words :=
       Ranked.top_100_words (Ranked.word_frequency (Ranked.analyze_corpus w rs))
         (length (all_words (analyze_corpus w rs)));
     Ranked.report_top_bigrams :=
       Ranked.top_bigrams (Ranked.bigram_frequency (Ranked.analyze_corpus w rs)) |}.
Proof.
  unfold Ranked.main. rewrite analyze_corpus_filter, ranked_corpus_filter.
  destruct (List.filter _ rs); [done|]. by intros [= <-].
Qed.

Lemma analyzer_main_unfold w rs report :
  main w rs = Some report →
  report =
  {| documents_processed :=
       length (List.filter (λ r, Processor.is_success (Processor.status r)) rs);
     report_total_words := length (all_words (analyze_corpus w rs));
     unique_words := size (to_set (all_words (analyze_corpus w rs)));
     document_similarity :=
       calculate_document_similarities (documents_data (analyze_corpus w rs));
     report_readability := calculate_readability_metrics (all_texts (analyze_corpus w rs)) |}.
Proof.
  unfold main. rewrite analyze_corpus_filter.
  destruct (List.filter _ rs) eqn:E; [done|]. by intros [= <-].
Qed.

Lemma count_of_le x l : count_of x l ≤ length l.
Proof. unfold count_of. apply List.filter_length_le. Qed.

Lemma length_le_sum (c : Counter.t) :
  Forall (λ kv, 0 < kv.2) c → length c ≤ sum_nat c.*2.
Proof.
  induction 1 as [|[k n] c Hn _ IH]; [done|].
  rewrite fmap_cons. unfold sum_nat in *. simpl in *. lia.
Qed.

Lemma size_to_set_le (l : list str) : size (to_set l) ≤ length l.
Proof.
  rewrite <- length_counter.
  pose proof (sum_update l []) as Hsum. simpl in Hsum. rewrite <- Hsum.
  apply length_le_sum, positive_update. constructor.
Qed.

(** The entries of a table read off a counter of the list [keys]. *)
Lemma most_common_items n keys k c :
  (k, c) ∈ Counter.most_common n (Counter.update [] keys) →
  c = count_of k keys ∧ 0 < c ∧ k ∈ keys.
Proof. intros H%most_common_subset. by apply counter_items. Qed.

Lemma most_common_left_out n keys k c key :
  (k, c) ∈ Counter.most_common n (Counter.update [] keys) →
  key ∈ keys → key ∉ (Counter.most_common n (Counter.update [] keys)).*1 →
  count_of key keys ≤ c.
Proof.
  intros Hin Hkey Hout.
  assert (Hitem : (key, count_of key keys) ∈ Counter.update [] keys).
  { assert (key ∈ (Counter.update [] keys).*1) as Hk.
    { apply elem_of_keys_update. by right. }
    apply list_elem_of_fmap in Hk as ([k' n'] & -> & Hk). simpl.
    by destruct (counter_items keys k' n' Hk) as (<- & _). }
  apply (most_common_cut n _ (k, c) (key, count_of key keys) Hin Hitem).
  intros H. apply Hout. apply list_elem_of_fmap. by exists (key, count_of key keys).
Qed.

Lemma bigram_of_words ws g :
  g ∈ extract_ngrams ws 2 →
  ∃ i w1 w2, ws !! i = Some w1 ∧ ws !! S i = Some w2 ∧ g = w1 ++ L " " ++ w2.
Proof.
  intros (i & Hi & ->)%elem_of_extract_ngrams.
  destruct (lookup_lt_is_Some_2 ws i) as [w1 H1]; [lia|].
  destruct (lookup_lt_is_Some_2 ws (S i)) as [w2 H2]; [lia|].
  exists i, w1, w2. split_and!; [done|done|].
  rewrite (drop_S _ _ _ H1), (drop_S _ _ _ H2). done.
Qed.

End ReportFacts.

(* ===================================================================== *)
(** ** Facts about sentences *)
(* ===================================================================== *)

Module SentenceFacts.
Import Chars Re Str Spec Aux Shape Helper.
Import ReFacts StrFacts ReadabilityFacts WhitespaceFacts TokenFacts.

Lemma split_from_skip_any rx a b prev cur :
  split_from rx prev (length a) cur (a ++ b)
  = split_from rx (prev_after prev a) 0 cur b.
Proof.
  destruct b as [|c b].
  - rewrite app_nil_r, split_from_skip_end. done.
  - by apply split_from_skip.
Qed.

Lemma stripped_nonblank_nil_cons pieces :
  Processor.stripped_nonblank ([] :: pieces) = Processor.stripped_nonblank pieces.
Proof. done. Qed.

Lemma drop_run_negb p s :
  runs (λ c, negb (p c)) (drop_run p s) = runs (λ c, negb (p c)) s.
Proof.
  induction s as [|c s IH]; [done|]. simpl.
  destruct (p c) eqn:E; [|done].
  by rewrite runs_cons_out by (by rewrite E).
Qed.

(** Splitting at the runs of one class leaves the runs of the other
    characters, and empty pieces, which the filter drops. *)
Lemma split_from_runs p n : ∀ s prev cur, length s ≤ n →
  Processor.stripped_nonblank (split_from [cls p Plus] prev 0 cur s)
  = Processor.stripped_nonblank (runs_from (λ c, negb (p c)) cur s).
Proof.
  induction n as [n IH] using lt_wf_ind. intros [|c s] prev cur Hn.
  { simpl. by destruct cur. }
  simpl in Hn. pose proof (match_at_run false p prev (c :: s)) as Hm.
  cbv beta iota in Hm. unfold cls in *.
  cbn [split_from runs_from]. rewrite Hm. destruct (p c) eqn:E; cbn [negb].
  - rewrite whole_pushes. cbn [take_run]. rewrite E. cbn [app whole].
    rewrite app_nil_r.
    pose proof (split_from_skip_any [Rep false p Plus] (take_run p s) (drop_run p s)
                  (Some c) []) as Hskip.
    rewrite take_drop_run in Hskip. rewrite Hskip. clear Hskip.
    assert (Hrest : Processor.stripped_nonblank
                      (split_from [Rep false p Plus]
                         (prev_after (Some c) (take_run p s)) 0 [] (drop_run p s))
                    = Processor.stripped_nonblank (runs (λ c, negb (p c)) s)).
    { rewrite (IH (length (drop_run p s))); [|pose proof (length_drop_run p s); lia|done].
      fold (runs (λ c, negb (p c)) (drop_run p s)). by rewrite drop_run_negb. }
    destruct cur as [|d cur].
    + change (reverse []) with (@nil ascii).
      by rewrite stripped_nonblank_nil_cons, Hrest.
    + unfold Processor.stripped_nonblank in *. cbn [List.filter].
      destruct (Processor.nonblank (reverse (d :: cur))); cbn [map]; by rewrite Hrest.
  - apply (IH (length s)); [lia|done].
Qed.

Lemma split_runs p s :
  Processor.stripped_nonblank (split [cls p Plus] s)
  = Processor.stripped_nonblank (runs (λ c, negb (p c)) s).
Proof. by apply (split_from_runs p (length s)). Qed.

Lemma runs_cover p n : ∀ s c, length s ≤ n →
  c ∈ s → p c = true → ∃ r, r ∈ runs p s ∧ c ∈ r.
Proof.
  induction n as [n IH] using lt_wf_ind. intros [|d s] c Hn Hc Hp.
  { by apply elem_of_nil in Hc. }
  simpl in Hn. destruct (p d) eqn:E.
  - rewrite runs_cons_in by done.
    rewrite <- (take_drop_run p s) in Hc.
    rewrite app_comm_cons, elem_of_app in Hc. destruct Hc as [Hc|Hc].
    + eexists. split; [by left|done].
    + destruct (IH (length (drop_run p s))) with (s := drop_run p s) (c := c)
        as (r & Hr & Hin); [pose proof (length_drop_run p s); lia|done|done|done|].
      exists r. split; [by right|done].
  - rewrite runs_cons_out by done.
    apply elem_of_cons in Hc as [->|Hc]; [congruence|].
    apply (IH (length s)); [lia|done|done|done].
Qed.

Lemma length_stripped_nonblank pieces :
  length (Processor.stripped_nonblank pieces)
  = length (List.filter Processor.nonblank pieces).
Proof. unfold Processor.stripped_nonblank. by rewrite length_map. Qed.

Lemma filter_nonblank_nil pieces :
  List.filter Processor.nonblank pieces = []
  ↔ Forall (Forall (λ c, is_space c = true)) pieces.
Proof.
  induction pieces as [|p pieces IH]; [by split; [constructor|]|].
  cbn [List.filter]. destruct (Processor.nonblank p) eqn:E.
  - split; [done|]. intros [Hp _]%Forall_cons.
    unfold Processor.nonblank in E. by rewrite (strip_all_spaces p Hp) in E.
  - rewrite IH, Forall_cons. split; [|by intros [_ ?]]. intros H. split; [|done].
    apply Forall_forall. intros c Hc. destruct (is_space c) eqn:Ec; [done|].
    by rewrite (nonblank_elem p c Hc Ec) in E.
Qed.


End SentenceFacts.

(* ===================================================================== *)
(** ** Facts about the ranges of the readability metrics *)
(* ===================================================================== *)

Module RangeFacts.
Import Chars Re Str Spec Aux Shape Helper Analyzer.
Import ReFacts ReadabilityFacts SimilarityFacts TokenFacts MetricFacts SentenceFacts.

Local Open Scope Q_scope.












End RangeFacts.

(* ===================================================================== *)
(** ** Facts about the records of the Processor *)
(* ===================================================================== *)

Module RecordFacts.
Import Chars Str Spec Shape Helper Processor.
Import BatchFacts PipelineFacts.

Lemma basename_from_no_slash cur path :
  "/"%char ∉ path → basename_from cur path = reverse cur ++ path.
Proof.
  revert cur. induction path as [|c path IH]; intros cur Hp; simpl.
  - by rewrite app_nil_r.
  - apply not_elem_of_cons in Hp as [Hc Hp].
    destruct (Ascii.eqb_spec c "/") as [->|_]; [done|].
    rewrite IH by done. rewrite reverse_cons, <- app_assoc. done.
Qed.

Lemma basename_from_slash cur a b :
  basename_from cur (a ++ "/"%char :: b) = basename b.
Proof.
  revert cur. induction a as [|c a IH]; intros cur; simpl; [done|].
  by destruct (Ascii.eqb c "/").
Qed.

Lemma basename_no_slash path : "/"%char ∉ path → basename path = path.
Proof. apply basename_from_no_slash. Qed.

Lemma basename_slash a b : basename (a ++ "/"%char :: b) = basename b.
Proof. apply basename_from_slash. Qed.

(** The base name is what follows the last slash. *)
Lemma basename_from_spec path : ∀ cur,
  "/"%char ∉ cur →
  ("/"%char ∉ basename_from cur path)
  ∧ (basename_from cur path = reverse cur ++ path
     ∨ ∃ a, reverse cur ++ path = a ++ "/"%char :: basename_from cur path).
Proof.
  induction path as [|c path IH]; intros cur Hcur; simpl.
  - split; [by rewrite elem_of_reverse|]. left. by rewrite app_nil_r.
  - destruct (Ascii.eqb_spec c "/") as [->|Hc].
    + destruct (IH [] (not_elem_of_nil _)) as [H1 H2]. split; [done|]. right.
      destruct H2 as [H2|[a H2]].
      * exists (reverse cur). by rewrite H2.
      * exists (reverse cur ++ "/"%char :: a). simpl in H2.
        rewrite <- app_assoc. simpl. by rewrite <- H2.
    + destruct (IH (c :: cur)) as [H1 H2].
      { apply not_elem_of_cons. by split. }
      split; [done|]. rewrite reverse_cons, <- app_assoc in H2. done.
Qed.

Lemma basename_spec path :
  ("/"%char ∉ basename path)
  ∧ (basename path = path ∨ ∃ a, path = a ++ "/"%char :: basename path).
Proof. apply (basename_from_spec path []), not_elem_of_nil. Qed.

Lemma render_source_file source_file html :
  pd_source_file (render source_file html) = basename source_file.
Proof.
  unfold render. destruct (strip_html html) as [[t l] i].
  cbn [pd_source_file].
  change (L "/shared/raw/" ++ source_file)
    with (L "/shared/raw" ++ "/"%char :: source_file).
  apply basename_slash.
Qed.

Lemma render_links source_file html :
  pd_links (render source_file html) = links_of (strip_html html)
  ∧ pd_images (render source_file html) = images_of (strip_html html).
Proof.
  unfold render, links_of, images_of. by destruct (strip_html html) as [[t l] i].
Qed.

Lemma process_item_counts env i it w :
  counts (process_item env i it w).1 =
  match raw_dir w !! file it, env i with
  | Some html, WriteOk =>
      Some (word_count (count_statistics (text_of (strip_html html))),
            length (links_of (strip_html html)),
            length (images_of (strip_html html)))
  | _, _ => None
  end.
Proof.
  unfold process_item, process_html_file.
  destruct (raw_dir w !! file it) as [html|]; [|done].
  destruct (env i); [|done|done]. cbn [fst counts].
  rewrite render_statistics. by destruct (render_links (file it) html) as [-> ->].
Qed.

End RecordFacts.

(* ===================================================================== *)
(** ** Facts about the wait loop and records of any shape *)
(* ===================================================================== *)

Module CheckedFacts.
Import Chars Str Spec Shape Helper.
Import BatchFacts PipelineFacts.

Lemma wait_some e fuel : ∀ k n,
  Checked.wait e k fuel = Some n
  ↔ k ≤ n ∧ n < k + fuel ∧ e n = true ∧ ∀ j, k ≤ j → j < n → e j = false.
Proof.
  induction fuel as [|fuel IH]; intros k n; simpl.
  - split; [done|lia].
  - destruct (e k) eqn:E.
    + split.
      * intros [= <-]. split_and!; [lia|lia|done|lia].
      * intros (Hk & _ & _ & Hfirst). f_equal.
        destruct (decide (k = n)) as [->|Hne]; [done|].
        rewrite (Hfirst k) in E; [done|lia|lia].
    + rewrite IH. split.
      * intros (Hk & Hn & Hen & Hfirst). split_and!; [lia|lia|done|].
        intros j Hj Hjn. destruct (decide (j = k)) as [->|Hne]; [done|].
        apply Hfirst; lia.
      * intros (Hk & Hn & Hen & Hfirst).
        assert (k ≠ n) by (intros ->; congruence).
        split_and!; [lia|lia|done|]. intros j Hj Hjn. apply Hfirst; lia.
Qed.

Lemma wait_none e fuel : ∀ k,
  Checked.wait e k fuel = None ↔ ∀ j, k ≤ j → j < k + fuel → e j = false.
Proof.
  induction fuel as [|fuel IH]; intros k; simpl.
  - split; [intros _ j; lia|done].
  - destruct (e k) eqn:E.
    + split; [done|]. intros H. rewrite (H k) in E; [done|lia|lia].
    + rewrite IH. split.
      * intros H j Hj Hjk. destruct (decide (j = k)) as [->|Hne]; [done|].
        apply H; lia.
      * intros H j Hj Hjk. apply H; lia.
Qed.

Lemma successful_files_raises results r :
  r ∈ results → Checked.status_is_success r = None →
  Checked.successful_files results = None.
Proof.
  induction results as [|r' results IH]; intros Hin Hr.
  { by apply elem_of_nil in Hin. }
  simpl. apply elem_of_cons in Hin as [<-|Hin].
  - by rewrite Hr.
  - rewrite (IH Hin Hr). by destruct (Checked.status_is_success r').
Qed.

Lemma successful_files_reads results fetch_results :
  Forall2 Checked.reads results fetch_results →
  ∃ items,
    Checked.successful_files results = Some items
    ∧ Forall2 (λ r it, Checked.source_name r = Some (Processor.file it))
              items (success_items fetch_results).
Proof.
  induction 1 as [|r it results fetch_results (fields & -> & Hs & Hf) _ (items & IH1 & IH2)].
  { by exists []. }
  cbn [Checked.successful_files Checked.status_is_success]. rewrite Hs, IH1.
  unfold success_items in *. cbn [List.filter].
  destruct (Processor.is_success (Processor.fetch_status it)).
  - eexists. split; [done|]. constructor; [|done].
    cbn [Checked.source_name]. by rewrite Hf.
  - by exists items.
Qed.

Lemma process_item_file env i it it' w :
  Processor.file it = Processor.file it' →
  Processor.process_item env i it w = Processor.process_item env i it' w.
Proof. unfold Processor.process_item. by intros ->. Qed.

Lemma process_all_checked env items its : ∀ i w,
  Forall2 (λ r it, Checked.source_name r = Some (Processor.file it)) items its →
  Checked.process_all env i items w
  = (Checked.Returned (Processor.process_all env i its w).1,
     (Processor.process_all env i its w).2).
Proof.
  intros i w H. revert i w.
  induction H as [|r it items its Hr _ IH]; intros i w; [done|].
  cbn [Checked.process_all]. rewrite Hr.
  rewrite (process_item_file env i _ it w) by done.
  rewrite process_all_cons.
  destruct (Processor.process_item env i it w) as [res w1]. cbn [fst snd].
  by rewrite IH.
Qed.

Lemma process_all_checked_raises env before bad after names : ∀ i w,
  Forall2 (λ r f, Checked.source_name r = Some f) before names →
  Checked.source_name bad = None →
  Checked.process_all env i (before ++ bad :: after) w
  = (Checked.Raised,
     (Processor.process_all env i (map Checked.item_of names) w).2).
Proof.
  intros i w H Hbad. revert i w.
  induction H as [|r f before names Hr _ IH]; intros i w.
  - simpl. by rewrite Hbad.
  - cbn [app Checked.process_all map]. rewrite Hr.
    rewrite process_all_cons. fold (Checked.item_of f).
    destruct (Processor.process_item env i (Checked.item_of f) w) as [res w1].
    cbn [fst snd]. by rewrite IH.
Qed.

End CheckedFacts.

(* ===================================================================== *)
(** ** Facts about cleaning a cleaned text *)
(* ===================================================================== *)

Module CleanFacts.
Import Chars Re Str Spec Aux Shape Helper.
Import ReFacts StrFacts ScanFacts ProcessorFacts BlockFacts WhitespaceFacts CaptureFacts.

Lemma reads_push d cap c r : d ∈ whole r → d ∈ whole (push cap c r).
Proof. intros H. simpl. by right. Qed.

Lemma reads_once_here d cap k : reads_char d (once cap (Ascii.eqb d) k).
Proof.
  intros prev s r (c & s' & r' & -> & Hc & Hr & ->)%once_inv.
  apply Ascii.eqb_eq in Hc as <-. simpl. by left.
Qed.

Lemma reads_once d cap p k : reads_char d k → reads_char d (once cap p k).
Proof.
  intros Hk prev s r (c & s' & r' & -> & Hc & Hr & ->)%once_inv.
  apply reads_push. by eapply Hk.
Qed.

Lemma reads_opt d cap p k : reads_char d k → reads_char d (opt cap p k).
Proof.
  intros Hk prev s r. unfold opt.
  destruct (once cap p k prev s) as [r'|] eqn:E.
  - intros [= <-]. by eapply reads_once.
  - apply Hk.
Qed.

Lemma reads_star d cap p k : reads_char d k → reads_char d (star cap p k).
Proof.
  intros Hk prev s. revert prev. induction s as [|c s IH]; intros prev r; simpl.
  - apply Hk.
  - destruct (p c); [|apply Hk].
    destruct (star cap p k (Some c) s) as [r'|] eqn:Es; [|apply Hk].
    intros [= <-]. apply reads_push. by eapply IH.
Qed.

Lemma reads_star_lazy d cap p k : reads_char d k → reads_char d (star_lazy cap p k).
Proof.
  intros Hk prev s. revert prev. induction s as [|c s IH]; intros prev r; simpl.
  - destruct (k prev []) eqn:E; [|done]. intros [= <-]. by eapply Hk.
  - destruct (k prev (c :: s)) eqn:E; [intros [= <-]; by eapply Hk|].
    destruct (p c); [|done].
    destruct (star_lazy cap p k (Some c) s) as [r'|] eqn:Es; [|done].
    intros [= <-]. apply reads_push. by eapply IH.
Qed.

Lemma reads_step d n k : reads_char d k → reads_char d (step n k).
Proof.
  intros Hk. destruct n as [cap p q|]; simpl.
  - destruct q.
    + by apply reads_once.
    + by apply reads_opt.
    + by apply reads_star.
    + by apply reads_once, reads_star.
    + by apply reads_star_lazy.
  - intros prev s r. destruct (at_boundary prev s); [apply Hk|done].
Qed.

(** A pattern with the literal character [d] in it matches only texts
    that have [d]. *)
Lemma reads_match_at d pre post : reads_char d (match_at (pre ++ lit d :: post)).
Proof.
  induction pre as [|n pre IH]; simpl.
  - apply reads_once_here.
  - by apply reads_step.
Qed.

Lemma eq_nocase_lt c : eq_nocase "<" c = true → c = "<"%char.
Proof.
  destruct c as [[] [] [] [] [] [] [] []]; vm_compute; intros;
    first [reflexivity|discriminate].
Qed.

(** A match that starts with an opening bracket and a character other than
    the closing bracket, and has a closing bracket, starts where a tag
    opens. *)
Lemma opens_tag_of_match (k : cont) prev u r c1 c2 u' :
  sound k → reads_char ">" k →
  k prev u = Some r → u = c1 :: c2 :: u' →
  c1 = "<"%char → c2 ≠ ">"%char →
  (∃ w, whole r = c1 :: c2 :: w) →
  opens_tag u = true.
Proof.
  intros Hsound Hreads Hm -> -> Hc2 [w Hw].
  pose proof (Hsound _ _ _ Hm) as Hsplit. pose proof (Hreads _ _ _ Hm) as Hin.
  rewrite Hw in Hsplit, Hin. simpl in Hsplit. injection Hsplit as Hu'.
  apply elem_of_cons in Hin as [Hin|Hin]; [done|].
  apply elem_of_cons in Hin as [Hin|Hin]; [congruence|].
  simpl. rewrite (proj2 (Ascii.eqb_neq c2 ">") Hc2). simpl.
  apply existsb_eqb_elem. rewrite Hu'. apply elem_of_app. by left.
Qed.

Lemma match_at_block_opens name prev u r :
  match_at (rx_block (String "s" name)) prev u = Some r → opens_tag u = true.
Proof.
  intros Hm.
  assert (Hrx : rx_block (String "s" name)
                = lit_nocase "<" :: lit_nocase "s"
                  :: (text_nocase name ++ [cls (none_of ">") Star])
                  ++ lit ">" :: cls dot_all StarLazy
                  :: text_nocase ("</" ++ String "s" name ++ ">")).
  { unfold rx_block.
    change (text_nocase ("<" +:+ String "s" name))
      with (lit_nocase "<" :: lit_nocase "s" :: text_nocase name).
    cbn [app]. by rewrite <- app_assoc. }
  pose proof Hm as Hm'. rewrite Hrx in Hm'. cbn [match_at foldr step lit_nocase] in Hm'.
  apply once_inv in Hm' as (c1 & s1 & r1 & Hu & Hc1 & Hm1 & Hr).
  apply once_inv in Hm1 as (c2 & s2 & r2 & Hs1 & Hc2 & Hm2 & Hr1).
  eapply (opens_tag_of_match (match_at (rx_block (String "s" name))) prev u r c1 c2 s2).
  - apply sound_match_at.
  - rewrite Hrx.
    apply (reads_match_at ">"
             (lit_nocase "<" :: lit_nocase "s"
                :: (text_nocase name ++ [cls (none_of ">") Star]))).
  - exact Hm.
  - by rewrite Hu, Hs1.
  - by apply eq_nocase_lt.
  - intros ->. discriminate Hc2.
  - exists (whole r2). by rewrite Hr, Hr1.
Qed.

Lemma match_at_tag_hit prev u r :
  match_at Processor.rx_tag prev u = Some r → opens_tag u = true.
Proof.
  intros Hm. pose proof Hm as Hm'.
  unfold Processor.rx_tag in Hm'. cbn [match_at foldr step lit cls] in Hm'.
  apply once_inv in Hm' as (c1 & s1 & r1 & Hu & Hc1 & Hm1 & Hr).
  apply once_inv in Hm1 as (c2 & s2 & r2 & Hs1 & Hc2 & Hm2 & Hr1).
  eapply (opens_tag_of_match (match_at Processor.rx_tag) prev u r c1 c2 s2).
  - apply sound_match_at.
  - apply (reads_match_at ">" [lit "<"; cls (none_of ">") Plus] []).
  - exact Hm.
  - by rewrite Hu, Hs1.
  - by apply Ascii.eqb_eq in Hc1.
  - intros ->. discriminate Hc2.
  - exists (whole r2). by rewrite Hr, Hr1.
Qed.

(** Where no pattern match starts, [sub] changes nothing. *)
Lemma sub_keeps rx repl s :
  (∀ u prev, u `suffix_of` s → match_at rx prev u = None) →
  sub rx repl s = s.
Proof.
  intros H. unfold sub.
  pose proof (sub_from_pass rx repl s []) as Hpass. rewrite app_nil_r in Hpass.
  rewrite Hpass.
  - simpl. rewrite H; [by rewrite app_nil_r|]. apply suffix_nil.
  - intros prev a c b ->. rewrite app_nil_r. apply H. by apply suffix_app_r.
Qed.

Lemma no_open_sub_block name t :
  no_open t → sub (rx_block (String "s" name)) [] t = t.
Proof.
  intros Ht. apply sub_keeps. intros u prev Hu.
  destruct (match_at _ prev u) as [r|] eqn:E; [|done].
  apply match_at_block_opens in E. by rewrite (Ht u Hu) in E.
Qed.

Lemma no_open_sub_tag repl t : no_open t → sub Processor.rx_tag repl t = t.
Proof.
  intros Ht. apply sub_keeps. intros u prev Hu.
  destruct (match_at _ prev u) as [r|] eqn:E; [|done].
  apply match_at_tag_hit in E. by rewrite (Ht u Hu) in E.
Qed.

End CleanFacts.

(* ===================================================================== *)
(** ** Further properties of the program *)
(* ===================================================================== *)

Section Extras.
Import Chars Re Str Spec Aux Shape Helper.
Import ReFacts StrFacts ScanFacts ProcessorFacts BlockFacts AnalyzerFacts.
Import ReadabilityFacts SimilarityFacts CorpusFacts BatchFacts.
Import WhitespaceFacts CaptureFacts NameFacts StoreFacts TokenFacts.
Import CounterFacts AnalysisFacts MetricFacts PipelineFacts ReportFacts.
Import SentenceFacts RangeFacts RecordFacts CheckedFacts CleanFacts FloatFacts.

(** *** Examples, run on the embedding *)

Example output_name_example :
  Processor.output_name (L "a.html") = L "a.json"
  ∧ Processor.output_name (L "x.html.html") = L "x.json.json"
  ∧ Processor.output_name (L "page.htm") = L "page.htm".
Proof. split_and!; reflexivity. Qed.

Example ranked_tables_example :
  Ranked.main Examples.processed
    [Examples.success_of (L "a.json"); Examples.success_of (L "b.json")]
  = Some {| Ranked.unique_words := 3;
            Ranked.report_top_100_words :=
              [ {| Ranked.word := L "hello"; Ranked.count := 2;
                   Ranked.frequency := Num.double (5 # 10) |};
                {| Ranked.word := L "world"; Ranked.count := 1;
                   Ranked.frequency := Num.double (25 # 100) |};
                {| Ranked.word := L "there"; Ranked.count := 1;
                   Ranked.frequency := Num.double (25 # 100) |} ];
            Ranked.report_top_bigrams :=
              [ {| Ranked.bigram := L "hello world"; Ranked.bigram_count := 1 |};
                {| Ranked.bigram := L "hello there"; Ranked.bigram_count := 1 |} ] |}.
Proof. by vm_compute. Qed.

Example most_common_example :
  Counter.most_common 2
    (Counter.update [] [L "c"; L "a"; L "b"; L "a"; L "b"; L "d"])
  = [(L "a", 2); (L "b", 2)].
Proof. reflexivity. Qed.

Example wait_example :
  Checked.wait (λ k, 3 <=? k) 0 10 = Some 3
  ∧ Checked.wait (λ _, false) 0 10 = None.
Proof. split; reflexivity. Qed.

(** *** The cleaned text *)

(** X1: the text that [strip_html] returns is the markup, without its
    script and style elements and with a space for each tag, split at white
    space and joined again with single spaces.  Splitting the text at white
    space and joining the words with single spaces gives the text back, and
    white space occurs in it only as one space between two other
    characters: never at an end, never twice in a row, and never as a tab
    or a line break. *)
Theorem strip_html_text_normal (html : str) :
  let text := Processor.text_of (Processor.strip_html html) in
  let marked := sub Processor.rx_tag (L " ") (Processor.remove_blocks html) in
  text = join (L " ") (split_ws marked)
  ∧ split_ws text = split_ws marked
  ∧ join (L " ") (split_ws text) = text
  ∧ (∀ a c b, text = a ++ c :: b → is_space c = true →
       c = " "%char
       ∧ (∃ a' x, a = a' ++ [x] ∧ is_space x = false)
       ∧ (∃ y b', b = y :: b' ∧ is_space y = false)).
Proof.
  intros text marked.
  assert (H1 : text = join (L " ") (split_ws marked)) by apply strip_collapse.
  assert (H2 : split_ws text = split_ws marked).
  { rewrite H1. apply split_ws_join, split_ws_plain. }
  split_and!; [done|done|by rewrite H2|].
  intros a c b Heq Hc. rewrite H1 in Heq.
  eapply join_spaces; [apply split_ws_plain|exact Heq|exact Hc].
Qed.

(** *** The statistics of a text *)

(** X2: [count_statistics] counts the words that [text.split()] returns;
    the filter on that list removes nothing.  The average word length is
    the number of characters that are not white space over the number of
    words, a division of two integers in double precision whose result is
    then rounded to two decimals, and 0 when there is no word; there is no
    word exactly when the text has white space only.  A word has at least
    one character, so that the average of a text with a word is at least
    1. *)
Theorem count_statistics_words (text : str) :
  let words := length (split_ws text) in
  let chars := length (List.filter nonspace text) in
  Processor.word_count (Processor.count_statistics text) = words
  ∧ Processor.avg_word_length (Processor.count_statistics text)
    = Num.round (if 0 <? words then Num.div chars words else 0%Q) 2
  ∧ (Processor.word_count (Processor.count_statistics text) = 0
     ↔ Forall (λ c, is_space c = true) text)
  ∧ words ≤ chars
  ∧ (0 < words →
     (1 <= Processor.avg_word_length (Processor.count_statistics text))%Q).
Proof.
  intros words chars. split_and!.
  - apply word_count_split.
  - apply avg_word_length_split.
  - rewrite word_count_split, length_zero_iff_nil. apply split_ws_nil_iff.
  - apply words_le_chars.
  - intros Hw. rewrite avg_word_length_split. fold words chars.
    rewrite (proj2 (Nat.ltb_lt 0 words) Hw).
    apply round_ge_1, div_ge_1; [apply words_le_chars|done].
Qed.

(** X3: the word count that the Processor records for a document is the
    number of spaces of its cleaned text plus one, and 0 for an empty
    text. *)
Theorem cleaned_text_word_count (source_file html : str) :
  let text := Processor.text_of (Processor.strip_html html) in
  Processor.word_count (Processor.pd_statistics (Processor.render source_file html))
  = match text with [] => 0 | _ => S (occurrences " " text) end.
Proof.
  intros text. rewrite render_statistics. fold text. rewrite word_count_split.
  assert (Hjoin : join (L " ") (split_ws text) = text).
  { unfold text, Processor.text_of, Processor.strip_html. cbn [fst].
    fold (collapse (sub Processor.rx_tag (L " ")
                      (sub Processor.rx_style [] (sub Processor.rx_script [] html)))).
    rewrite strip_collapse. rewrite split_ws_join by apply split_ws_plain. done. }
  pose proof (occurrences_join (split_ws text) (split_ws_plain text)) as Hocc.
  rewrite Hjoin in Hocc. rewrite Hocc.
  destruct text as [|c t]; [done|].
  destruct (split_ws (c :: t)) as [|w ws]; [done|]. simpl. lia.
Qed.

(** X4: a text of white space only, the empty text included, has no word,
    no sentence and no paragraph, and its average word length is 0: no
    division takes place. *)
Theorem count_statistics_blank (text : str) :
  Forall (λ c, is_space c = true) text →
  Processor.word_count (Processor.count_statistics text) = 0
  ∧ Processor.sentence_count (Processor.count_statistics text) = 0
  ∧ Processor.paragraph_count (Processor.count_statistics text) = 0
  ∧ (Processor.avg_word_length (Processor.count_statistics text) == 0)%Q.
Proof.
  intros Hblank.
  assert (Hw : split_ws text = []) by (by apply split_ws_nil_iff).
  split_and!.
  - by rewrite word_count_split, Hw.
  - unfold Processor.count_statistics. cbn [Processor.sentence_count].
    rewrite stripped_nonblank_spaces; [done|].
    apply split_from_chars; [constructor|done].
  - unfold Processor.count_statistics. cbn [Processor.paragraph_count].
    rewrite stripped_nonblank_spaces; [done|].
    apply split_from_chars; [constructor|done].
  - rewrite avg_word_length_split, Hw. reflexivity.
Qed.

Lemma count_statistics_blank_witness :
  Processor.word_count (Processor.count_statistics (L "   ")) = 0
  ∧ Processor.sentence_count (Processor.count_statistics (L "   ")) = 0
  ∧ Processor.paragraph_count (Processor.count_statistics (L "   ")) = 0
  ∧ (Processor.avg_word_length (Processor.count_statistics (L "   ")) == 0)%Q.
Proof. apply (count_statistics_blank (L "   ")). by repeat constructor. Defined.

(** *** Links and images *)

(** X5: every link and every image that [strip_html] returns is a string
    of at least one character, without a quote, a space or a closing
    angle bracket. *)
Theorem strip_html_values (html v : str) :
  v ∈ Processor.links_of (Processor.strip_html html)
  ∨ v ∈ Processor.images_of (Processor.strip_html html) →
  v ≠ []
  ∧ Forall (λ c, c ≠ "'"%char ∧ c ≠ Processor.dquote ∧ c ≠ " "%char ∧ c ≠ ">"%char) v.
Proof.
  unfold Processor.links_of, Processor.images_of, Processor.strip_html. cbn [fst snd].
  rewrite rx_href_attr, rx_src_attr.
  intros [Hv|Hv]; apply findall_attr_values in Hv as [Hne Hall];
    (split; [done|]); (eapply Forall_impl; [exact Hall|]);
    intros c; apply is_value_char_spec.
Qed.

Lemma strip_html_values_witness :
  L "x.png" ≠ []
  ∧ Forall (λ c, c ≠ "'"%char ∧ c ≠ Processor.dquote ∧ c ≠ " "%char ∧ c ≠ ">"%char)
           (L "x.png").
Proof.
  apply (strip_html_values (L "<img src=x.png alt=y>") (L "x.png")).
  right. vm_compute. left.
Defined.

(** *** The name of the output file *)

(** X6: the output name is the source name with every occurrence of
    [.html] replaced by [.json], wherever it stands: an occurrence in the
    middle of the name is replaced as well as the extension.  The name
    keeps its length.  Two different source names can have the same output
    name: [stem.html] and [stem.json] do, for every stem. *)
Theorem output_name_every_occurrence (a b : str) :
  Processor.output_name (a ++ L ".html" ++ b)
  = Processor.output_name a ++ L ".json" ++ Processor.output_name b
  ∧ length (Processor.output_name a) = length a
  ∧ Processor.output_name (a ++ L ".html") = Processor.output_name (a ++ L ".json").
Proof.
  split_and!.
  - change (L ".html" ++ b) with ("."%char :: L "html" ++ b).
    rewrite output_name_app_dot. f_equal.
  - by apply (length_replace (L ".html") (L ".json") (length a)).
  - change (L ".html") with ("."%char :: L "html").
    change (L ".json") with ("."%char :: L "json").
    by rewrite !output_name_app_dot.
Qed.

(** X7: an output name has no [.html] left in it; a source name without
    [.html], and only such a name, is its own output name (the output file
    then has the name of the raw file); and taking the output name twice
    changes nothing more. *)
Theorem output_name_fixed_point (s : str) :
  contains (L ".html") (Processor.output_name s) = false
  ∧ (Processor.output_name s = s ↔ contains (L ".html") s = false)
  ∧ Processor.output_name (Processor.output_name s) = Processor.output_name s.
Proof.
  assert (H : contains (L ".html") (Processor.output_name s) = false).
  { by apply (contains_output_name (length s)). }
  split_and!; [done| |by apply output_name_same].
  split; [by intros <-|apply output_name_same].
Qed.

(** *** What the Processor does to the storage area *)





(** *** Tokens and n-grams *)

(** X11: every token that [tokenize_text] returns is a non-empty string of
    the letters a to z; the tokens joined with single spaces tokenize to
    themselves, and split at white space they give the tokens back. *)
Theorem tokenize_text_shape (text : str) :
  Forall is_token (Analyzer.tokenize_text text)
  ∧ Analyzer.tokenize_text (join (L " ") (Analyzer.tokenize_text text))
    = Analyzer.tokenize_text text
  ∧ split_ws (join (L " ") (Analyzer.tokenize_text text))
    = Analyzer.tokenize_text text.
Proof.
  pose proof (tokenize_text_tokens text) as H. split_and!; [done| |].
  - by apply tokenize_text_join.
  - apply split_ws_join. eapply Forall_impl; [exact H|]. apply token_plain.
Qed.

(** X12: a character that is not a word character (white space,
    punctuation) separates tokens: the tokens of a text are the tokens of what
    comes before that character followed by the tokens of what comes after
    it. *)
Theorem tokenize_text_separator (a b : str) (d : ascii) :
  is_word d = false →
  Analyzer.tokenize_text (a ++ d :: b)
  = Analyzer.tokenize_text a ++ Analyzer.tokenize_text b.
Proof. apply tokenize_text_app. Qed.

Lemma tokenize_text_separator_witness :
  Analyzer.tokenize_text (L "x9 It's" ++ ","%char :: L "ok")
  = Analyzer.tokenize_text (L "x9 It's") ++ Analyzer.tokenize_text (L "ok").
Proof. apply (tokenize_text_separator (L "x9 It's") (L "ok") ","). reflexivity. Defined.

(** X13: [extract_ngrams words n] has one entry for each window of [n]
    consecutive words, [len(words) + 1 - n] of them, and none when there are
    fewer than [n] words.  Entry [i] is the words [i] to [i + n - 1] joined
    with single spaces; when the words have no white space (as tokens do),
    splitting the entry at white space gives these [n] words back. *)
Theorem extract_ngrams_windows (words : list str) (n : nat) :
  length (Analyzer.extract_ngrams words n) = length words + 1 - n
  ∧ (∀ i, i + n ≤ length words →
       Analyzer.extract_ngrams words n !! i
       = Some (join (L " ") (take n (drop i words)))
       ∧ length (take n (drop i words)) = n
       ∧ (Forall is_plain_word words →
          split_ws (join (L " ") (take n (drop i words))) = take n (drop i words)))
  ∧ (length words < n → Analyzer.extract_ngrams words n = []).
Proof.
  split_and!.
  - apply length_extract_ngrams.
  - intros i Hi. destruct (lookup_extract_ngrams words n i Hi) as [H1 H2].
    split_and!; [done|done|]. intros Hw. apply split_ws_join.
    by apply Forall_take, Forall_drop.
  - apply extract_ngrams_short.
Qed.

(** *** The corpus *)

(** X14: what [analyze_corpus] collects fits together.  The words of the
    documents are the tokens of the texts, in the same order; the word count
    of a document is the number of its words; the list of all words is the
    words of the documents one after the other, which is also what
    tokenizing the texts joined with spaces gives; the total of words is the
    sum of the word counts of the documents; and every word is a non-empty
    string of the letters a to z. *)
Theorem analyze_corpus_consistent (w : Processor.world)
    (processed_files : list Processor.item_result) :
  let corpus := Analyzer.analyze_corpus w processed_files in
  map Analyzer.words (Analyzer.documents_data corpus)
  = map Analyzer.tokenize_text (Analyzer.all_texts corpus)
  ∧ Forall (λ d, Analyzer.doc_word_count d = length (Analyzer.words d))
           (Analyzer.documents_data corpus)
  ∧ Analyzer.all_words corpus
    = concat (map Analyzer.words (Analyzer.documents_data corpus))
  ∧ Analyzer.all_words corpus
    = Analyzer.tokenize_text (join (L " ") (Analyzer.all_texts corpus))
  ∧ length (Analyzer.all_words corpus)
    = Analyzer.sum_nat (map Analyzer.doc_word_count (Analyzer.documents_data corpus))
  ∧ Forall is_token (Analyzer.all_words corpus).
Proof.
  intros corpus.
  pose proof (analyze_corpus_texts w processed_files) as Htexts. fold corpus in Htexts.
  pose proof (analyze_corpus_words w processed_files) as Hwords. fold corpus in Hwords.
  pose proof (documents_word_count w processed_files) as Hcount. fold corpus in Hcount.
  assert (Htok : Analyzer.all_words corpus
                 = Analyzer.tokenize_text (join (L " ") (Analyzer.all_texts corpus))).
  { by rewrite tokenize_text_texts, Htexts. }
  split_and!; [done|done|done|done| |].
  - rewrite Hwords, length_concat_sum. f_equal. rewrite map_map.
    apply Forall_fmap_ext_1. eapply Forall_impl; [exact Hcount|]. by intros d ->.
  - rewrite Htok. apply tokenize_text_tokens.
Qed.

(** X15: the word counter of the corpus has one item for each distinct
    word, with the number of times the word occurs in the corpus, at least
    once.  So the number of unique words of the report, the length of the
    counter, is the number of distinct words and at most the total of words,
    and the counts add up to the total of words. *)
Theorem word_frequency_counts (w : Processor.world)
    (processed_files : list Processor.item_result) :
  let corpus := Analyzer.analyze_corpus w processed_files in
  let word_frequency :=
    Ranked.word_frequency (Ranked.analyze_corpus w processed_files) in
  NoDup word_frequency.*1
  ∧ (∀ word, word ∈ word_frequency.*1 ↔ word ∈ Analyzer.all_words corpus)
  ∧ (∀ word n, (word, n) ∈ word_frequency →
       n = count_of word (Analyzer.all_words corpus) ∧ 0 < n)
  ∧ length word_frequency = size (Analyzer.to_set (Analyzer.all_words corpus))
  ∧ length word_frequency ≤ length (Analyzer.all_words corpus)
  ∧ Analyzer.sum_nat word_frequency.*2 = length (Analyzer.all_words corpus)
  ∧ (∀ report tables,
       Analyzer.main w processed_files = Some report →
       Ranked.main w processed_files = Some tables →
       Ranked.unique_words tables = Analyzer.unique_words report
       ∧ Analyzer.unique_words report ≤ Analyzer.report_total_words report).
Proof.
  intros corpus word_frequency.
  assert (Hwf : word_frequency = Counter.update [] (Analyzer.all_words corpus))
    by apply word_frequency_corpus.
  rewrite Hwf. split_and!.
  - apply NoDup_update. constructor.
  - intros word. rewrite elem_of_keys_update, elem_of_nil. tauto.
  - intros word n Hin. by destruct (counter_items _ _ _ Hin) as (? & ? & _).
  - apply length_counter.
  - rewrite length_counter. apply size_to_set_le.
  - by rewrite sum_update.
  - intros report tables ->%analyzer_main_unfold ->%ranked_main_unfold.
    cbn [Ranked.unique_words Analyzer.unique_words Analyzer.report_total_words].
    fold corpus. rewrite word_frequency_corpus. fold corpus.
    rewrite length_counter. split; [done|apply size_to_set_le].
Qed.

(** X16: the table [top_100_words] of the report.  It has 100 entries, or
    as many as there are distinct words when these are fewer; its counts go
    down; no word is in it twice; the count of an entry is the number of
    times its word occurs in the corpus, at least once, and its frequency is
    that count over the total of words, divided in double precision and
    rounded to four decimals, a number between 0 and 1 (the total is not 0
    when the table has an entry); and a
    word of the corpus that is left out occurs at most as often as any word
    of the table. *)
Theorem top_100_words_table (w : Processor.world)
    (process_results : list Processor.item_result) (tables : Ranked.tables) :
  Ranked.main w process_results = Some tables →
  let all := Analyzer.all_words (Analyzer.analyze_corpus w process_results) in
  let top := Ranked.report_top_100_words tables in
  length top = 100 `min` size (Analyzer.to_set all)
  ∧ descending (map Ranked.count top)
  ∧ NoDup (map Ranked.word top)
  ∧ Forall (λ e, Ranked.count e = count_of (Ranked.word e) all
                 ∧ 0 < Ranked.count e
                 ∧ Ranked.frequency e
                   = Num.round (Num.div (Ranked.count e) (length all)) 4
                 ∧ (0 <= Ranked.frequency e)%Q ∧ (Ranked.frequency e <= 1)%Q) top
  ∧ (∀ e word, e ∈ top → word ∈ all → word ∉ map Ranked.word top →
       count_of word all ≤ Ranked.count e).
Proof.
  intros ->%ranked_main_unfold all top.
  unfold top. cbn [Ranked.report_top_100_words].
  rewrite word_frequency_corpus. fold all. unfold Ranked.top_100_words.
  set (items := Counter.most_common 100 (Counter.update [] all)).
  assert (Hword : map Ranked.word
                    (map (λ wc : str * nat,
                       {| Ranked.word := wc.1; Ranked.count := wc.2;
                          Ranked.frequency :=
                            Num.round (if 0 <? length all
                                       then Num.div wc.2 (length all) else 0%Q) 4 |})
                       items) = items.*1).
  { rewrite map_map. done. }
  assert (Hcount : map Ranked.count
                    (map (λ wc : str * nat,
                       {| Ranked.word := wc.1; Ranked.count := wc.2;
                          Ranked.frequency :=
                            Num.round (if 0 <? length all
                                       then Num.div wc.2 (length all) else 0%Q) 4 |})
                       items) = items.*2).
  { rewrite map_map. done. }
  rewrite Hword, Hcount. split_and!.
  - rewrite length_map. unfold items. by rewrite length_most_common, length_counter.
  - apply most_common_descending.
  - apply most_common_NoDup, NoDup_update. constructor.
  - apply Forall_forall. intros e (wc & -> & Hwc)%list_elem_of_fmap.
    destruct wc as [k c]. cbn [Ranked.word Ranked.count Ranked.frequency fst snd].
    destruct (most_common_items 100 all k c Hwc) as (Hc & Hpos & Hk).
    assert (Hlen : 0 < length all).
    { destruct all; [by apply elem_of_nil in Hk|simpl; lia]. }
    apply Nat.ltb_lt in Hlen as Hlen'. rewrite Hlen'.
    split_and!; [done|done|done| |].
    + apply round_unit; apply div_unit; first [rewrite Hc; apply count_of_le|done].
    + apply round_unit; apply div_unit; first [rewrite Hc; apply count_of_le|done].
  - intros e word (wc & -> & Hwc)%list_elem_of_fmap Hword' Hout.
    destruct wc as [k c]. cbn [Ranked.count snd].
    by apply (most_common_left_out 100 all k c word).
Qed.

Lemma top_100_words_table_witness :
  ∃ tables,
    Ranked.main Examples.processed
      [Examples.success_of (L "a.json"); Examples.success_of (L "b.json")]
    = Some tables
    ∧ length (Ranked.report_top_100_words tables)
      = 100 `min` size (Analyzer.to_set
                          (Analyzer.all_words
                             (Analyzer.analyze_corpus Examples.processed
                                [Examples.success_of (L "a.json");
                                 Examples.success_of (L "b.json")]))).
Proof.
  eexists. split; [reflexivity|].
  exact (proj1 (top_100_words_table Examples.processed
                  [Examples.success_of (L "a.json"); Examples.success_of (L "b.json")]
                  _ eq_refl)).
Defined.

(** X17: the table [top_bigrams] of the report.  Its entries are counted
    over the bigrams of each document taken by itself: a bigram is two words
    that follow each other in one document, joined with a space, never the
    last word of a document with the first word of the next; a document of
    [n] words gives [n - 1] of them.  The table has 20 entries, or as many as
    there are distinct bigrams when these are fewer; its counts go down; no
    bigram is in it twice; and the count of an entry is the number of times
    its bigram occurs in the documents. *)
Theorem top_bigrams_table (w : Processor.world)
    (process_results : list Processor.item_result) (tables : Ranked.tables) :
  Ranked.main w process_results = Some tables →
  let docs := Analyzer.documents_data (Analyzer.analyze_corpus w process_results) in
  let all := concat (map (λ d, Analyzer.extract_ngrams (Analyzer.words d) 2) docs) in
  let top := Ranked.report_top_bigrams tables in
  length all = Analyzer.sum_nat (map (λ d, Analyzer.doc_word_count d - 1) docs)
  ∧ length top = 20 `min` size (Analyzer.to_set all)
  ∧ descending (map Ranked.bigram_count top)
  ∧ NoDup (map Ranked.bigram top)
  ∧ Forall (λ e, Ranked.bigram_count e = count_of (Ranked.bigram e) all
                 ∧ 0 < Ranked.bigram_count e
                 ∧ ∃ d i w1 w2,
                     d ∈ docs ∧ Analyzer.words d !! i = Some w1
                     ∧ Analyzer.words d !! S i = Some w2
                     ∧ Ranked.bigram e = w1 ++ L " " ++ w2) top.
Proof.
  intros ->%ranked_main_unfold docs all top.
  unfold top. cbn [Ranked.report_top_bigrams].
  rewrite bigram_frequency_corpus. fold docs all. unfold Ranked.top_bigrams.
  set (items := Counter.most_common 20 (Counter.update [] all)).
  assert (Hb : map Ranked.bigram
                 (map (λ bc : str * nat,
                    {| Ranked.bigram := bc.1; Ranked.bigram_count := bc.2 |}) items)
               = items.*1) by (by rewrite map_map).
  assert (Hc : map Ranked.bigram_count
                 (map (λ bc : str * nat,
                    {| Ranked.bigram := bc.1; Ranked.bigram_count := bc.2 |}) items)
               = items.*2) by (by rewrite map_map).
  rewrite Hb, Hc. split_and!.
  - unfold all. rewrite length_concat_sum, map_map. f_equal.
    apply Forall_fmap_ext_1.
    pose proof (documents_word_count w process_results) as Hcount. fold docs in Hcount.
    eapply Forall_impl; [exact Hcount|]. intros d ->.
    rewrite length_extract_ngrams. lia.
  - rewrite length_map. unfold items. by rewrite length_most_common, length_counter.
  - apply most_common_descending.
  - apply most_common_NoDup, NoDup_update. constructor.
  - apply Forall_forall. intros e (bc & -> & Hbc)%list_elem_of_fmap.
    destruct bc as [g c]. cbn [Ranked.bigram Ranked.bigram_count fst snd].
    destruct (most_common_items 20 all g c Hbc) as (Hcount & Hpos & Hg).
    split_and!; [done|done|].
    unfold all in Hg. apply list_elem_of_In, in_concat in Hg as (gs & Hgs & Hg).
    apply list_elem_of_In in Hgs, Hg.
    apply list_elem_of_fmap in Hgs as (d & -> & Hd).
    destruct (bigram_of_words _ _ Hg) as (i & w1 & w2 & H1 & H2 & ->).
    by exists d, i, w1, w2.
Qed.

Lemma top_bigrams_table_witness :
  ∃ tables,
    Ranked.main Examples.processed
      [Examples.success_of (L "a.json"); Examples.success_of (L "b.json")]
    = Some tables
    ∧ map Ranked.bigram (Ranked.report_top_bigrams tables)
      = [L "hello world"; L "hello there"]
    ∧ NoDup (map Ranked.bigram (Ranked.report_top_bigrams tables)).
Proof.
  eexists. split_and!; [reflexivity|reflexivity|].
  exact (proj1 (proj2 (proj2 (proj2
           (top_bigrams_table Examples.processed
              [Examples.success_of (L "a.json"); Examples.success_of (L "b.json")]
              _ eq_refl))))).
Defined.

(** *** Similarity *)

(** X18: the similarity of two documents is a number between 0 and 1; it
    is 1 exactly when the two documents have the same set of tokens and that
    set is not empty, and 0 exactly when they have no token in common. *)
Theorem jaccard_similarity_range (a b : list str) :
  (0 <= Analyzer.jaccard_similarity a b)%Q
  ∧ (Analyzer.jaccard_similarity a b <= 1)%Q
  ∧ ((Analyzer.jaccard_similarity a b == 1)%Q
     ↔ Analyzer.to_set a = Analyzer.to_set b ∧ Analyzer.to_set a ≠ ∅)
  ∧ ((Analyzer.jaccard_similarity a b == 0)%Q
     ↔ Analyzer.to_set a ∩ Analyzer.to_set b = ∅).
Proof.
  destruct (jaccard_range a b) as [H0 H1].
  split_and!; [done|done|apply jaccard_one|apply jaccard_zero].
Qed.

(** X19: every entry of the similarity table compares two documents at
    different positions of the corpus, the earlier one first: its two names
    are the file names of these documents, and its similarity is the
    similarity of their words, as a double, rounded to four decimals, a
    number between 0 and 1.  No document is compared with itself, and no pair is listed in
    both orders. *)
Theorem document_similarity_entries (documents_data : list Analyzer.document)
    (e : Analyzer.similarity_entry) :
  e ∈ Analyzer.calculate_document_similarities documents_data →
  ∃ i j d1 d2,
    i < j ∧ documents_data !! i = Some d1 ∧ documents_data !! j = Some d2
    ∧ Analyzer.doc1 e = Analyzer.filename d1
    ∧ Analyzer.doc2 e = Analyzer.filename d2
    ∧ Analyzer.similarity e
      = Num.round
          (Num.double
             (Analyzer.jaccard_similarity (Analyzer.words d1) (Analyzer.words d2))) 4
    ∧ (0 <= Analyzer.similarity e)%Q ∧ (Analyzer.similarity e <= 1)%Q.
Proof.
  intros (i & j & d1 & d2 & Hij & H1 & H2 & Hd1 & Hd2 & Hs)%similarity_entries.
  exists i, j, d1, d2. split_and!; try done.
  - rewrite Hs. apply round_unit; apply double_unit; apply jaccard_range.
  - rewrite Hs. apply round_unit; apply double_unit; apply jaccard_range.
Qed.

Lemma document_similarity_entries_witness :
  ∃ i j d1 d2,
    i < j
    ∧ Analyzer.documents_data
        (Analyzer.analyze_corpus Examples.processed
           [Examples.success_of (L "a.json"); Examples.success_of (L "b.json")])
      !! i = Some d1
    ∧ Analyzer.documents_data
        (Analyzer.analyze_corpus Examples.processed
           [Examples.success_of (L "a.json"); Examples.success_of (L "b.json")])
      !! j = Some d2
    ∧ L "a.json" = Analyzer.filename d1
    ∧ L "b.json" = Analyzer.filename d2
    ∧ Num.double (3333 # 10000)
      = Num.round
          (Num.double
             (Analyzer.jaccard_similarity (Analyzer.words d1) (Analyzer.words d2))) 4
    ∧ (0 <= Num.double (3333 # 10000))%Q ∧ (Num.double (3333 # 10000) <= 1)%Q.
Proof.
  apply (document_similarity_entries
           (Analyzer.documents_data
              (Analyzer.analyze_corpus Examples.processed
                 [Examples.success_of (L "a.json"); Examples.success_of (L "b.json")]))
           {| Analyzer.doc1 := L "a.json"; Analyzer.doc2 := L "b.json";
              Analyzer.similarity := Num.double (3333 # 10000) |}).
  vm_compute. left.
Defined.

(** *** Readability *)

(** X20: the readability metrics do not depend on the order of the texts
    of the corpus. *)
Theorem readability_order_free (texts texts' : list str) :
  texts ≡ₚ texts' →
  Analyzer.calculate_readability_metrics texts
  = Analyzer.calculate_readability_metrics texts'.
Proof.
  intros H. unfold Analyzer.calculate_readability_metrics.
  by rewrite (corpus_totals_perm texts texts' H).
Qed.

Lemma readability_order_free_witness :
  Analyzer.calculate_readability_metrics [L "One two. Three!"; L "Four"]
  = Analyzer.calculate_readability_metrics [L "Four"; L "One two. Three!"].
Proof. apply readability_order_free. apply Permutation_swap. Defined.

(** *** The two stages together *)



(** *** Sentences *)

(** X22: the sentences that [count_statistics] counts, and that the
    readability metrics count, are the maximal runs of characters other than
    the full stop, the exclamation mark and the question mark that have a
    character other than white space; several marks in a row end one
    sentence, and a text that ends with a mark has no empty last sentence.
    There are at most as many sentences as such runs, and there is none
    exactly when the text has white space and these marks only. *)
Theorem sentence_count_runs (text : str) :
  let pieces := runs (λ c, negb (one_of ".!?" c)) text in
  sentences_of text = map strip (List.filter Processor.nonblank pieces)
  ∧ Processor.sentence_count (Processor.count_statistics text)
    = length (List.filter Processor.nonblank pieces)
  ∧ Processor.sentence_count (Processor.count_statistics text) = sentences_in text
  ∧ Processor.sentence_count (Processor.count_statistics text) ≤ length pieces
  ∧ (Processor.sentence_count (Processor.count_statistics text) = 0
     ↔ Forall (λ c, is_space c = true ∨ one_of ".!?" c = true) text).
Proof.
  intros pieces.
  assert (Hs : sentences_of text = Processor.stripped_nonblank pieces).
  { unfold sentences_of, Processor.rx_sentence_end. apply split_runs. }
  assert (Hc : Processor.sentence_count (Processor.count_statistics text)
               = length (List.filter Processor.nonblank pieces)).
  { unfold Processor.count_statistics. cbn [Processor.sentence_count].
    fold (sentences_of text). by rewrite Hs, length_stripped_nonblank. }
  split_and!; [done|done| | |].
  - unfold sentences_in. by rewrite Hc, Hs, length_stripped_nonblank.
  - rewrite Hc. apply List.filter_length_le.
  - rewrite Hc, length_zero_iff_nil, filter_nonblank_nil. split.
    + intros Hall. apply Forall_forall. intros c Hc'.
      destruct (one_of ".!?" c) eqn:E; [by right|left].
      destruct (runs_cover (λ c, negb (one_of ".!?" c)) (length text) text c)
        as (r & Hr & Hin); [done|done|by rewrite E|].
      rewrite Forall_forall in Hall. specialize (Hall r Hr).
      rewrite Forall_forall in Hall. by apply Hall.
    + intros Hall. apply Forall_forall. intros r Hr.
      destruct (runs_elem _ (length text) text r (le_n _) Hr) as [_ Hchars].
      eapply Forall_impl; [exact Hchars|]. intros c [Hnot Hin].
      rewrite Forall_forall in Hall. destruct (Hall c Hin) as [?|Hmark]; [done|].
      by rewrite Hmark in Hnot.
Qed.

(** *** The ranges of the readability metrics *)



(** *** The records of the Processor *)

(** X24: the source name in the record of a document is the base name of
    the source file: what follows its last slash, without a slash in it, and
    the source name itself when that has no slash. *)
Theorem record_source_file (source_file html : str) :
  let name := Processor.pd_source_file (Processor.render source_file html) in
  name = Processor.basename source_file
  ∧ ("/"%char ∉ name)
  ∧ (name = source_file ∨ ∃ a, source_file = a ++ "/"%char :: name)
  ∧ ("/"%char ∉ source_file → name = source_file).
Proof.
  intros name. unfold name. rewrite render_source_file.
  destruct (basename_spec source_file) as [H1 H2].
  split_and!; [done|done|done|apply basename_no_slash].
Qed.

(** X25: in the completion record, a success item has the three counts of
    its document: the word count of the cleaned text of its raw document, the
    number of its links and the number of its images; an item that is not a
    success has no count. *)
Theorem completion_counts (env : nat → Processor.write_outcome)
    (fetch_results : list Processor.fetch_item) (w : Processor.world)
    (k : nat) (r : Processor.item_result) :
  Processor.results (Processor.main env fetch_results w).1 !! k = Some r →
  if Processor.is_success (Processor.status r)
  then ∃ html,
         Processor.raw_dir w !! Processor.source_file r = Some html
         ∧ Processor.counts r
           = Some (Processor.word_count
                     (Processor.count_statistics
                        (Processor.text_of (Processor.strip_html html))),
                   length (Processor.links_of (Processor.strip_html html)),
                   length (Processor.images_of (Processor.strip_html html)))
  else Processor.status r = L "failed" ∧ Processor.counts r = None.
Proof.
  rewrite processor_main_unfold. cbn [fst Processor.results]. intros Hk.
  destruct (success_items fetch_results !! k) as [it|] eqn:Hit.
  2:{ apply lookup_lt_Some in Hk. apply lookup_ge_None_1 in Hit.
      rewrite process_all_length in Hk. lia. }
  rewrite (process_all_lookup env _ 0 w k it Hit) in Hk. injection Hk as <-.
  destruct (process_item_result env k it w) as (Hsrc & _ & Hst).
  pose proof (process_item_counts env k it w) as Hcounts.
  change (0 + k) with k. rewrite Hst, Hsrc, Hcounts. unfold item_ok.
  destruct (Processor.raw_dir w !! Processor.file it) as [html|]; [|done].
  destruct (env k); [|done|done]. by exists html.
Qed.

Lemma completion_counts_witness :
  ∃ html,
    Processor.raw_dir Examples.fresh !! L "a.html" = Some html
    ∧ Some (2, 0, 0)
      = Some (Processor.word_count
                (Processor.count_statistics
                   (Processor.text_of (Processor.strip_html html))),
              length (Processor.links_of (Processor.strip_html html)),
              length (Processor.images_of (Processor.strip_html html))).
Proof.
  exact (completion_counts Examples.all_writes_ok
           [Examples.ok (L "a.html"); Examples.ok (L "b.html")] Examples.fresh 0
           {| Processor.source_file := L "a.html";
              Processor.output_file := L "a.json";
              Processor.status := L "success";
              Processor.counts := Some (2, 0, 0) |} eq_refl).
Defined.

(** *** The completion record of the fetch stage *)

(** X26: the wait for the marker file ends at the first check that finds
    the file, and not before; as long as no check finds the file, the stage
    goes on waiting: there is no time-out. *)
Theorem wait_first_check (exists_at : nat → bool) (fuel : nat) :
  (∀ n, Checked.wait exists_at 0 fuel = Some n
        ↔ n < fuel ∧ exists_at n = true ∧ ∀ j, j < n → exists_at j = false)
  ∧ (Checked.wait exists_at 0 fuel = None ↔ ∀ j, j < fuel → exists_at j = false).
Proof.
  split.
  - intros n. rewrite wait_some. split.
    + intros (_ & Hn & He & Hfirst). split_and!; [lia|done|].
      intros j Hj. apply Hfirst; lia.
    + intros (Hn & He & Hfirst). split_and!; [lia|lia|done|].
      intros j _ Hj. by apply Hfirst.
  - rewrite wait_none. split.
    + intros H j Hj. apply H; lia.
    + intros H j _ Hj. apply H. lia.
Qed.

(** X27: an element of the fetch record that is not an object, or that has
    no status, ends the Processor with an exception before any document is
    processed: the storage area is as it was, and no completion record is
    written. *)
Theorem malformed_record_raises (env : nat → Processor.write_outcome)
    (results : list Checked.element) (w : Processor.world) (r : Checked.element) :
  r ∈ results → Checked.status_is_success r = None →
  Checked.main env (Some results) w = (Checked.Raised, w).
Proof.
  intros Hin Hr. unfold Checked.main.
  by rewrite (successful_files_raises results r Hin Hr).
Qed.

Lemma malformed_record_raises_witness :
  Checked.main Examples.all_writes_ok
    (Some [Checked.Object {[ L "status" := Checked.Str (L "success");
                             L "file" := Checked.Str (L "a.html") ]};
           Checked.Object {[ L "file" := Checked.Str (L "b.html") ]}])
    Examples.fresh
  = (Checked.Raised, Examples.fresh).
Proof.
  apply (malformed_record_raises _ _ _
           (Checked.Object {[ L "file" := Checked.Str (L "b.html") ]})).
  - right. left.
  - reflexivity.
Defined.

(** X28: a success item of the fetch record without a file name (no such
    field, or a value that is not a string) ends the Processor with an
    exception when its turn comes: the success items before it are processed
    and their files written, the items after it are not looked at, and no
    completion record is written.  The failure of one item is not confined
    to that item here. *)
Theorem missing_file_aborts_batch (env : nat → Processor.write_outcome)
    (results : list Checked.element) (w : Processor.world)
    (before after : list Checked.element) (bad : Checked.element)
    (names : list str) :
  Checked.successful_files results = Some (before ++ bad :: after) →
  Forall2 (λ r f, Checked.source_name r = Some f) before names →
  Checked.source_name bad = None →
  Checked.main env (Some results) w
  = (Checked.Raised,
     (Processor.process_all env 0 (map Checked.item_of names) w).2).
Proof.
  intros Hs Hbefore Hbad. unfold Checked.main. rewrite Hs.
  by rewrite (process_all_checked_raises env before bad after names 0 w Hbefore Hbad).
Qed.

Lemma missing_file_aborts_batch_witness :
  Checked.main Examples.all_writes_ok
    (Some [Checked.Object {[ L "status" := Checked.Str (L "success");
                             L "file" := Checked.Str (L "a.html") ]};
           Checked.Object {[ L "status" := Checked.Str (L "success") ]};
           Checked.Object {[ L "status" := Checked.Str (L "success");
                             L "file" := Checked.Str (L "b.html") ]}])
    Examples.fresh
  = (Checked.Raised,
     (Processor.process_all Examples.all_writes_ok 0
        (map Checked.item_of [L "a.html"]) Examples.fresh).2).
Proof.
  apply (missing_file_aborts_batch _ _ _
           [Checked.Object {[ L "status" := Checked.Str (L "success");
                              L "file" := Checked.Str (L "a.html") ]}]
           [Checked.Object {[ L "status" := Checked.Str (L "success");
                              L "file" := Checked.Str (L "b.html") ]}]
           (Checked.Object {[ L "status" := Checked.Str (L "success") ]})
           [L "a.html"]).
  - reflexivity.
  - constructor; [reflexivity|constructor].
  - reflexivity.
Defined.

(** X29: on a fetch record whose elements all are objects with a status
    and a file name, both strings, the Processor returns, and what it returns
    and leaves behind is what [Processor.main] gives for the items that the
    elements hold. *)
Theorem well_formed_record (env : nat → Processor.write_outcome)
    (results : list Checked.element) (fetch_results : list Processor.fetch_item)
    (w : Processor.world) :
  Forall2 Checked.reads results fetch_results →
  Checked.main env (Some results) w
  = (Checked.Returned (Processor.main env fetch_results w).1,
     (Processor.main env fetch_results w).2).
Proof.
  intros H. destruct (successful_files_reads results fetch_results H) as (items & Hs & Hf).
  unfold Checked.main. rewrite Hs.
  rewrite (process_all_checked env items (success_items fetch_results) 0 w Hf).
  by rewrite processor_main_unfold.
Qed.

Lemma well_formed_record_witness :
  Checked.main Examples.all_writes_ok
    (Some [Checked.Object {[ L "status" := Checked.Str (L "success");
                             L "file" := Checked.Str (L "a.html") ]}])
    Examples.fresh
  = (Checked.Returned
       (Processor.main Examples.all_writes_ok [Examples.ok (L "a.html")]
          Examples.fresh).1,
     (Processor.main Examples.all_writes_ok [Examples.ok (L "a.html")]
        Examples.fresh).2).
Proof.
  apply well_formed_record. constructor; [|constructor].
  eexists. split_and!; reflexivity.
Defined.

(** *** Cleaning twice *)

(** X30: cleaning a cleaned text changes nothing: the text that
    [strip_html] returns has no script or style element and no tag left for
    the three substitutions to find, and its white space is already in
    normal form, so that the text of [strip_html] applied to it is the text
    itself. *)
Theorem strip_html_idempotent (html : str) :
  let text := Processor.text_of (Processor.strip_html html) in
  Processor.remove_blocks text = text
  ∧ sub Processor.rx_tag (L " ") text = text
  ∧ Processor.text_of (Processor.strip_html text) = text.
Proof.
  intros text.
  pose proof (strip_html_no_open html) as Hno. fold text in Hno.
  assert (H1 : Processor.remove_blocks text = text).
  { unfold Processor.remove_blocks. rewrite rx_script_block, rx_style_block.
    rewrite (no_open_sub_block "cript" text Hno).
    apply (no_open_sub_block "tyle" text Hno). }
  assert (H2 : sub Processor.rx_tag (L " ") text = text) by (by apply no_open_sub_tag).
  split_and!; [done|done|].
  assert (Hjoin : join (L " ") (split_ws text) = text).
  { unfold text at 2. unfold Processor.text_of, Processor.strip_html. cbn [fst].
    fold (collapse (sub Processor.rx_tag (L " ")
                      (sub Processor.rx_style [] (sub Processor.rx_script [] html)))).
    rewrite strip_collapse.
    assert (split_ws text
            = split_ws (sub Processor.rx_tag (L " ")
                          (sub Processor.rx_style [] (sub Processor.rx_script [] html))))
      as ->; [|done].
    unfold text, Processor.text_of, Processor.strip_html. cbn [fst].
    fold (collapse (sub Processor.rx_tag (L " ")
                      (sub Processor.rx_style [] (sub Processor.rx_script [] html)))).
    rewrite strip_collapse. apply split_ws_join, split_ws_plain. }
  transitivity (strip (collapse (sub Processor.rx_tag (L " ")
                                   (Processor.remove_blocks text)))); [done|].
  by rewrite H1, H2, strip_collapse.
Qed.
End Extras.
